(** * Hidden maze: ray-cast visibility, collision and exploration

    A shallow embedding of the two core classes of the game,
    [RaycastSystem] (ray marching, the bounded result cache, the clamping
    setters) and [Game] (movement, wall collision, explored and visited
    cells, listener notification), with the properties of the design
    document stated and settled against them.

    Numbers.  JavaScript numbers are IEEE doubles.  They are modelled as
    exact rationals [Q]: every arithmetic step of the source is kept, its
    rounding is not.  The model is meant for finite numbers and a non-zero
    cell size ([Q] makes division by zero total, JavaScript yields
    [Infinity] or [NaN]).  What the library computes with irrational
    numbers is a parameter of the model: [Math_PI], [Math_cos],
    [Math_sin] and [Math_sqrt].  A loop that may run for ever takes
    [fuel] and returns [None] when it is spent.

    Objects.  The [Set] held in [visibleCells] is shared between the
    system and its cache entries, so [Set] objects live in a store and are
    named by a location.  A [Map] keeps its keys in insertion order and is
    an association list. *)

From Stdlib Require Import ZArith QArith Qround Qabs List Bool Lia Lqa.
Import ListNotations.

(** ** JavaScript number operations *)

Module JSNum.
Local Open Scope Q_scope.

(** [a < b] and [a <= b] as the booleans the source branches on. *)
Definition lt (a b : Q) : bool := negb (Qle_bool b a).
Definition le (a b : Q) : bool := Qle_bool a b.

(** [Math.floor], and the integer part towards zero used by [%]. *)
Definition floor (a : Q) : Z := Qfloor a.
Definition trunc (a : Q) : Z := if Qle_bool 0 a then Qfloor a else Qceiling a.

(** [a % n]: the remainder has the sign of the dividend. *)
Definition rem (a n : Q) : Q := a - n * inject_Z (trunc (a / n)).

(** [Math.max], [Math.min], [Math.abs]. *)
Definition max (a b : Q) : Q := if lt a b then b else a.
Definition min (a b : Q) : Q := if lt b a then b else a.
Definition abs (a : Q) : Q := Qabs a.

(** [a.toFixed(1)]: the sign and the number of tenths nearest to [|a|],
    ties upwards.  A negative number keeps its sign even when it rounds
    to zero (["-0.0"]), so the sign is part of the printed form. *)
Definition toFixed1 (a : Q) : bool * Z :=
  let neg := lt a 0 in
  (neg, Qfloor ((if neg then - a else a) * 10 + (1 # 2))).

End JSNum.

(** ** The maze collaborator

    The [Maze] class is not part of this core.  The core reads its size,
    its walls and its start and end cells. *)

Inductive Orientation : Type := horizontal | vertical.

Record Maze : Type := mkMaze {
  width : Z;
  height : Z;
  getWall : Orientation -> Z -> Z -> bool;   (* orientation, row, column *)
  getStart : Z * Z;                          (* column, row *)
  getEnd : Z * Z
}.

(** Modelled from the spec: a maze of the missing [Maze] class.  The four
    sides of the grid are walled, [inner] gives the walls inside, and a
    query past the extent of the wall arrays ([height + 1] rows of [width]
    horizontal segments, [height] rows of [width + 1] vertical ones) reads
    as a wall. *)
Definition walled_maze (w h : Z) (inner : Orientation -> Z -> Z -> bool)
    : Maze :=
  mkMaze w h
    (fun o row col =>
       match o with
       | horizontal =>
           (row <? 0)%Z || (h <? row)%Z || (col <? 0)%Z || (w <=? col)%Z ||
           (row =? 0)%Z || (row =? h)%Z || inner o row col
       | vertical =>
           (row <? 0)%Z || (h <=? row)%Z || (col <? 0)%Z || (w <? col)%Z ||
           (col =? 0)%Z || (col =? w)%Z || inner o row col
       end)
    (0%Z, 0%Z) ((w - 1)%Z, (h - 1)%Z).

(** Modelled from the spec: the open maze of the scenario, without inner
    walls. *)
Definition open_maze (w h : Z) : Maze := walled_maze w h (fun _ _ _ => false).

(** Modelled from the spec: a 5 by 5 maze with two inner walls, below and
    to the right of cell (0, 0). *)
Definition corner_maze : Maze :=
  walled_maze 5 5
    (fun o row col =>
       match o with
       | horizontal => (row =? 1)%Z && (col =? 0)%Z
       | vertical => (row =? 0)%Z && (col =? 1)%Z
       end).

(** A cell, as the pair that the key ["x,y"] prints. *)
Definition Cell : Type := (Z * Z)%type.

Definition cell_eqb (a b : Cell) : bool :=
  (fst a =? fst b)%Z && (snd a =? snd b)%Z.

(** A [Set] of cell keys: its elements in insertion order. *)
Definition CellSet : Type := list Cell.

Definition set_has (s : CellSet) (c : Cell) : bool := existsb (cell_eqb c) s.
Definition set_add (s : CellSet) (c : Cell) : CellSet :=
  if set_has s c then s else s ++ [c].

(** ** RaycastSystem *)

Record Point : Type := mkPoint { px : Q; py : Q; distance : Q }.

Definition cell_of (cellSize : Q) (x y : Q) : Cell :=
  (JSNum.floor (x / cellSize), JSNum.floor (y / cellSize)).

Definition out_of_grid (maze : Maze) (c : Cell) : bool :=
  (fst c <? 0)%Z || (fst c >=? width maze)%Z ||
  (snd c <? 0)%Z || (snd c >=? height maze)%Z.

Definition in_grid (maze : Maze) (c : Cell) : Prop :=
  (0 <= fst c < width maze)%Z /\ (0 <= snd c < height maze)%Z.

Record RayConfig : Type := mkRayConfig {
  rayCount : Q;
  maxRayDistance : Q;
  rayStep : Q;
  fov : Q
}.

Module Raycast.
Local Open Scope Q_scope.

(** [isPointInWall(x, y, maze, cellSize)] *)
Definition isPointInWall (x y : Q) (maze : Maze) (cellSize : Q) : bool :=
  let cellX := JSNum.floor (x / cellSize) in
  let cellY := JSNum.floor (y / cellSize) in
  let relX := JSNum.rem x cellSize / cellSize in
  let relY := JSNum.rem y cellSize / cellSize in
  if out_of_grid maze (cellX, cellY) then true
  else if JSNum.lt relY (1 # 10) && getWall maze horizontal cellY cellX
  then true
  else if JSNum.lt (9 # 10) relY && getWall maze horizontal (cellY + 1)%Z cellX
  then true
  else if JSNum.lt relX (1 # 10) && getWall maze vertical cellY cellX
  then true
  else if JSNum.lt (9 # 10) relX && getWall maze vertical cellY (cellX + 1)%Z
  then true
  else false.

(** The [while] loop of [castRay], from the state [(currentX, currentY,
    distance)].  The points pushed from this state on are returned in
    the order they are pushed.  [None]: the loop is still running when
    [fuel] iterations are spent. *)
Fixpoint march (maze : Maze) (cellSize dirX dirY step maxDistance : Q)
    (fuel : nat) (currentX currentY dist : Q) : option (list Point) :=
  if JSNum.lt dist maxDistance then
    match fuel with
    | O => None
    | S fuel' =>
        let currentX := currentX + dirX * step in
        let currentY := currentY + dirY * step in
        let dist := dist + step in
        if isPointInWall currentX currentY maze cellSize then Some []
        else
          let p := mkPoint currentX currentY dist in
          if out_of_grid maze (cell_of cellSize currentX currentY) then Some [p]
          else
            match march maze cellSize dirX dirY step maxDistance
                    fuel' currentX currentY dist with
            | Some ps => Some (p :: ps)
            | None => None
            end
    end
  else Some [].

(** The cache key: both coordinates printed with one decimal. *)
Definition Key : Type := ((bool * Z) * (bool * Z))%type.

Definition cacheKey (playerX playerY : Q) : Key :=
  (JSNum.toFixed1 playerX, JSNum.toFixed1 playerY).

Definition key_eqb (a b : Key) : bool :=
  Bool.eqb (fst (fst a)) (fst (fst b)) && (snd (fst a) =? snd (fst b))%Z &&
  Bool.eqb (fst (snd a)) (fst (snd b)) && (snd (snd a) =? snd (snd b))%Z.

(** [Set] objects are named by their location in the store. *)
Definition Loc : Type := nat.
Definition Store : Type := list CellSet.

Definition store_get (st : Store) (l : Loc) : CellSet := nth l st [].

Fixpoint store_set (st : Store) (l : Loc) (s : CellSet) : Store :=
  match st, l with
  | [], _ => []
  | _ :: st', O => s :: st'
  | s0 :: st', S l' => s0 :: store_set st' l' s
  end.

(** [new Set(...)]: a fresh object. *)
Definition store_alloc (st : Store) (s : CellSet) : Store * Loc :=
  (st ++ [s], length st).

(** A cache entry [{points, cells}]; [cells] is a reference. *)
Record CacheEntry : Type := mkEntry {
  points : list Point;
  cells : Loc
}.

(** The [Map], keys in insertion order. *)
Definition Cache : Type := list (Key * CacheEntry).

Fixpoint cache_get (c : Cache) (k : Key) : option CacheEntry :=
  match c with
  | [] => None
  | (k', e) :: c' => if key_eqb k k' then Some e else cache_get c' k
  end.

(** [Map.set]: a present key keeps its place, a new key goes last. *)
Fixpoint cache_set (c : Cache) (k : Key) (e : CacheEntry) : Cache :=
  match c with
  | [] => [(k, e)]
  | (k', e') :: c' =>
      if key_eqb k k' then (k', e) :: c' else (k', e') :: cache_set c' k e
  end.

(** [cache.delete(cache.keys().next().value)] *)
Definition cache_delete_first (c : Cache) : Cache := tl c.

(** The system: its configuration, the array [visiblePoints], the
    reference [visibleCells], the cache, and the store of the [Set]
    objects.  [visiblePoints] is a value: the array is replaced, never
    changed in place, once it is shared with a cache entry. *)
Record RaycastSystem : Type := mkSystem {
  config : RayConfig;
  visiblePoints : list Point;
  visibleCells : Loc;
  cache : Cache;
  store : Store
}.

Section Trig.
(** [Math.PI], [Math.cos] and [Math.sin]. *)
Variable Math_PI : Q.
Variables Math_cos Math_sin : Q -> Q.

(** [castRay(startX, startY, angle, maze, cellSize)] *)
Definition castRay (config : RayConfig) (fuel : nat)
    (startX startY angle : Q) (maze : Maze) (cellSize : Q)
    : option (list Point) :=
  let maxDistance := maxRayDistance config * cellSize in
  let step := rayStep config * cellSize in
  let dirX := Math_cos angle in
  let dirY := Math_sin angle in
  march maze cellSize dirX dirY step maxDistance fuel startX startY 0.

(** The [for] loop of [update] over the ray indices [idxs]: the points
    pushed onto [visiblePoints] and the keys added to the [Set] that
    [visibleCells] names, both threaded through the iterations. *)
Fixpoint cast_rays (config : RayConfig) (fuel : nat)
    (playerX playerY : Q) (maze : Maze) (cellSize angleStep : Q)
    (idxs : list nat) (pts : list Point) (cs : CellSet)
    : option (list Point * CellSet) :=
  match idxs with
  | [] => Some (pts, cs)
  | i :: idxs' =>
      let angle := inject_Z (Z.of_nat i) * angleStep * Math_PI / 180 in
      match castRay config fuel playerX playerY angle maze cellSize with
      | None => None
      | Some rayPoints =>
          cast_rays config fuel playerX playerY maze cellSize angleStep idxs'
            (pts ++ rayPoints)
            (fold_left
               (fun s point =>
                  set_add s (cell_of cellSize (px point) (py point)))
               rayPoints cs)
      end
  end.

(** The indices [i = 0, 1, ...] with [i < rayCount]. *)
Definition ray_indices (config : RayConfig) : list nat :=
  seq 0 (Z.to_nat (Qceiling (rayCount config))).

(** [update(playerX, playerY, maze, cellSize)]: the system after the
    call and the array returned. *)
Definition update (fuel : nat) (rs : RaycastSystem)
    (playerX playerY : Q) (maze : Maze) (cellSize : Q)
    : option (RaycastSystem * list Point) :=
  let key := cacheKey playerX playerY in
  match cache_get (cache rs) key with
  | Some cached =>
      Some (mkSystem (config rs) (points cached) (cells cached)
              (cache rs) (store rs),
            points cached)
  | None =>
      (* this.visiblePoints = []; this.visibleCells.clear() *)
      let l := visibleCells rs in
      let st := store_set (store rs) l [] in
      let angleStep := fov (config rs) / rayCount (config rs) in
      match cast_rays (config rs) fuel playerX playerY maze cellSize angleStep
              (ray_indices (config rs)) [] (store_get st l) with
      | None => None
      | Some (pts, cs) =>
          let st := store_set st l cs in
          (* points: [...this.visiblePoints],
             cells: new Set(this.visibleCells) *)
          let '(st, l') := store_alloc st (store_get st l) in
          let c := cache_set (cache rs) key (mkEntry pts l') in
          let c := if (100 <? Z.of_nat (length c))%Z
                   then cache_delete_first c else c in
          Some (mkSystem (config rs) pts l c st, pts)
      end
  end.

(** [getVisibleCells()]: the cells of the current [Set], in order. *)
Definition getVisibleCells (rs : RaycastSystem) : list Cell :=
  store_get (store rs) (visibleCells rs).

(** [isCellVisible(cellX, cellY)] *)
Definition isCellVisible (rs : RaycastSystem) (cellX cellY : Z) : bool :=
  set_has (store_get (store rs) (visibleCells rs)) (cellX, cellY).
End Trig.

(** [clearCache()] *)
Definition clearCache (rs : RaycastSystem) : RaycastSystem :=
  mkSystem (config rs) (visiblePoints rs) (visibleCells rs) [] (store rs).

(** [setRayCount(count)] *)
Definition setRayCount (rs : RaycastSystem) (count : Q) : RaycastSystem :=
  let cf := config rs in
  clearCache
    (mkSystem
       (mkRayConfig (JSNum.max 36 (JSNum.min count 720))
          (maxRayDistance cf) (rayStep cf) (fov cf))
       (visiblePoints rs) (visibleCells rs) (cache rs) (store rs)).

(** [setMaxRayDistance(distance)] *)
Definition setMaxRayDistance (rs : RaycastSystem) (dist : Q) : RaycastSystem :=
  let cf := config rs in
  clearCache
    (mkSystem
       (mkRayConfig (rayCount cf) (JSNum.max 1 (JSNum.min dist 20))
          (rayStep cf) (fov cf))
       (visiblePoints rs) (visibleCells rs) (cache rs) (store rs)).

(** [setFOV(fov)] *)
Definition setFOV (rs : RaycastSystem) (f : Q) : RaycastSystem :=
  let cf := config rs in
  clearCache
    (mkSystem
       (mkRayConfig (rayCount cf) (maxRayDistance cf) (rayStep cf)
          (JSNum.max 45 (JSNum.min f 360)))
       (visiblePoints rs) (visibleCells rs) (cache rs) (store rs)).

(** [new RaycastSystem(options)]: a missing or zero option takes its
    default ([options.rayCount || 360] and the like); the [Set] of
    [visibleCells] is the first object of the store. *)
Definition or_default (o : option Q) (d : Q) : Q :=
  match o with
  | Some v => if Qeq_bool v 0 then d else v
  | None => d
  end.

Definition new_system (oRayCount oMaxRayDistance oRayStep oFov : option Q)
    : RaycastSystem :=
  mkSystem
    (mkRayConfig (or_default oRayCount 360) (or_default oMaxRayDistance 10)
       (or_default oRayStep (1 # 10)) (or_default oFov 360))
    [] O [] [[]].

(** The value of [Math.PI], and an angle given in degrees. *)
Definition pi_value : Q := 884279719003555 # 281474976710656.

Definition radians (pi degrees : Q) : Q := degrees * pi / 180.

(** The exact cosine and sine at the multiples of a right angle; they
    stand for [Math.cos] and [Math.sin] where every ray lies along an
    axis. *)
Definition axis_cos (a : Q) : Q :=
  if Qeq_bool a (radians pi_value 0) then 1
  else if Qeq_bool a (radians pi_value 180) then - (1)
  else 0.
Definition axis_sin (a : Q) : Q :=
  if Qeq_bool a (radians pi_value 90) then 1
  else if Qeq_bool a (radians pi_value 270) then - (1)
  else 0.
End Raycast.

(** ** Game *)

Module GameCore.
Import Raycast.
Local Open Scope Q_scope.

Inductive ViewMode : Type := permanent | instant.

(** [this.config] *)
Record GameConfig : Type := mkGameConfig {
  mazeSize : Z;
  viewMode : ViewMode;
  cellSize : Q;
  showSolution : bool;
  moveSpeed : Q;
  playerRadius : Q
}.

(** [this.state]; the two times are [null] until they are set. *)
Record GameState : Type := mkGameState {
  isRunning : bool;
  isPaused : bool;
  isGameOver : bool;
  isVictory : bool;
  startTime : option Z;
  endTime : option Z
}.

(** [this.player] *)
Record Player : Type := mkPlayer {
  x : Q;
  y : Q;
  prevX : Q;
  prevY : Q;
  radius : Q
}.

(** [this.moveInput] *)
Record MoveInput : Type := mkMoveInput {
  up : bool;
  down : bool;
  left : bool;
  right : bool
}.

(** The argument of [setMoveInput]: one of the four keys of
    [moveInput], or any other string. *)
Inductive Direction : Type :=
  dir_up | dir_down | dir_left | dir_right | dir_other.

(** The events that have a listener list. *)
Inductive EventName : Type :=
  onGameStart | onGameOver | onVictory | onMove | onCellExplored.

(** The object handed to the callbacks of each event. *)
Inductive EventData : Type :=
| GameStartData (mazeSize : Z) (viewMode : ViewMode)
    (startPosition : Player) (endPosition : Z * Z)
| GameOverData (time : Z)
| VictoryData (time : Z) (exploreRate : Z) (exploredCells : nat)
    (totalCells : Z)
| MoveData (fromX fromY toX toY : Q)
| CellExploredData (cx cy : Z) (totalExplored : nat) (totalCells : Z).

(** A listener is code of the page that hosts the game.  It is an
    observer: given the event data it returns or throws, and it holds no
    reference to the game. *)
Definition Error : Type := nat.

Inductive Outcome : Type := returns | throws (error : Error).

Definition Callback : Type := EventData -> Outcome.

(** [this.eventListeners] *)
Record Listeners : Type := mkListeners {
  l_onGameStart : list Callback;
  l_onGameOver : list Callback;
  l_onVictory : list Callback;
  l_onMove : list Callback;
  l_onCellExplored : list Callback
}.

Definition listeners_of (ls : Listeners) (event : EventName) : list Callback :=
  match event with
  | onGameStart => l_onGameStart ls
  | onGameOver => l_onGameOver ls
  | onVictory => l_onVictory ls
  | onMove => l_onMove ls
  | onCellExplored => l_onCellExplored ls
  end.

(** What a run does besides changing the game: the callbacks it calls,
    by event and position in the listener list, and the errors it reports
    with [console.error]. *)
Inductive Effect : Type :=
| Called (event : EventName) (index : nat) (data : EventData)
| ConsoleError (event : EventName) (error : Error).

Record Game : Type := mkGame {
  gconfig : GameConfig;
  state : GameState;
  maze : Maze;
  player : Player;
  raycastSystem : option RaycastSystem;
  exploredCells : CellSet;
  visitedCells : CellSet;
  moveInput : MoveInput;
  eventListeners : Listeners;
  trace : list Effect
}.

Definition set_gconfig (g : Game) (c : GameConfig) : Game :=
  mkGame c (state g) (maze g) (player g) (raycastSystem g)
    (exploredCells g) (visitedCells g) (moveInput g) (eventListeners g)
    (trace g).

Definition set_state (g : Game) (s : GameState) : Game :=
  mkGame (gconfig g) s (maze g) (player g) (raycastSystem g)
    (exploredCells g) (visitedCells g) (moveInput g) (eventListeners g)
    (trace g).

Definition set_player (g : Game) (p : Player) : Game :=
  mkGame (gconfig g) (state g) (maze g) p (raycastSystem g)
    (exploredCells g) (visitedCells g) (moveInput g) (eventListeners g)
    (trace g).

Definition set_raycastSystem (g : Game) (rs : option RaycastSystem) : Game :=
  mkGame (gconfig g) (state g) (maze g) (player g) rs
    (exploredCells g) (visitedCells g) (moveInput g) (eventListeners g)
    (trace g).

Definition set_exploredCells (g : Game) (s : CellSet) : Game :=
  mkGame (gconfig g) (state g) (maze g) (player g) (raycastSystem g)
    s (visitedCells g) (moveInput g) (eventListeners g) (trace g).

Definition set_visitedCells (g : Game) (s : CellSet) : Game :=
  mkGame (gconfig g) (state g) (maze g) (player g) (raycastSystem g)
    (exploredCells g) s (moveInput g) (eventListeners g) (trace g).

Definition set_moveInput (g : Game) (m : MoveInput) : Game :=
  mkGame (gconfig g) (state g) (maze g) (player g) (raycastSystem g)
    (exploredCells g) (visitedCells g) m (eventListeners g) (trace g).

Definition set_trace (g : Game) (t : list Effect) : Game :=
  mkGame (gconfig g) (state g) (maze g) (player g) (raycastSystem g)
    (exploredCells g) (visitedCells g) (moveInput g) (eventListeners g) t.

Definition set_eventListeners (g : Game) (ls : Listeners) : Game :=
  mkGame (gconfig g) (state g) (maze g) (player g) (raycastSystem g)
    (exploredCells g) (visitedCells g) (moveInput g) ls (trace g).

(** [addEventListener(event, callback)] *)
Definition addEventListener (g : Game) (event : EventName) (callback : Callback)
    : Game :=
  let ls := eventListeners g in
  set_eventListeners g
    match event with
    | onGameStart =>
        mkListeners (l_onGameStart ls ++ [callback]) (l_onGameOver ls)
          (l_onVictory ls) (l_onMove ls) (l_onCellExplored ls)
    | onGameOver =>
        mkListeners (l_onGameStart ls) (l_onGameOver ls ++ [callback])
          (l_onVictory ls) (l_onMove ls) (l_onCellExplored ls)
    | onVictory =>
        mkListeners (l_onGameStart ls) (l_onGameOver ls)
          (l_onVictory ls ++ [callback]) (l_onMove ls) (l_onCellExplored ls)
    | onMove =>
        mkListeners (l_onGameStart ls) (l_onGameOver ls)
          (l_onVictory ls) (l_onMove ls ++ [callback]) (l_onCellExplored ls)
    | onCellExplored =>
        mkListeners (l_onGameStart ls) (l_onGameOver ls)
          (l_onVictory ls) (l_onMove ls) (l_onCellExplored ls ++ [callback])
    end.

(** The [for] loop of [triggerEvent] from position [index] of the
    listener list: each callback is called inside its own [try]; a thrown
    error is reported and the loop goes on. *)
Fixpoint notify (event : EventName) (data : EventData)
    (callbacks : list Callback) (index : nat) : list Effect :=
  match callbacks with
  | [] => []
  | callback :: rest =>
      Called event index data ::
      match callback data with
      | returns => notify event data rest (S index)
      | throws error =>
          ConsoleError event error :: notify event data rest (S index)
      end
  end.

(** [triggerEvent(event, data)] *)
Definition triggerEvent (g : Game) (event : EventName) (data : EventData)
    : Game :=
  set_trace g
    (trace g ++ notify event data (listeners_of (eventListeners g) event) 0).

(** One side of a cell of the 3x3 block: the wall is set, the centre is
    closer to its line than [radius] and lies within its span. *)
Definition hits_horizontal (maze : Maze) (x y radius cellSize : Q)
    (row col : Z) : bool :=
  getWall maze horizontal row col &&
  (let wallY := inject_Z row * cellSize in
   let wallX1 := inject_Z col * cellSize in
   let wallX2 := inject_Z (col + 1) * cellSize in
   let distanceToWall := JSNum.abs (y - wallY) in
   JSNum.lt distanceToWall radius && JSNum.le wallX1 x && JSNum.le x wallX2).

Definition hits_vertical (maze : Maze) (x y radius cellSize : Q)
    (row col : Z) : bool :=
  getWall maze vertical row col &&
  (let wallX := inject_Z col * cellSize in
   let wallY1 := inject_Z row * cellSize in
   let wallY2 := inject_Z (row + 1) * cellSize in
   let distanceToWall := JSNum.abs (x - wallX) in
   JSNum.lt distanceToWall radius && JSNum.le wallY1 y && JSNum.le y wallY2).

(** The body of the inner loop of [checkWallCollision] for the cell
    [(checkX, checkY)]: its top, bottom, left and right sides in turn. *)
Definition check_cell (maze : Maze) (x y radius cellSize : Q)
    (checkX checkY : Z) : bool :=
  hits_horizontal maze x y radius cellSize checkY checkX ||
  hits_horizontal maze x y radius cellSize (checkY + 1)%Z checkX ||
  hits_vertical maze x y radius cellSize checkY checkX ||
  hits_vertical maze x y radius cellSize checkY (checkX + 1)%Z.

(** [checkWallCollision(x, y, radius, cellSize)]: the first hit returns. *)
Definition checkWallCollision (maze : Maze) (x y radius cellSize : Q) : bool :=
  let cellX := JSNum.floor (x / cellSize) in
  let cellY := JSNum.floor (y / cellSize) in
  existsb
    (fun dy =>
       existsb
         (fun dx =>
            check_cell maze x y radius cellSize (cellX + dx)%Z (cellY + dy)%Z)
         [(-1)%Z; 0%Z; 1%Z])
    [(-1)%Z; 0%Z; 1%Z].

(** [canMoveTo(x, y)] *)
Definition canMoveTo (g : Game) (x y : Q) : bool :=
  let cellSize := cellSize (gconfig g) in
  let radius := radius (player g) in
  let mazeWidth := inject_Z (mazeSize (gconfig g)) * cellSize in
  let mazeHeight := inject_Z (mazeSize (gconfig g)) * cellSize in
  if JSNum.lt (x - radius) 0 || JSNum.lt mazeWidth (x + radius) ||
     JSNum.lt (y - radius) 0 || JSNum.lt mazeHeight (y + radius)
  then false
  else negb (checkWallCollision (maze g) x y radius cellSize).

(** [setMoveInput(direction, pressed)] *)
Definition setMoveInput (g : Game) (direction : Direction) (pressed : bool)
    : Game :=
  let m := moveInput g in
  match direction with
  | dir_up => set_moveInput g (mkMoveInput pressed (down m) (left m) (right m))
  | dir_down => set_moveInput g (mkMoveInput (up m) pressed (left m) (right m))
  | dir_left => set_moveInput g (mkMoveInput (up m) (down m) pressed (right m))
  | dir_right => set_moveInput g (mkMoveInput (up m) (down m) (left m) pressed)
  | dir_other => g
  end.

(** [start()]; [now] is the reading of [Date.now()]. *)
Definition start (now : Z) (g : Game) : Game :=
  if isRunning (state g) then g
  else
    let s := state g in
    let g :=
      set_state g
        (mkGameState true (isPaused s) false false (Some now) (endTime s)) in
    triggerEvent g onGameStart
      (GameStartData (mazeSize (gconfig g)) (viewMode (gconfig g))
         (player g) (getEnd (maze g))).

(** [togglePause()] *)
Definition togglePause (g : Game) : Game :=
  let s := state g in
  if negb (isRunning s) || isGameOver s then g
  else set_state g
         (mkGameState (isRunning s) (negb (isPaused s)) (isGameOver s)
            (isVictory s) (startTime s) (endTime s)).

(** [Math.round] *)
Definition Math_round (a : Q) : Z := Qfloor (a + (1 # 2)).

(** A time in a subtraction: [null] counts as zero. *)
Definition time_value (t : option Z) : Z :=
  match t with Some v => v | None => 0%Z end.

(** [victory()] *)
Definition victory (now : Z) (g : Game) : Game :=
  let s := state g in
  let g :=
    set_state g
      (mkGameState false (isPaused s) true true (startTime s) (Some now)) in
  let gameTime :=
    JSNum.floor (inject_Z (now - time_value (startTime s)) / 1000) in
  let totalCells := (mazeSize (gconfig g) * mazeSize (gconfig g))%Z in
  let size := length (exploredCells g) in
  let exploreRate :=
    Math_round (inject_Z (Z.of_nat size) / inject_Z totalCells * 100) in
  triggerEvent g onVictory (VictoryData gameTime exploreRate size totalCells).

(** [gameOver()] *)
Definition gameOver (now : Z) (g : Game) : Game :=
  let s := state g in
  let g :=
    set_state g
      (mkGameState false (isPaused s) true false (startTime s) (Some now)) in
  triggerEvent g onGameOver
    (GameOverData
       (JSNum.floor (inject_Z (now - time_value (startTime s)) / 1000))).

(** The body of the [for] loop of [updateVisibility] for one visible
    cell: a cell not yet explored is added and announced. *)
Definition explore (g : Game) (cell : Cell) : Game :=
  if set_has (exploredCells g) cell then g
  else
    let g := set_exploredCells g (set_add (exploredCells g) cell) in
    triggerEvent g onCellExplored
      (CellExploredData (fst cell) (snd cell) (length (exploredCells g))
         (mazeSize (gconfig g) * mazeSize (gconfig g))%Z).

Section Lib.
(** [Math.PI], [Math.cos], [Math.sin] and [Math.sqrt], and the
    iterations granted to each ray. *)
Variable Math_PI : Q.
Variables Math_cos Math_sin Math_sqrt : Q -> Q.
Variable fuel : nat.

(** [updateVisibility()].  The legacy [ViewSystem] that the method also
    refreshes keeps its own state and is left out. *)
Definition updateVisibility (g : Game) : option Game :=
  match raycastSystem g with
  | Some rs =>
      match update Math_PI Math_cos Math_sin fuel rs
              (x (player g)) (y (player g)) (maze g) (cellSize (gconfig g)) with
      | None => None
      | Some (rs, _) =>
          let g := set_raycastSystem g (Some rs) in
          let visibleCells := getVisibleCells rs in
          Some (fold_left explore visibleCells g)
      end
  | None => Some g
  end.

(** [setViewMode(mode)] for one of the two valid modes; any other
    string is reported and changes nothing. *)
Definition setViewMode (g : Game) (mode : ViewMode) : option Game :=
  let c := gconfig g in
  updateVisibility
    (set_gconfig g
       (mkGameConfig (mazeSize c) mode (cellSize c) (showSolution c)
          (moveSpeed c) (playerRadius c))).

(** The candidate position of [updatePlayerPosition] for the current
    input, when some input is on. *)
Definition candidate (g : Game) : option (Q * Q) :=
  let m := moveInput g in
  let dx := 0 in
  let dy := 0 in
  let dy := if up m then dy - 1 else dy in
  let dy := if down m then dy + 1 else dy in
  let dx := if left m then dx - 1 else dx in
  let dx := if right m then dx + 1 else dx in
  if Qeq_bool dx 0 && Qeq_bool dy 0 then None
  else
    let length := Math_sqrt (dx * dx + dy * dy) in
    let dx' := if JSNum.lt 0 length then dx / length else dx in
    let dy' := if JSNum.lt 0 length then dy / length else dy in
    let speed := moveSpeed (gconfig g) in
    Some (x (player g) + dx' * speed, y (player g) + dy' * speed).

(** [updatePlayerPosition()]: the game after the call and the boolean
    returned. *)
Definition updatePlayerPosition (now : Z) (g : Game) : option (Game * bool) :=
  let s := state g in
  if negb (isRunning s) || isPaused s || isGameOver s then Some (g, false)
  else
    match candidate g with
    | None => Some (g, false)
    | Some (newX, newY) =>
        if canMoveTo g newX newY then
          let p := player g in
          let g := set_player g (mkPlayer newX newY (x p) (y p) (radius p)) in
          let cellSize := cellSize (gconfig g) in
          let cellX := JSNum.floor (x (player g) / cellSize) in
          let cellY := JSNum.floor (y (player g) / cellSize) in
          let g :=
            set_visitedCells g (set_add (visitedCells g) (cellX, cellY)) in
          let g :=
            triggerEvent g onMove
              (MoveData (prevX (player g)) (prevY (player g)) newX newY) in
          match updateVisibility g with
          | None => None
          | Some g =>
              let '(ex, ey) := getEnd (maze g) in
              let endX := inject_Z ex * cellSize + cellSize / 2 in
              let endY := inject_Z ey * cellSize + cellSize / 2 in
              let distanceToEnd :=
                Math_sqrt
                  ((x (player g) - endX) ^ 2 + (y (player g) - endY) ^ 2) in
              let g := if JSNum.lt distanceToEnd (radius (player g) * 2)
                       then victory now g else g in
              Some (g, true)
          end
        else Some (g, false)
    end.

(** [init()], with the maze that [new Maze(...).generate()] produced. *)
Definition init (g : Game) (generated : Maze) : option Game :=
  let '(sx, sy) := getStart generated in
  let cellSize := cellSize (gconfig g) in
  let p := mkPlayer (inject_Z sx * cellSize + cellSize / 2)
             (inject_Z sy * cellSize + cellSize / 2)
             (inject_Z sx * cellSize + cellSize / 2)
             (inject_Z sy * cellSize + cellSize / 2)
             (playerRadius (gconfig g)) in
  let rs := new_system (Some 180) (Some 5) (Some (5 # 100)) (Some 360) in
  let g := mkGame (gconfig g) (state g) generated p (Some rs)
             [(sx, sy)] [(sx, sy)] (moveInput g) (eventListeners g) (trace g) in
  match updateVisibility g with
  | None => None
  | Some g =>
      Some (set_moveInput
              (set_state g (mkGameState false false false false None None))
              (mkMoveInput false false false false))
  end.

(** What the page does to a game between two initialisations. *)
Inductive Action : Type :=
| DoSetMoveInput (direction : Direction) (pressed : bool)
| DoUpdatePlayerPosition (now : Z)
| DoStart (now : Z)
| DoTogglePause
| DoGameOver (now : Z)
| DoSetViewMode (mode : ViewMode)
| DoAddEventListener (event : EventName) (callback : Callback).

Definition step (g : Game) (a : Action) : option Game :=
  match a with
  | DoSetMoveInput direction pressed => Some (setMoveInput g direction pressed)
  | DoUpdatePlayerPosition now =>
      match updatePlayerPosition now g with
      | Some (g, _) => Some g
      | None => None
      end
  | DoStart now => Some (start now g)
  | DoTogglePause => Some (togglePause g)
  | DoGameOver now => Some (gameOver now g)
  | DoSetViewMode mode => setViewMode g mode
  | DoAddEventListener event callback =>
      Some (addEventListener g event callback)
  end.

Fixpoint run (g : Game) (actions : list Action) : option Game :=
  match actions with
  | [] => Some g
  | a :: rest =>
      match step g a with
      | Some g => run g rest
      | None => None
      end
  end.
End Lib.
End GameCore.

(** ** Notions used to state the properties *)

Module Props.
Import Raycast.
Local Open Scope Q_scope.

(** Iterations after which the loop of [castRay] has stopped when its
    step is positive: the steps that fit in the maximum distance, rounded
    up. *)
Definition ray_fuel (config : RayConfig) (cellSize : Q) : nat :=
  Z.to_nat
    (Qceiling (maxRayDistance config * cellSize / (rayStep config * cellSize))).

(** The last point of a ray, when it has one. *)
Fixpoint last_point (ps : list Point) : option Point :=
  match ps with
  | [] => None
  | [p] => Some p
  | _ :: ps' => last_point ps'
  end.

(** The march point that follows [p] on a ray of direction
    [(dirX, dirY)]. *)
Definition next_x (dirX step : Q) (p : Point) : Q := px p + dirX * step.
Definition next_y (dirY step : Q) (p : Point) : Q := py p + dirY * step.

(** The keys of a cache, oldest first. *)
Definition cache_keys (c : Cache) : list Key := map fst c.

(** The key list after a miss on [k] under first-in first-out eviction
    with room for 100. *)
Definition fifo_insert (keys : list Key) (k : Key) : list Key :=
  let keys' := keys ++ [k] in
  if (100 <? Z.of_nat (length keys'))%Z then tl keys' else keys'.

(** The key of a position. *)
Definition key_of (pos : Q * Q) : Key := cacheKey (fst pos) (snd pos).

(** A boolean test that the keys of a list differ pairwise. *)
Fixpoint distinct_keys (ks : list Key) : bool :=
  match ks with
  | [] => true
  | k :: ks' => negb (existsb (key_eqb k) ks') && distinct_keys ks'
  end.

Section Calls.
Variable Math_PI : Q.
Variables Math_cos Math_sin : Q -> Q.
Variable fuel : nat.

(** Successive calls of [update], one per position, on the same maze. *)
Fixpoint updates (rs : RaycastSystem) (positions : list (Q * Q))
    (maze : Maze) (cellSize : Q) : option RaycastSystem :=
  match positions with
  | [] => Some rs
  | (playerX, playerY) :: rest =>
      match update Math_PI Math_cos Math_sin fuel rs playerX playerY maze
              cellSize with
      | Some (rs', _) => updates rs' rest maze cellSize
      | None => None
      end
  end.

(** The key [k] is in the cache after each of the successive calls. *)
Fixpoint stays_cached (k : Key) (rs : RaycastSystem)
    (positions : list (Q * Q)) (maze : Maze) (cellSize : Q) : Prop :=
  match positions with
  | [] => True
  | (playerX, playerY) :: rest =>
      match update Math_PI Math_cos Math_sin fuel rs playerX playerY maze
              cellSize with
      | Some (rs', _) =>
          cache_get (cache rs') k <> None /\
          stays_cached k rs' rest maze cellSize
      | None => True
      end
  end.
End Calls.

(** The cosine and sine are exact along the axes. *)
Definition axis_exact (pi : Q) (cos sin : Q -> Q) : Prop :=
  (forall a, a == radians pi 0 -> cos a = 1 /\ sin a = 0) /\
  (forall a, a == radians pi 90 -> cos a = 0 /\ sin a = 1) /\
  (forall a, a == radians pi 180 -> cos a = - (1) /\ sin a = 0) /\
  (forall a, a == radians pi 270 -> cos a = 0 /\ sin a = - (1)).

(** A ray of [n] points whose last point is [(x, y)] at distance [d]. *)
Definition ray_ends (ray : list Point) (n : nat) (x y d : Q) : Prop :=
  length ray = n /\
  exists p, last_point ray = Some p /\ px p == x /\ py p == y /\ distance p ==
      d.

(** A wall segment: its orientation, row and column. *)
Definition Segment : Type := (Orientation * Z * Z)%type.

Definition seg_set (maze : Maze) (s : Segment) : bool :=
  let '(o, row, col) := s in getWall maze o row col.

(** The distance from [(x, y)] to the line of the segment. *)
Definition seg_distance (cellSize x y : Q) (s : Segment) : Q :=
  match s with
  | (horizontal, row, _) => Qabs (y - inject_Z row * cellSize)
  | (vertical, _, col) => Qabs (x - inject_Z col * cellSize)
  end.

(** The coordinate of [(x, y)] along the segment lies within its span. *)
Definition seg_in_span (cellSize x y : Q) (s : Segment) : Prop :=
  match s with
  | (horizontal, _, col) =>
      inject_Z col * cellSize <= x /\ x <= inject_Z (col + 1) * cellSize
  | (vertical, row, _) =>
      inject_Z row * cellSize <= y /\ y <= inject_Z (row + 1) * cellSize
  end.

(** The segment is a side of a cell of the 3x3 block around the cell of
    [(x, y)]. *)
Definition seg_near (cellSize x y : Q) (s : Segment) : Prop :=
  let cellX := JSNum.floor (x / cellSize) in
  let cellY := JSNum.floor (y / cellSize) in
  match s with
  | (horizontal, row, col) =>
      (cellY - 1 <= row <= cellY + 2)%Z /\ (cellX - 1 <= col <= cellX + 1)%Z
  | (vertical, row, col) =>
      (cellY - 1 <= row <= cellY + 1)%Z /\ (cellX - 1 <= col <= cellX + 2)%Z
  end.

(** The configurations, systems and positions of the examples; the rays
    lie along the four axes. *)
Definition uneven_config : RayConfig :=
  mkRayConfig 36 (105 # 100) (1 # 10) 360.

Definition scenario_config : RayConfig := mkRayConfig 4 2 (1 # 10) 360.

Definition scenario_system : RaycastSystem :=
  new_system (Some 4) (Some 2) (Some (1 # 10)) (Some 360).

Definition near_system : RaycastSystem :=
  new_system (Some 4) (Some 1) (Some (1 # 10)) (Some 360).

(** The positions [(0, 20), (1, 20), ..., (100, 20)]. *)
Definition row_positions : list (Q * Q) :=
  map (fun i => (inject_Z (Z.of_nat i), 20)) (seq 0 101).

(** A hundred positions with a hundred keys, none of them the key of
    [(100, 100)]. *)
Definition filler_positions : list (Q * Q) := firstn 100 row_positions.

Import GameCore.

(** The game is being played: running, not paused and not over. *)
Definition playing (g : Game) : bool :=
  isRunning (state g) && negb (isPaused (state g)) &&
  negb (isGameOver (state g)).

(** The rays of the game's ray caster are returned within [fuel]
    iterations: their step is positive and [fuel] covers [ray_fuel]. *)
Definition rays_return (fuel : nat) (g : Game) : Prop :=
  match raycastSystem g with
  | Some rs =>
      0 < rayStep (config rs) * cellSize (gconfig g) /\
      (ray_fuel (config rs) (cellSize (gconfig g)) <= fuel)%nat
  | None => True
  end.

(** The candidate centre keeps the radius margin to the four sides of
    the maze: the bounds check of [canMoveTo] passes. *)
Definition within_bounds (g : Game) (x y : Q) : Prop :=
  let r := radius (player g) in
  let side := inject_Z (mazeSize (gconfig g)) * cellSize (gconfig g) in
  0 <= x - r /\ x + r <= side /\ 0 <= y - r /\ y + r <= side.

(** The calls among the effects, and the errors reported among them. *)
Definition calls_of (effects : list Effect) : list Effect :=
  filter (fun e => match e with Called _ _ _ => true | _ => false end) effects.

Definition errors_of (effects : list Effect) : list Effect :=
  filter (fun e => match e with ConsoleError _ _ => true | _ => false end)
    effects.

(** The errors that the callbacks of a list throw on [data], in order. *)
Definition thrown (event : EventName) (data : EventData)
    (callbacks : list Callback) : list Effect :=
  flat_map
    (fun callback =>
       match callback data with
       | returns => []
       | throws error => [ConsoleError event error]
       end)
    callbacks.

(** Every cell explored, and every cell visited, in [g] is so in [g']. *)
Definition grown (g g' : Game) : Prop :=
  incl (exploredCells g) (exploredCells g') /\
  incl (visitedCells g) (visitedCells g') /\
  (length (exploredCells g) <= length (exploredCells g'))%nat.

(** What [updateVisibility] leaves alone. *)
Definition kept (g g' : Game) : Prop :=
  gconfig g' = gconfig g /\ state g' = state g /\ maze g' = maze g /\
  player g' = player g /\ visitedCells g' = visitedCells g /\
  moveInput g' = moveInput g /\ eventListeners g' = eventListeners g.

(** The ray caster has the same configuration and cell size. *)
Definition same_rays (g g' : Game) : Prop :=
  option_map config (raycastSystem g') = option_map config (raycastSystem g) /\
  cellSize (gconfig g') = cellSize (gconfig g).

(** A running game in [maze], the player of radius 8 at [(x, y)], cells
    of 40 pixels, speed 5 and the four-ray caster. *)
Definition sample_game (maze : Maze) (x y : Q) (input : MoveInput)
    (listeners : Listeners) : Game :=
  mkGame (mkGameConfig 5 permanent 40 false 5 8)
    (mkGameState true false false false (Some 0%Z) None)
    maze (mkPlayer x y x y 8) (Some near_system)
    [cell_of 40 x y] [cell_of 40 x y] input listeners [].

Definition no_listeners : Listeners := mkListeners [] [] [] [] [].

(** Three listeners of [onCellExplored]; the second one throws. *)
Definition faulty_listeners : Listeners :=
  mkListeners [] [] [] []
    [(fun _ => returns); (fun _ => throws 7%nat); (fun _ => returns)].

(** A square root to three decimals, exact at 0 and 1; it stands for
    [Math.sqrt] in the examples. *)
Definition approx_sqrt (a : Q) : Q :=
  inject_Z (Z.sqrt (Qfloor (a * 1000000))) / 1000.

(** The player in the middle of the open maze, the right key held. *)
Definition walking_game : Game :=
  sample_game (open_maze 5 5) 100 100
    (mkMoveInput false false false true) no_listeners.

(** The same game, paused. *)
Definition paused_game : Game :=
  set_state walking_game (mkGameState true true false false (Some 0%Z) None).
End Props.

(** ** The rest of the two classes *)

Module More.
Import Raycast GameCore Props.
Local Open Scope Q_scope.

(** [getVisiblePoints()]: a copy of the array. *)
Definition getVisiblePoints (rs : RaycastSystem) : list Point :=
  visiblePoints rs.

(** [getState()] *)
Record RayState : Type := mkRayState {
  st_rayCount : Q;
  st_maxRayDistance : Q;
  st_fov : Q;
  st_visiblePoints : nat;
  st_visibleCells : nat
}.

Definition getState (rs : RaycastSystem) : RayState :=
  mkRayState (rayCount (config rs)) (maxRayDistance (config rs))
    (fov (config rs)) (length (visiblePoints rs))
    (length (store_get (store rs) (visibleCells rs))).

(** [isCellExplored(x, y)] and [isCellVisited(x, y)] *)
Definition isCellExplored (g : Game) (x y : Z) : bool :=
  set_has (exploredCells g) (x, y).

Definition isCellVisited (g : Game) (x y : Z) : bool :=
  set_has (visitedCells g) (x, y).

(** [getStats()] *)
Record Stats : Type := mkStats {
  explored : nat;
  total : Z;
  exploreRate : Z;
  visited : nat
}.

Definition getStats (g : Game) : Stats :=
  let totalCells := (mazeSize (gconfig g) * mazeSize (gconfig g))%Z in
  let exploreRate :=
    Math_round
      (inject_Z (Z.of_nat (length (exploredCells g))) / inject_Z totalCells
       * 100) in
  mkStats (length (exploredCells g)) totalCells exploreRate
    (length (visitedCells g)).

(** The [while] loop of [hasLineOfSight] from the cell [(currentX,
    currentY)] with error term [err]; [canMove] is the method of the
    maze that tells whether a step between two cells is free.  [None]:
    the loop is still running when [fuel] iterations are spent. *)
Fixpoint sight (canMove : Z -> Z -> Z -> Z -> bool)
    (x2 y2 dx dy sx sy : Z) (fuel : nat) (currentX currentY err : Z)
    : option bool :=
  if ((currentX =? x2) && (currentY =? y2))%Z then Some true
  else
    match fuel with
    | O => None
    | S fuel' =>
        let e2 := (2 * err)%Z in
        let stepX := (e2 >? - dy)%Z in
        let stepY := (e2 <? dx)%Z in
        let err := if stepX then (err - dy)%Z else err in
        let nextX := if stepX then (currentX + sx)%Z else currentX in
        let err := if stepY then (err + dx)%Z else err in
        let nextY := if stepY then (currentY + sy)%Z else currentY in
        let moveX := (nextX - currentX)%Z in
        let moveY := (nextY - currentY)%Z in
        if negb (canMove currentX currentY moveX moveY) then Some false
        else sight canMove x2 y2 dx dy sx sy fuel' nextX nextY err
    end.

(** [hasLineOfSight(x1, y1, x2, y2)], for the coordinates of two cells,
    which are integers. *)
Definition hasLineOfSight (canMove : Z -> Z -> Z -> Z -> bool) (fuel : nat)
    (x1 y1 x2 y2 : Z) : option bool :=
  let dx := Z.abs (x2 - x1) in
  let dy := Z.abs (y2 - y1) in
  let sx := if (x1 <? x2)%Z then 1%Z else (-1)%Z in
  let sy := if (y1 <? y2)%Z then 1%Z else (-1)%Z in
  sight canMove x2 y2 dx dy sx sy fuel x1 y1 (dx - dy)%Z.

Section Lib.
Variable Math_PI : Q.
Variables Math_cos Math_sin Math_sqrt : Q -> Q.
Variable fuel : nat.

(** [isPointVisible(x, y, cellSize)] *)
Definition isPointVisible (rs : RaycastSystem) (x y cellSize : Q) : bool :=
  let tolerance := cellSize * (1 # 2) in
  existsb
    (fun point =>
       let dx := px point - x in
       let dy := py point - y in
       let distance := Math_sqrt (dx * dx + dy * dy) in
       JSNum.le distance tolerance)
    (visiblePoints rs).

(** [restart()], with the maze that [init] generates. *)
Definition restart (now : Z) (g : Game) (generated : Maze) : option Game :=
  match init Math_PI Math_cos Math_sin fuel g generated with
  | Some g => Some (start now g)
  | None => None
  end.

(** [setMazeSize(size)]: a size outside [5, 30] is reported and changes
    nothing. *)
Definition setMazeSize (now : Z) (g : Game) (size : Z) (generated : Maze)
    : option Game :=
  if ((size <? 5) || (size >? 30))%Z then Some g
  else
    let c := gconfig g in
    restart now
      (set_gconfig g
         (mkGameConfig size (viewMode c) (cellSize c) (showSolution c)
            (moveSpeed c) (playerRadius c)))
      generated.
End Lib.

(** The store holds cells of the grid only. *)
Definition store_in_grid (maze : Maze) (st : Store) : Prop :=
  forall s c, In s st -> In c s -> in_grid maze c.

(** The references of a system name objects of its store. *)
Definition refs_valid (rs : RaycastSystem) : Prop :=
  (visibleCells rs < length (store rs))%nat /\
  forall k e, In (k, e) (cache rs) -> (cells e < length (store rs))%nat.

(** The player's position is one that [canMoveTo] admits. *)
Definition admissible (g : Game) : Prop :=
  canMoveTo g (x (player g)) (y (player g)) = true.

(** The cell of the player's position. *)
Definition player_cell (g : Game) : Cell :=
  cell_of (cellSize (gconfig g)) (x (player g)) (y (player g)).

(** The explored cells are cells of the grid, none of them twice, and so
    are the cells that the ray caster holds. *)
Definition explored_in_grid (g : Game) : Prop :=
  NoDup (exploredCells g) /\
  (forall c, In c (exploredCells g) -> in_grid (maze g) c) /\
  match raycastSystem g with
  | Some rs => store_in_grid (maze g) (store rs)
  | None => True
  end.

(** A square root that does not exceed the real one. *)
Definition sqrt_below (sqrt : Q -> Q) : Prop :=
  forall a r, 0 <= r -> a <= r * r -> sqrt a <= r.

(** The cells of a square grid of side [n], column by column. *)
Definition grid_cells (n : Z) : list Cell :=
  list_prod (map Z.of_nat (seq 0 (Z.to_nat n)))
    (map Z.of_nat (seq 0 (Z.to_nat n))).

(** The direction that the keys held give on each axis. *)
Definition axis_x (m : MoveInput) : Q :=
  (if right m then 1 else 0) - (if left m then 1 else 0).

Definition axis_y (m : MoveInput) : Q :=
  (if down m then 1 else 0) - (if up m then 1 else 0).

(** The game after the candidate [(newX, newY)] is accepted and
    announced, before the visibility is refreshed. *)
Definition moved_to (g : Game) (newX newY : Q) : Game :=
  let p := player g in
  triggerEvent
    (set_visitedCells
       (set_player g (mkPlayer newX newY (x p) (y p) (radius p)))
       (set_add (visitedCells g) (cell_of (cellSize (gconfig g)) newX newY)))
    onMove (MoveData (x p) (y p) newX newY).

(** The flags and times of the state agree: a game that is over is not
    running and has an end time, a victory is a game over, and a running
    game has a start time. *)
Definition flags_consistent (s : GameState) : Prop :=
  (isGameOver s = true -> isRunning s = false /\ endTime s <> None) /\
  (isVictory s = true -> isGameOver s = true) /\
  (isRunning s = true -> startTime s <> None).

(** The maze is the square that the configuration announces. *)
Definition square_maze (g : Game) : Prop :=
  width (maze g) = mazeSize (gconfig g) /\
  height (maze g) = mazeSize (gconfig g).

End More.

(** * Properties *)

(** ** Numbers, cells and sets *)

Module BasicFacts.
Local Open Scope Q_scope.

Lemma lt_iff (a b : Q) : JSNum.lt a b = true <-> a < b.
Proof.
  unfold JSNum.lt. rewrite negb_true_iff, <- not_true_iff_false, Qle_bool_iff.
  split; [apply Qnot_le_lt | apply Qlt_not_le].
Qed.

Lemma lt_false_iff (a b : Q) : JSNum.lt a b = false <-> b <= a.
Proof.
  unfold JSNum.lt. rewrite negb_false_iff. apply Qle_bool_iff.
Qed.

Lemma le_iff (a b : Q) : JSNum.le a b = true <-> a <= b.
Proof. apply Qle_bool_iff. Qed.

Lemma cell_eqb_eq (a b : Cell) : cell_eqb a b = true <-> a = b.
Proof.
  destruct a as [a1 a2], b as [b1 b2]; unfold cell_eqb; simpl.
  rewrite andb_true_iff, !Z.eqb_eq. split.
  - intros [-> ->]; reflexivity.
  - intros H; inversion H; auto.
Qed.

Lemma set_has_In (s : CellSet) (c : Cell) : set_has s c = true <-> In c s.
Proof.
  unfold set_has. rewrite existsb_exists. split.
  - intros [x [Hx He]]. apply cell_eqb_eq in He. subst. exact Hx.
  - intros H. exists c. split; [exact H | apply cell_eqb_eq; reflexivity].
Qed.

Lemma set_add_incl (s : CellSet) (c : Cell) : incl s (set_add s c).
Proof.
  unfold set_add. destruct (set_has s c).
  - apply incl_refl.
  - apply incl_appl, incl_refl.
Qed.

Lemma set_add_length (s : CellSet) (c : Cell) :
  (length s <= length (set_add s c))%nat.
Proof.
  unfold set_add. destruct (set_has s c); [lia |].
  rewrite length_app. simpl. lia.
Qed.

Lemma out_of_grid_false (maze : Maze) (c : Cell) :
  out_of_grid maze c = false <-> in_grid maze c.
Proof.
  unfold out_of_grid, in_grid.
  rewrite !orb_false_iff, !Z.ltb_ge, !Z.geb_leb, !Z.leb_gt. tauto.
Qed.
End BasicFacts.

(** ** The ray march *)

Module RaycastFacts.
Import Raycast Props BasicFacts.
Local Open Scope Q_scope.

Lemma isPointInWall_false_in_grid (x y : Q) (maze : Maze) (cellSize : Q) :
  isPointInWall x y maze cellSize = false ->
  in_grid maze (cell_of cellSize x y).
Proof.
  unfold isPointInWall, cell_of. intros H.
  apply out_of_grid_false.
  destruct (out_of_grid maze _); [discriminate H | reflexivity].
Qed.

Section March.
Variable maze : Maze.
Variables cellSize dirX dirY step maxDistance : Q.

Let go := march maze cellSize dirX dirY step maxDistance.

(** One unfolding of the loop. *)
Lemma march_unfold (fuel : nat) (cx cy d : Q) :
  go fuel cx cy d =
  if JSNum.lt d maxDistance then
    match fuel with
    | O => None
    | S fuel' =>
        if isPointInWall (cx + dirX * step) (cy + dirY * step) maze cellSize
        then Some []
        else
          if out_of_grid maze
               (cell_of cellSize (cx + dirX * step) (cy + dirY * step))
          then Some [mkPoint (cx + dirX * step) (cy + dirY * step) (d + step)]
          else
            match go fuel' (cx + dirX * step) (cy + dirY * step) (d + step) with
            | Some ps =>
                Some
                  (mkPoint (cx + dirX * step) (cy + dirY * step) (d + step)
                   :: ps)
            | None => None
            end
    end
  else Some [].
Proof. destruct fuel; reflexivity. Qed.

(** The case analysis that every proof about the loop starts with. *)
Ltac march_cases cx cy d H :=
  rewrite march_unfold in H;
  destruct (JSNum.lt d maxDistance) eqn:Hlt;
  [ first
    [ discriminate H
    | destruct (isPointInWall (cx + dirX * step) (cy + dirY * step)
        maze cellSize)
      eqn:Hwall;
    [ | destruct (out_of_grid maze
                    (cell_of cellSize (cx + dirX * step) (cy + dirY * step)))
          eqn:Hout;
        [ apply isPointInWall_false_in_grid, out_of_grid_false in Hwall;
          congruence
        | match type of H with
          | context [go ?f _ _ _] =>
              destruct (go f (cx + dirX * step) (cy + dirY * step) (d + step))
                as [ps |] eqn:Hrec; [ | discriminate H ]
          end ] ] ]
  | ].

Lemma march_in_grid (fuel : nat) :
  forall cx cy d pts,
    go fuel cx cy d = Some pts ->
    forall p, In p pts -> in_grid maze (cell_of cellSize (px p) (py p)).
Proof.
  induction fuel as [| fuel IH]; intros cx cy d pts H p Hp.
  - march_cases cx cy d H. inversion H; subst. destruct Hp.
  - march_cases cx cy d H.
    + inversion H; subst. destruct Hp.
    + inversion H; subst. destruct Hp as [<- | Hp].
      * simpl. apply isPointInWall_false_in_grid. exact Hwall.
      * eapply IH; eassumption.
    + inversion H; subst. destruct Hp.
Qed.

(** A ray is empty from a state only if the loop is over there or the
    next point is in a wall. *)
Lemma march_nil (fuel : nat) (cx cy d : Q) :
  go fuel cx cy d = Some [] ->
  JSNum.lt d maxDistance = false \/
  isPointInWall (cx + dirX * step) (cy + dirY * step) maze cellSize = true.
Proof.
  intros H. destruct fuel as [| fuel]; march_cases cx cy d H.
  - left. reflexivity.
  - right. reflexivity.
  - discriminate H.
  - left. reflexivity.
Qed.

Lemma march_last (fuel : nat) :
  forall cx cy d pts p,
    go fuel cx cy d = Some pts ->
    last_point pts = Some p ->
    isPointInWall (next_x dirX step p) (next_y dirY step p)
      maze cellSize = true \/
    (maxDistance <= distance p /\ distance p < maxDistance + step).
Proof.
  induction fuel as [| fuel IH]; intros cx cy d pts p H Hl.
  - march_cases cx cy d H. inversion H; subst. discriminate Hl.
  - march_cases cx cy d H.
    + inversion H; subst. discriminate Hl.
    + inversion H; subst. destruct ps as [| q ps].
      * simpl in Hl. inversion Hl; subst p. clear Hl.
        apply march_nil in Hrec. destruct Hrec as [Hend | Hw].
        -- right. simpl. apply lt_false_iff in Hend. apply lt_iff in Hlt.
           split; [exact Hend | lra].
        -- left. exact Hw.
      * eapply IH; [exact Hrec | exact Hl].
    + inversion H; subst. discriminate Hl.
Qed.

(** With a positive step the loop stops within the steps that fit in
    what is left of the maximum distance. *)
Lemma march_returns (fuel : nat) :
  forall cx cy d,
    0 < step ->
    maxDistance - d <= inject_Z (Z.of_nat fuel) * step ->
    exists pts, go fuel cx cy d = Some pts.
Proof.
  induction fuel as [| fuel IH]; intros cx cy d Hs Hm; rewrite march_unfold.
  - destruct (JSNum.lt d maxDistance) eqn:Hlt; [ | eauto].
    apply lt_iff in Hlt. change (inject_Z (Z.of_nat 0)) with 0 in Hm. lra.
  - destruct (JSNum.lt d maxDistance) eqn:Hlt; [ | eauto].
    destruct (isPointInWall _ _ maze cellSize); [eauto |].
    destruct (out_of_grid maze _); [eauto |].
    destruct (IH (cx + dirX * step) (cy + dirY * step) (d + step) Hs)
      as [ps Hps].
    + rewrite Nat2Z.inj_succ, <- Z.add_1_r, inject_Z_plus in Hm.
      change (inject_Z 1) with 1 in Hm. lra.
    + rewrite Hps. eauto.
Qed.

(** More fuel does not change a ray that was returned. *)
Lemma march_more_fuel (fuel : nat) :
  forall fuel' cx cy d pts,
    (fuel <= fuel')%nat ->
    go fuel cx cy d = Some pts ->
    go fuel' cx cy d = Some pts.
Proof.
  induction fuel as [| fuel IH]; intros fuel' cx cy d pts Hle H;
    rewrite march_unfold in H; rewrite march_unfold;
    destruct (JSNum.lt d maxDistance); try exact H; try discriminate H.
  destruct fuel' as [| fuel']; [lia |].
  destruct (isPointInWall _ _ maze cellSize); [exact H |].
  destruct (out_of_grid maze _); [exact H |].
  destruct (go fuel _ _ _) as [ps |] eqn:Hrec; [ | discriminate H].
  rewrite (IH fuel' _ _ _ ps); [exact H | lia | exact Hrec].
Qed.
End March.

Lemma ray_fuel_covers (config : RayConfig) (cellSize : Q) (fuel : nat) :
  0 < rayStep config * cellSize ->
  (ray_fuel config cellSize <= fuel)%nat ->
  maxRayDistance config * cellSize - 0 <=
  inject_Z (Z.of_nat fuel) * (rayStep config * cellSize).
Proof.
  intros Hs Hf. unfold ray_fuel in Hf.
  set (m := maxRayDistance config * cellSize) in *.
  set (s := rayStep config * cellSize) in *.
  assert (Hq : m / s <= inject_Z (Z.of_nat fuel)).
  { eapply Qle_trans; [apply Qle_ceiling |].
    rewrite <- Zle_Qle. lia. }
  assert (Hne : ~ s == 0) by lra.
  assert (Hm : m == (m / s) * s) by (field; exact Hne).
  rewrite Hm at 1.
  assert (m / s * s <= inject_Z (Z.of_nat fuel) * s).
  { apply Qmult_le_compat_r; lra. }
  lra.
Qed.

Section Rays.
Variables Math_cos Math_sin : Q -> Q.

Lemma castRay_returns (config : RayConfig) (fuel : nat)
    (startX startY angle : Q) (maze : Maze) (cellSize : Q) :
  0 < rayStep config * cellSize ->
  (ray_fuel config cellSize <= fuel)%nat ->
  exists pts,
    castRay Math_cos Math_sin config fuel startX startY angle
      maze cellSize = Some pts.
Proof.
  intros Hs Hf. unfold castRay.
  apply march_returns; [exact Hs | apply ray_fuel_covers; assumption].
Qed.

(** C2, as amended.  Every point of a ray lies in a cell of the grid, and
    the last point of a ray is followed by a march point that is in a wall
    or off the grid, or is the first point at or beyond the maximum
    distance: its distance [d] satisfies
    [maxRayDistance * cellSize <= d < maxRayDistance * cellSize + step].
    With a positive step and [ray_fuel] iterations the ray is returned. *)
Theorem castRay_in_grid_and_last (config : RayConfig) (fuel : nat)
    (startX startY angle : Q) (maze : Maze) (cellSize : Q) :
  let step := rayStep config * cellSize in
  let maxDistance := maxRayDistance config * cellSize in
  (forall pts,
     castRay Math_cos Math_sin config fuel startX startY angle maze cellSize
       = Some pts ->
     (forall p, In p pts -> in_grid maze (cell_of cellSize (px p) (py p))) /\
     (forall p, last_point pts = Some p ->
        isPointInWall (next_x (Math_cos angle) step p)
          (next_y (Math_sin angle) step p) maze cellSize = true \/
        (maxDistance <= distance p /\ distance p < maxDistance + step))) /\
  (0 < step -> (ray_fuel config cellSize <= fuel)%nat ->
   exists pts,
     castRay Math_cos Math_sin config fuel startX startY angle maze cellSize
       = Some pts).
Proof.
  intros step maxDistance. split.
  - intros pts H. unfold castRay in H. split.
    + eapply march_in_grid. exact H.
    + intros p Hl. eapply march_last; [exact H | exact Hl].
  - apply castRay_returns.
Qed.
End Rays.

Lemma castRay_in_grid_and_last_witness :
  exists pts,
    castRay axis_cos axis_sin uneven_config 11 100 100 (radians pi_value 0)
      (open_maze 5 5) 40 = Some pts /\
    (forall p, In p pts -> in_grid (open_maze 5 5) (cell_of 40 (px p) (py p))).
Proof.
  destruct (castRay_in_grid_and_last axis_cos axis_sin uneven_config 11
              100 100 (radians pi_value 0) (open_maze 5 5) 40)
    as [Hpart Htot].
  destruct Htot as [pts Hpts]; [vm_compute; reflexivity | vm_compute; lia |].
  exists pts. split; [exact Hpts | apply (Hpart pts Hpts)].
Defined.

(** C2, as stated, fails.  With [maxRayDistance = 1.05], [rayStep = 0.1]
    and cells of 40 pixels the step is 4 pixels and the maximum distance
    42.  The ray along the x axis from [(100, 100)] in the open maze
    records the distances 4, 8, ..., 40 and 44: its last point is at 44,
    not at 42, and the next march point [(148, 100)] is neither in a wall
    nor off the grid. *)
Lemma castRay_last_point_overshoots :
  exists pts p,
    castRay axis_cos axis_sin uneven_config 11 100 100 (radians pi_value 0)
      (open_maze 5 5) 40 = Some pts /\
    last_point pts = Some p /\
    distance p == 44 /\
    ~ (isPointInWall
         (next_x (axis_cos (radians pi_value 0)) ((1 # 10) * 40) p)
         (next_y (axis_sin (radians pi_value 0)) ((1 # 10) * 40) p)
         (open_maze 5 5) 40 = true \/
       distance p == (105 # 100) * 40).
Proof.
  eexists; eexists.
  split; [vm_compute; reflexivity |].
  split; [reflexivity |].
  split; [reflexivity |].
  intros [H | H]; vm_compute in H; discriminate H.
Qed.

(** ** The setters *)

(** C8.  Each setter stores its argument clamped to the interval of the
    option and leaves the cache empty; in particular [setRayCount(10)]
    gives 36, [setRayCount(1000)] gives 720, [setFOV(10)] gives 45 and
    [setMaxRayDistance(50)] gives 20. *)
Theorem setters_clamp_and_clear (rs : RaycastSystem) (v : Q) :
  ((v < 36 -> rayCount (config (setRayCount rs v)) == 36) /\
   (720 < v -> rayCount (config (setRayCount rs v)) == 720) /\
   (36 <= v <= 720 -> rayCount (config (setRayCount rs v)) == v) /\
   cache (setRayCount rs v) = []) /\
  ((v < 1 -> maxRayDistance (config (setMaxRayDistance rs v)) == 1) /\
   (20 < v -> maxRayDistance (config (setMaxRayDistance rs v)) == 20) /\
   (1 <= v <= 20 -> maxRayDistance (config (setMaxRayDistance rs v)) == v) /\
   cache (setMaxRayDistance rs v) = []) /\
  ((v < 45 -> fov (config (setFOV rs v)) == 45) /\
   (360 < v -> fov (config (setFOV rs v)) == 360) /\
   (45 <= v <= 360 -> fov (config (setFOV rs v)) == v) /\
   cache (setFOV rs v) = []) /\
  rayCount (config (setRayCount rs 10)) = 36 /\
  rayCount (config (setRayCount rs 1000)) = 720 /\
  fov (config (setFOV rs 10)) = 45 /\
  maxRayDistance (config (setMaxRayDistance rs 50)) = 20.
Proof.
  assert (clamp : forall lo hi : Q, lo <= hi ->
            (v < lo -> JSNum.max lo (JSNum.min v hi) == lo) /\
            (hi < v -> JSNum.max lo (JSNum.min v hi) == hi) /\
            (lo <= v <= hi -> JSNum.max lo (JSNum.min v hi) == v)).
  { intros lo hi Hlh. unfold JSNum.max, JSNum.min.
    repeat split; intros H;
      destruct (JSNum.lt hi v) eqn:E1;
      [ apply lt_iff in E1 | apply lt_false_iff in E1
      | apply lt_iff in E1 | apply lt_false_iff in E1
      | apply lt_iff in E1 | apply lt_false_iff in E1 ];
      match goal with
      | |- (if JSNum.lt ?a ?b then _ else _) == _ =>
          destruct (JSNum.lt a b) eqn:E2;
          [ apply lt_iff in E2 | apply lt_false_iff in E2 ]
      end; lra. }
  repeat split; try reflexivity; simpl; apply clamp; lra.
Qed.

Lemma setters_clamp_and_clear_witness :
  rayCount (config (setRayCount (new_system None None None None) 500)) == 500 /\
  fov (config (setFOV (new_system None None None None) 20)) == 45.
Proof.
  destruct (setters_clamp_and_clear (new_system None None None None) 500)
    as [[_ [_ [Hin _]]] _].
  destruct (setters_clamp_and_clear (new_system None None None None) 20)
    as [_ [_ [[Hlow _] _]]].
  split; [apply Hin; split; vm_compute; discriminate
         | apply Hlow; vm_compute; reflexivity].
Defined.

(** ** The cache *)

Lemma key_eqb_eq (a b : Key) : key_eqb a b = true <-> a = b.
Proof.
  destruct a as [[a1 a2] [a3 a4]], b as [[b1 b2] [b3 b4]].
  unfold key_eqb; simpl.
  rewrite !andb_true_iff, !Z.eqb_eq, !Bool.eqb_true_iff. split.
  - intros [[[-> ->] ->] ->]. reflexivity.
  - intros H. inversion H. auto.
Qed.

Lemma key_eqb_refl (k : Key) : key_eqb k k = true.
Proof. apply key_eqb_eq. reflexivity. Qed.

Lemma cache_get_None (c : Cache) (k : Key) :
  cache_get c k = None <-> ~ In k (cache_keys c).
Proof.
  induction c as [| [k' e] c IH]; simpl.
  - tauto.
  - destruct (key_eqb k k') eqn:E.
    + apply key_eqb_eq in E. subst. split; [discriminate | tauto].
    + assert (k' <> k).
      { intros ->. rewrite key_eqb_refl in E. discriminate. }
      tauto.
Qed.

Lemma cache_set_new_keys (c : Cache) (k : Key) (e : CacheEntry) :
  cache_get c k = None ->
  cache_keys (cache_set c k e) = cache_keys c ++ [k].
Proof.
  induction c as [| [k' e'] c IH]; simpl; intros H.
  - reflexivity.
  - destruct (key_eqb k k'); [discriminate H |].
    simpl. rewrite (IH H). reflexivity.
Qed.

Lemma cache_set_new (c : Cache) (k : Key) (e : CacheEntry) :
  cache_get c k = None -> cache_set c k e = c ++ [(k, e)].
Proof.
  induction c as [| [k' e'] c IH]; simpl; intros H.
  - reflexivity.
  - destruct (key_eqb k k'); [discriminate H |].
    rewrite (IH H). reflexivity.
Qed.

Lemma cache_get_app (c c' : Cache) (k : Key) :
  cache_get (c ++ c') k =
  match cache_get c k with
  | Some e => Some e
  | None => cache_get c' k
  end.
Proof.
  induction c as [| [k' e'] c IH]; simpl.
  - reflexivity.
  - destruct (key_eqb k k'); [reflexivity | exact IH].
Qed.

(** Dropping the oldest entry of a cache without repeated keys does not
    change what the other keys map to. *)
Lemma cache_get_tl (c : Cache) (k : Key) (e e' : CacheEntry) :
  NoDup (cache_keys c) ->
  cache_get c k = Some e ->
  cache_get (tl c) k = Some e' ->
  e' = e.
Proof.
  destruct c as [| [k0 e0] c]; simpl; intros Hnd H H'.
  - discriminate H.
  - destruct (key_eqb k k0) eqn:E.
    + apply key_eqb_eq in E. subst k0.
      apply NoDup_cons_iff in Hnd. destruct Hnd as [Hnotin _].
      apply cache_get_None in Hnotin. congruence.
    + congruence.
Qed.

Lemma distinct_keys_NoDup (ks : list Key) :
  distinct_keys ks = true -> NoDup ks.
Proof.
  induction ks as [| k ks IH]; simpl; intros H.
  - constructor.
  - apply andb_true_iff in H. destruct H as [Hk Hks].
    constructor; [ | apply IH; exact Hks].
    intros Hin. apply negb_true_iff in Hk.
    assert (existsb (key_eqb k) ks = true).
    { apply existsb_exists. exists k. split; [exact Hin | apply key_eqb_refl]. }
    congruence.
Qed.

Section Update.
Variable Math_PI : Q.
Variables Math_cos Math_sin : Q -> Q.
Variable fuel : nat.
Variable maze : Maze.
Variable cellSize : Q.

Lemma cast_rays_returns (config : RayConfig) (playerX playerY angleStep : Q) :
  0 < rayStep config * cellSize ->
  (ray_fuel config cellSize <= fuel)%nat ->
  forall idxs pts cs,
  exists r,
    cast_rays Math_PI Math_cos Math_sin config fuel playerX playerY
      maze cellSize
      angleStep idxs pts cs = Some r.
Proof.
  intros Hs Hf. induction idxs as [| i idxs IH]; intros pts cs; simpl.
  - eauto.
  - destruct (castRay_returns Math_cos Math_sin config fuel playerX playerY
                (inject_Z (Z.of_nat i) * angleStep * Math_PI / 180)
                maze cellSize Hs Hf)
    as [ray Hray].
    rewrite Hray. apply IH.
Qed.

Lemma update_returns (rs : RaycastSystem) (playerX playerY : Q) :
  0 < rayStep (config rs) * cellSize ->
  (ray_fuel (config rs) cellSize <= fuel)%nat ->
  exists rs' pts,
    update Math_PI Math_cos Math_sin fuel rs playerX playerY maze cellSize
      = Some (rs', pts).
Proof.
  intros Hs Hf. unfold update.
  destruct (cache_get (cache rs) (cacheKey playerX playerY)); [eauto |].
  match goal with
  | |- context [cast_rays ?pi ?c ?s ?cf ?f ?x ?y ?m ?cz ?a ?i ?p ?q] =>
      destruct (cast_rays_returns cf x y a Hs Hf i p q) as [[pts cs] Hr];
      rewrite Hr
  end.
  unfold store_alloc. eauto.
Qed.

Lemma update_config (rs rs' : RaycastSystem) (playerX playerY : Q)
    (pts : list Point) :
  update Math_PI Math_cos Math_sin fuel rs playerX playerY maze cellSize
    = Some (rs', pts) ->
  config rs' = config rs.
Proof.
  unfold update. intros H.
  destruct (cache_get (cache rs) (cacheKey playerX playerY)).
  - inversion H; subst. reflexivity.
  - destruct (cast_rays _ _ _ _ _ _ _ _ _ _ _ _ _) as [[p c] |];
      [ | discriminate H].
    unfold store_alloc in H. inversion H; subst. reflexivity.
Qed.

(** What one call does to the keys of the cache: nothing on a hit; on a
    miss the new key goes last and, beyond 100 keys, the oldest goes. *)
Lemma update_cache_keys (rs rs' : RaycastSystem) (playerX playerY : Q)
    (pts : list Point) :
  update Math_PI Math_cos Math_sin fuel rs playerX playerY maze cellSize
    = Some (rs', pts) ->
  cache_keys (cache rs') =
  match cache_get (cache rs) (cacheKey playerX playerY) with
  | Some _ => cache_keys (cache rs)
  | None => fifo_insert (cache_keys (cache rs)) (cacheKey playerX playerY)
  end.
Proof.
  unfold update. intros H.
  destruct (cache_get (cache rs) (cacheKey playerX playerY)) eqn:Hget.
  - inversion H; subst. reflexivity.
  - destruct (cast_rays _ _ _ _ _ _ _ _ _ _ _ _ _) as [[p c] |];
      [ | discriminate H].
    unfold store_alloc in H. inversion H; subst. simpl.
    unfold fifo_insert, cache_delete_first.
    match goal with
    | |- context [cache_set _ _ ?e] =>
        rewrite <- (cache_set_new_keys _ _ e Hget)
    end.
    unfold cache_keys. rewrite length_map.
    destruct (100 <? _)%Z; [ | reflexivity].
    destruct (cache_set _ _ _); reflexivity.
Qed.

Lemma updates_app (positions more : list (Q * Q)) :
  forall rs,
    updates Math_PI Math_cos Math_sin fuel rs (positions ++ more) maze cellSize
    =
    match updates Math_PI Math_cos Math_sin fuel rs positions maze cellSize with
    | Some rs' => updates Math_PI Math_cos Math_sin fuel rs' more maze cellSize
    | None => None
    end.
Proof.
  induction positions as [| [px0 py0] positions IH]; intros rs; simpl.
  - reflexivity.
  - destruct (update _ _ _ _ _ _ _ _ _) as [[rs' pts] |]
    ; [apply IH | reflexivity].
Qed.

(** While there is room, calls at fresh keys only append. *)
Lemma updates_fill (positions : list (Q * Q)) :
  forall rs,
    0 < rayStep (config rs) * cellSize ->
    (ray_fuel (config rs) cellSize <= fuel)%nat ->
    NoDup (cache_keys (cache rs) ++ map key_of positions) ->
    (length (cache rs) + length positions <= 100)%nat ->
    exists rs',
      updates Math_PI Math_cos Math_sin fuel rs positions
        maze cellSize = Some rs' /\
      config rs' = config rs /\
      cache_keys (cache rs') = cache_keys (cache rs) ++ map key_of positions.
Proof.
  induction positions as [| [x0 y0] positions IH];
    intros rs Hs Hf Hnd Hlen; simpl.
  - exists rs. rewrite app_nil_r. auto.
  - destruct (update_returns rs x0 y0 Hs Hf) as [rs1 [pts Hup]].
    rewrite Hup.
    pose proof (update_config _ _ _ _ _ Hup) as Hcfg.
    pose proof (update_cache_keys _ _ _ _ _ Hup) as Hkeys.
    assert (Hmiss : cache_get (cache rs) (cacheKey x0 y0) = None).
    { apply cache_get_None. intros Hin.
      apply NoDup_remove_2 in Hnd. apply Hnd.
      apply in_or_app. left. exact Hin. }
    rewrite Hmiss in Hkeys. unfold fifo_insert in Hkeys.
    simpl in Hlen.
    assert (Hroom : (100 <? Z.of_nat
        (length (cache_keys (cache rs) ++ [cacheKey x0 y0])))%Z
                    = false).
    { apply Z.ltb_ge. rewrite length_app. unfold cache_keys.
      rewrite length_map. simpl. lia. }
    rewrite Hroom in Hkeys.
    destruct (IH rs1) as [rs' [Hrun [Hcfg' Hk']]].
    + rewrite Hcfg. exact Hs.
    + rewrite Hcfg. exact Hf.
    + rewrite Hkeys, <- app_assoc. exact Hnd.
    + assert (length (cache rs1) = S (length (cache rs))).
      { unfold cache_keys in Hkeys.
        apply (f_equal (@length Key)) in Hkeys.
        rewrite length_app, !length_map in Hkeys. simpl in Hkeys. lia. }
      lia.
    + exists rs'. split; [exact Hrun |]. split; [congruence |].
      rewrite Hk', Hkeys, <- app_assoc. reflexivity.
Qed.

(** C5.  From an empty cache, 101 calls at positions with 101 different
    keys leave exactly 100 entries, the first position's entry is gone and
    the keys kept are those of the other 100 positions in call order.  In
    every call a hit leaves the keys as they are, and a miss appends its
    key and, beyond 100 keys, drops the oldest one. *)
Theorem cache_bounded_fifo :
  (forall rs positions,
     cache rs = [] ->
     length positions = 101%nat ->
     NoDup (map key_of positions) ->
     0 < rayStep (config rs) * cellSize ->
     (ray_fuel (config rs) cellSize <= fuel)%nat ->
     exists rs',
       updates Math_PI Math_cos Math_sin fuel rs positions
         maze cellSize = Some rs' /\
       length (cache rs') = 100%nat /\
       cache_get (cache rs') (key_of (hd (0, 0) positions)) = None /\
       cache_keys (cache rs') = tl (map key_of positions)) /\
  (forall rs playerX playerY rs' pts,
     update Math_PI Math_cos Math_sin fuel rs playerX playerY maze cellSize
       = Some (rs', pts) ->
     cache_keys (cache rs') =
     match cache_get (cache rs) (cacheKey playerX playerY) with
     | Some _ => cache_keys (cache rs)
     | None => fifo_insert (cache_keys (cache rs)) (cacheKey playerX playerY)
     end).
Proof.
  split; [ | intros; eapply update_cache_keys; eassumption].
  intros rs positions Hempty Hlen Hnd Hs Hf.
  destruct (exists_last (l := positions)) as [front [z Hpos]].
  { intros ->. discriminate Hlen. }
  subst positions.
  rewrite length_app in Hlen. simpl in Hlen.
  rewrite map_app in Hnd. simpl in Hnd.
  destruct (updates_fill front rs Hs Hf) as [rs1 [Hrun [Hcfg Hkeys]]].
  { rewrite Hempty. simpl. eapply NoDup_app_remove_r. exact Hnd. }
  { rewrite Hempty. simpl. lia. }
  rewrite Hempty in Hkeys. simpl in Hkeys.
  destruct z as [zx zy].
  destruct (update_returns rs1 zx zy) as [rs' [pts Hup]];
    [rewrite Hcfg; exact Hs | rewrite Hcfg; exact Hf |].
  pose proof (update_cache_keys _ _ _ _ _ Hup) as Hk.
  assert (Hmiss : cache_get (cache rs1) (cacheKey zx zy) = None).
  { apply cache_get_None. rewrite Hkeys. intros Hin.
    apply NoDup_remove_2 in Hnd. apply Hnd. rewrite app_nil_r. exact Hin. }
  rewrite Hmiss in Hk. unfold fifo_insert in Hk. rewrite Hkeys in Hk.
  assert (Hfull : (100 <? Z.of_nat
      (length (map key_of front ++ [cacheKey zx zy])))%Z
                  = true).
  { apply Z.ltb_lt. rewrite length_app, length_map. simpl. lia. }
  rewrite Hfull in Hk.
  exists rs'. split.
  { rewrite updates_app, Hrun. simpl. rewrite Hup. reflexivity. }
  assert (Hfront : exists p front', front = p :: front').
  { destruct front as [| p front']; [simpl in Hlen; lia | eauto]. }
  destruct Hfront as [p [front' ->]].
  simpl in Hk. simpl.
  split.
  { apply (f_equal (@length Key)) in Hk. unfold cache_keys in Hk.
    rewrite length_map in Hk. rewrite Hk, length_app, length_map.
    simpl in Hlen |- *. lia. }
  split.
  { apply cache_get_None. rewrite Hk. simpl in Hnd.
    apply NoDup_cons_iff in Hnd. destruct Hnd as [Hnotin _].
    exact Hnotin. }
  rewrite Hk, map_app. reflexivity.
Qed.

(** After a call the key of the position is cached; its entry holds the
    points returned and names a [Set] with the cells now visible. *)
Lemma update_caches (rs rs1 : RaycastSystem) (playerX playerY : Q)
    (pts : list Point) :
  update Math_PI Math_cos Math_sin fuel rs playerX playerY maze cellSize
    = Some (rs1, pts) ->
  exists e,
    cache_get (cache rs1) (cacheKey playerX playerY) = Some e /\
    points e = pts /\
    store_get (store rs1) (cells e) = getVisibleCells rs1.
Proof.
  unfold update. intros H.
  destruct (cache_get (cache rs) (cacheKey playerX playerY)) as [e |] eqn:Hget.
  - inversion H; subst. exists e. simpl. auto.
  - destruct (cast_rays _ _ _ _ _ _ _ _ _ _ _ _ _) as [[p cs] |];
      [ | discriminate H].
    unfold store_alloc in H.
    set (l := visibleCells rs) in *.
    set (st1 := store_set (store_set (store rs) l []) l cs) in *.
    set (e := mkEntry p (length st1)) in *.
    inversion H; subst rs1 pts; clear H.
    exists e. cbn [cache store points cells visibleCells getVisibleCells].
    split; [ | split; [reflexivity |]].
    + rewrite (cache_set_new _ _ e Hget).
      destruct (100 <? _)%Z eqn:Hfull.
      * destruct (cache rs) as [| [k0 e0] c].
        { simpl in Hfull. discriminate Hfull. }
        simpl. simpl in Hget.
        destruct (key_eqb (cacheKey playerX playerY) k0); [discriminate Hget |].
        rewrite cache_get_app, Hget. simpl. rewrite key_eqb_refl. reflexivity.
      * rewrite cache_get_app, Hget. simpl. rewrite key_eqb_refl. reflexivity.
    + unfold getVisibleCells, e. cbn [cells store visibleCells].
      unfold store_get. rewrite nth_middle.
      destruct (Nat.lt_ge_cases l (length st1)) as [Hin | Hout].
      * rewrite app_nth1 by exact Hin. reflexivity.
      * rewrite (nth_overflow st1 _ Hout).
        destruct (Nat.eq_dec l (length st1)) as [Heq | Hne].
        -- rewrite Heq, nth_middle. reflexivity.
        -- symmetry. apply nth_overflow. rewrite length_app. simpl. lia.
Qed.

(** A call keeps the keys of the cache distinct, and an entry that
    is cached before and after the call is the same entry. *)
Lemma update_keeps_entries (rs rs' : RaycastSystem) (playerX playerY : Q)
    (pts : list Point) :
  NoDup (cache_keys (cache rs)) ->
  update Math_PI Math_cos Math_sin fuel rs playerX playerY maze cellSize
    = Some (rs', pts) ->
  NoDup (cache_keys (cache rs')) /\
  forall k e e',
    cache_get (cache rs) k = Some e ->
    cache_get (cache rs') k = Some e' ->
    e' = e.
Proof.
  unfold update. intros Hnd H.
  destruct (cache_get (cache rs) (cacheKey playerX playerY)) as [e0 |] eqn:Hget.
  - inversion H; subst. simpl. split; [exact Hnd | intros; congruence].
  - destruct (cast_rays _ _ _ _ _ _ _ _ _ _ _ _ _) as [[p cs] |];
      [ | discriminate H].
    unfold store_alloc in H. inversion H; subst rs' pts; clear H.
    cbn [cache].
    match goal with
    | |- context [cache_set _ _ ?e] =>
        set (enew := e); rewrite (cache_set_new _ _ enew Hget)
    end.
    set (c1 := cache rs ++ [(cacheKey playerX playerY, enew)]).
    assert (Hnd1 : NoDup (cache_keys c1)).
    { unfold c1, cache_keys. rewrite map_app. simpl.
      apply NoDup_app; [exact Hnd | repeat constructor; intros [] |].
      intros k Hk [<- | []]. apply (cache_get_None _ _) in Hget.
      exact (Hget Hk). }
    assert (Hold : forall k e, cache_get (cache rs) k = Some e ->
                               cache_get c1 k = Some e).
    { intros k e He. unfold c1. rewrite cache_get_app, He. reflexivity. }
    destruct (100 <? _)%Z.
    + split.
      * unfold cache_delete_first. destruct c1 as [| h c1']; [constructor |].
        simpl in Hnd1 |- *. apply NoDup_cons_iff in Hnd1. tauto.
      * intros k e e' He He'.
        exact (cache_get_tl c1 k e e' Hnd1 (Hold k e He) He').
    + split; [exact Hnd1 |].
      intros k e e' He He'. rewrite (Hold k e He) in He'. congruence.
Qed.

(** An entry that stays cached through successive calls is the same at
    the end. *)
Lemma stays_cached_entry (k : Key) (positions : list (Q * Q)) :
  forall rs rs' e,
    NoDup (cache_keys (cache rs)) ->
    cache_get (cache rs) k = Some e ->
    updates Math_PI Math_cos Math_sin fuel rs positions maze cellSize
      = Some rs' ->
    stays_cached Math_PI Math_cos Math_sin fuel k rs positions maze cellSize ->
    cache_get (cache rs') k = Some e.
Proof.
  induction positions as [| [x0 y0] positions IH];
    intros rs rs' e Hnd He Hrun Hstay; simpl in Hrun, Hstay.
  - inversion Hrun; subst. exact He.
  - destruct (update _ _ _ _ _ _ _ _ _) as [[rs1 pts] |] eqn:Hup;
      [ | discriminate Hrun].
    destruct Hstay as [Hk Hstay].
    destruct (update_keeps_entries rs rs1 x0 y0 pts Hnd Hup) as [Hnd1 Hsame].
    destruct (cache_get (cache rs1) k) as [e1 |] eqn:He1; [ | congruence].
    rewrite (Hsame k e e1 He He1) in He1.
    exact (IH rs1 rs' e Hnd1 He1 Hrun Hstay).
Qed.

Lemma updates_returns (positions : list (Q * Q)) :
  forall rs,
    0 < rayStep (config rs) * cellSize ->
    (ray_fuel (config rs) cellSize <= fuel)%nat ->
    exists rs',
      updates Math_PI Math_cos Math_sin fuel rs positions maze cellSize
        = Some rs' /\
      config rs' = config rs.
Proof.
  induction positions as [| [x0 y0] positions IH]; intros rs Hs Hf; simpl.
  - eauto.
  - destruct (update_returns rs x0 y0 Hs Hf) as [rs1 [pts Hup]].
    rewrite Hup.
    pose proof (update_config _ _ _ _ _ Hup) as Hcfg.
    destruct (IH rs1) as [rs' [Hrun Hcfg']];
      [rewrite Hcfg; exact Hs | rewrite Hcfg; exact Hf |].
    exists rs'. split; [exact Hrun | congruence].
Qed.

Lemma updates_NoDup (positions : list (Q * Q)) :
  forall rs rs',
    NoDup (cache_keys (cache rs)) ->
    updates Math_PI Math_cos Math_sin fuel rs positions maze cellSize
      = Some rs' ->
    NoDup (cache_keys (cache rs')).
Proof.
  induction positions as [| [x0 y0] positions IH]; intros rs rs' Hnd Hrun;
    simpl in Hrun.
  - inversion Hrun; subst. exact Hnd.
  - destruct (update _ _ _ _ _ _ _ _ _) as [[rs1 pts] |] eqn:Hup;
      [ | discriminate Hrun].
    destruct (update_keeps_entries rs rs1 x0 y0 pts Hnd Hup) as [Hnd1 _].
    exact (IH rs1 rs' Hnd1 Hrun).
Qed.

(** C1, as amended.  Take two calls of [update] with the same key on an
    unchanged maze and cell size, and any calls between them, from a
    system whose cache has distinct keys, as every [Map] has.  If the key
    stays in the cache through the calls between, the second call
    returns the very point list that the first returned.  If no call is
    made between them, the second also leaves the same visible cells as
    the first. *)
Theorem cached_result_is_returned (rs : RaycastSystem)
    (playerX playerY playerX' playerY' : Q) (between : list (Q * Q)) :
  NoDup (cache_keys (cache rs)) ->
  0 < rayStep (config rs) * cellSize ->
  (ray_fuel (config rs) cellSize <= fuel)%nat ->
  cacheKey playerX' playerY' = cacheKey playerX playerY ->
  exists rs1 pts1 rs2,
    update Math_PI Math_cos Math_sin fuel rs playerX playerY maze cellSize
      = Some (rs1, pts1) /\
    updates Math_PI Math_cos Math_sin fuel rs1 between maze cellSize
      = Some rs2 /\
    (stays_cached Math_PI Math_cos Math_sin fuel (cacheKey playerX playerY)
       rs1 between maze cellSize ->
     exists rs3,
       update Math_PI Math_cos Math_sin fuel rs2 playerX' playerY' maze cellSize
         = Some (rs3, pts1)) /\
    (exists rs3,
       update Math_PI Math_cos Math_sin fuel rs1 playerX' playerY' maze cellSize
         = Some (rs3, pts1) /\
       getVisibleCells rs3 = getVisibleCells rs1).
Proof.
  intros Hnd Hs Hf Hkey.
  destruct (update_returns rs playerX playerY Hs Hf) as [rs1 [pts1 Hup]].
  pose proof (update_config _ _ _ _ _ Hup) as Hcfg.
  destruct (updates_returns between rs1) as [rs2 [Hrun _]];
    [rewrite Hcfg; exact Hs | rewrite Hcfg; exact Hf |].
  destruct (update_caches rs rs1 playerX playerY pts1 Hup)
    as [e [He [Hpts Hcells]]].
  destruct (update_keeps_entries rs rs1 playerX playerY pts1 Hnd Hup)
    as [Hnd1 _].
  exists rs1, pts1, rs2.
  split; [exact Hup |]. split; [exact Hrun |]. split.
  - intros Hstay.
    pose proof (stays_cached_entry _ between rs1 rs2 e Hnd1 He Hrun Hstay)
      as He2.
    eexists. unfold update. rewrite Hkey, He2, Hpts. reflexivity.
  - eexists. unfold update. rewrite Hkey, He, Hpts.
    split; [reflexivity |].
    unfold getVisibleCells at 1. cbn [store visibleCells]. exact Hcells.
Qed.
End Update.

Lemma cached_result_is_returned_witness :
  exists rs1 pts1 rs2 rs3,
    update pi_value axis_cos axis_sin 10 near_system 100 100 (open_maze 5 5) 40
      = Some (rs1, pts1) /\
    updates pi_value axis_cos axis_sin 10 rs1 [(20, 20)] (open_maze 5 5) 40
      = Some rs2 /\
    update pi_value axis_cos axis_sin 10 rs2 100 100 (open_maze 5 5) 40
      = Some (rs3, pts1).
Proof.
  destruct (cached_result_is_returned pi_value axis_cos axis_sin 10
              (open_maze 5 5) 40 near_system 100 100 100 100 [(20, 20)])
    as [rs1 [pts1 [rs2 [H1 [H2 [H3 _]]]]]].
  - constructor.
  - vm_compute. reflexivity.
  - vm_compute. lia.
  - reflexivity.
  - destruct H3 as [rs3 H3].
    + vm_compute in H1. injection H1 as <- <-.
      vm_compute. split; [discriminate | exact I].
    + exists rs1, pts1, rs2, rs3. auto.
Defined.

(** C1, as stated, fails.  The positions [(100.01, 100)] and
    [(100.04, 100)] have the same key.  After a call at the first, a
    hundred calls at other keys evict its entry, and the call at the
    second is a miss that casts its rays from [100.04]: the first point
    returned is at [x = 104.04], where the first call returned
    [x = 104.01]. *)
Lemma evicted_entry_is_recomputed :
  exists rs1 pts1 rs2 rs3 pts3 p1 p3,
    update pi_value axis_cos axis_sin 10 near_system (10001 # 100) 100
      (open_maze 5 5) 40 = Some (rs1, pts1) /\
    updates pi_value axis_cos axis_sin 10 rs1 filler_positions
      (open_maze 5 5) 40 = Some rs2 /\
    update pi_value axis_cos axis_sin 10 rs2 (10004 # 100) 100
      (open_maze 5 5) 40 = Some (rs3, pts3) /\
    cacheKey (10004 # 100) 100 = cacheKey (10001 # 100) 100 /\
    hd_error pts1 = Some p1 /\ hd_error pts3 = Some p3 /\
    px p1 == 10401 # 100 /\ px p3 == 10404 # 100 /\ ~ px p3 == px p1.
Proof.
  do 7 eexists.
  split; [vm_compute; reflexivity |].
  split; [vm_compute; reflexivity |].
  split; [vm_compute; reflexivity |].
  split; [reflexivity |].
  split; [reflexivity |].
  split; [reflexivity |].
  split; [reflexivity |].
  split; [reflexivity |].
  intros H. vm_compute in H. discriminate H.
Qed.

Lemma cache_bounded_fifo_witness :
  exists rs',
    updates pi_value axis_cos axis_sin 20
      (new_system (Some 4) (Some 2) (Some (1 # 10)) (Some 360))
      row_positions (open_maze 5 5) 40 = Some rs' /\
    length (cache rs') = 100%nat /\
    cache_get (cache rs') (cacheKey 0 20) = None.
Proof.
  destruct (cache_bounded_fifo pi_value axis_cos axis_sin 20 (open_maze 5 5) 40)
    as [Hfill _].
  destruct (Hfill (new_system (Some 4) (Some 2) (Some (1 # 10)) (Some 360))
              row_positions)
    as [rs' [Hrun [Hlen [Hfirst _]]]].
  - reflexivity.
  - reflexivity.
  - apply distinct_keys_NoDup. vm_compute. reflexivity.
  - vm_compute. reflexivity.
  - vm_compute. lia.
  - exists rs'. split; [exact Hrun |]. split; [exact Hlen | exact Hfirst].
Defined.

(** ** The scenario: four rays in the open maze *)

Lemma Qeq_bool_left (a c d : Q) : a == c -> Qeq_bool a d = Qeq_bool c d.
Proof.
  intros H. destruct (Qeq_bool c d) eqn:E.
  - apply Qeq_bool_iff. apply Qeq_bool_iff in E. rewrite H. exact E.
  - destruct (Qeq_bool a d) eqn:E'; [ | reflexivity].
    apply Qeq_bool_iff in E'. rewrite H in E'. apply Qeq_bool_iff in E'.
    congruence.
Qed.

Lemma axis_trig_exact : axis_exact pi_value axis_cos axis_sin.
Proof.
  unfold axis_exact, axis_cos, axis_sin.
  split; [ | split; [ | split]]; intros a Ha;
    rewrite !(Qeq_bool_left _ _ _ Ha); split; reflexivity.
Qed.

Section Scenario.
Variable Math_PI : Q.
Variables Math_cos Math_sin : Q -> Q.
Hypothesis Haxis : axis_exact Math_PI Math_cos Math_sin.

Let cast (fuel : nat) (a : Q) : option (list Point) :=
  castRay Math_cos Math_sin scenario_config fuel 100 100 a (open_maze 5 5) 40.

Ltac axis_ray H :=
  eexists; split;
  [ intros k a Ha; unfold cast, castRay;
    destruct (H a Ha) as [-> ->];
    apply march_more_fuel with (fuel := 20%nat); [lia | vm_compute; reflexivity]
  | split; [reflexivity |];
    eexists; split; [reflexivity |];
    repeat split; reflexivity ].

Ltac angle_eq := unfold radians, scenario_config; simpl; field.

Lemma ray_east :
  exists r, (forall k a, a == radians Math_PI 0 -> cast (20 + k) a = Some r) /\
            ray_ends r 20 180 100 80.
Proof. destruct Haxis as [H _]. axis_ray H. Qed.

Lemma ray_south :
  exists r, (forall k a, a == radians Math_PI 90 -> cast (20 + k) a = Some r) /\
            ray_ends r 20 100 180 80.
Proof. destruct Haxis as [_ [H _]]. axis_ray H. Qed.

Lemma ray_west :
  exists r, (forall k a, a == radians Math_PI 180 ->
      cast (20 + k) a = Some r) /\
            ray_ends r 20 20 100 80.
Proof. destruct Haxis as [_ [_ [H _]]]. axis_ray H. Qed.

Lemma ray_north :
  exists r, (forall k a, a == radians Math_PI 270 ->
      cast (20 + k) a = Some r) /\
            ray_ends r 20 100 20 80.
Proof. destruct Haxis as [_ [_ [_ H]]]. axis_ray H. Qed.

(** C4, as amended.  In the scenario [update] casts the four rays of
    angles 0, 90, 180 and 270 degrees and returns their points in that
    order; each ray has 20 points and its last point is 80 pixels from
    the origin along its axis, at the full [maxRayDistance * cellSize]:
    the rays end in the middle of the outer cells, where no wall is
    near. *)
Theorem scenario_four_rays (fuel : nat) :
  (ray_fuel scenario_config 40 <= fuel)%nat ->
  Forall2 Qeq
    (map (fun i => inject_Z (Z.of_nat i)
                   * (fov scenario_config / rayCount scenario_config)
                   * Math_PI / 180)
       (ray_indices scenario_config))
    (map (radians Math_PI) [0; 90; 180; 270]) /\
  exists rs' r0 r1 r2 r3,
    update Math_PI Math_cos Math_sin fuel scenario_system 100 100
      (open_maze 5 5) 40
      = Some (rs', r0 ++ r1 ++ r2 ++ r3) /\
    cast fuel (radians Math_PI 0) = Some r0 /\
    cast fuel (radians Math_PI 90) = Some r1 /\
    cast fuel (radians Math_PI 180) = Some r2 /\
    cast fuel (radians Math_PI 270) = Some r3 /\
    ray_ends r0 20 180 100 80 /\ ray_ends r1 20 100 180 80 /\
    ray_ends r2 20 20 100 80 /\ ray_ends r3 20 100 20 80.
Proof.
  intros Hfuel. split.
  { repeat constructor; angle_eq. }
  assert (Hk : exists k, fuel = (20 + k)%nat).
  { exists (fuel - 20)%nat.
    change (ray_fuel scenario_config 40) with 20%nat in Hfuel.
    lia. }
  destruct Hk as [k ->].
  destruct ray_east as [r0 [H0 E0]], ray_south as [r1 [H1 E1]],
    ray_west as [r2 [H2 E2]], ray_north as [r3 [H3 E3]].
  exists (mkSystem scenario_config (r0 ++ r1 ++ r2 ++ r3) O
            [(cacheKey 100 100, mkEntry (r0 ++ r1 ++ r2 ++ r3) 1%nat)]
            [fold_left
               (fun s point => set_add s (cell_of 40 (px point) (py point)))
               (r0 ++ r1 ++ r2 ++ r3) [];
             fold_left
               (fun s point => set_add s (cell_of 40 (px point) (py point)))
               (r0 ++ r1 ++ r2 ++ r3) []]),
    r0, r1, r2, r3.
  split.
  { unfold update, scenario_system. cbn [cache new_system cache_get].
    change (ray_indices _) with [0; 1; 2; 3]%nat.
    cbn [cast_rays].
    unfold cast in H0, H1, H2, H3.
    change (config _) with scenario_config.
    rewrite (H0 k) by angle_eq. rewrite (H1 k) by angle_eq.
    rewrite (H2 k) by angle_eq. rewrite (H3 k) by angle_eq.
    cbn [app]. rewrite !fold_left_app, <- !app_assoc.
    reflexivity. }
  split; [apply H0; reflexivity |].
  split; [apply H1; reflexivity |].
  split; [apply H2; reflexivity |].
  split; [apply H3; reflexivity |].
  auto.
Qed.
End Scenario.

Lemma scenario_four_rays_witness :
  exists rs' pts,
    update pi_value axis_cos axis_sin 20 scenario_system 100 100
      (open_maze 5 5) 40
      = Some (rs', pts) /\
    length pts = 80%nat.
Proof.
  destruct (scenario_four_rays pi_value axis_cos axis_sin axis_trig_exact 20)
    as [_ [rs' [r0 [r1 [r2 [r3 [Hup [_ [_ [_ [_ [E0 [E1 [E2 E3]]]]]]]]]]]]]].
  - vm_compute. lia.
  - exists rs', (r0 ++ r1 ++ r2 ++ r3). split; [exact Hup |].
    destruct E0 as [L0 _], E1 as [L1 _], E2 as [L2 _], E3 as [L3 _].
    rewrite !length_app, L0, L1, L2, L3. reflexivity.
Defined.

(** C4, as stated, fails.  The ray along the x axis records the point at
    76 pixels as its 19th point and goes one step further: its last
    point is at 80 pixels, at [(180, 100)]. *)
Lemma scenario_last_point_at_80 :
  exists ray p19 p,
    castRay axis_cos axis_sin scenario_config 20 100 100 (radians pi_value 0)
      (open_maze 5 5) 40
      = Some ray /\
    nth_error ray 18 = Some p19 /\ distance p19 == 76 /\
    last_point ray = Some p /\
    px p == 180 /\ distance p == 80 /\ ~ distance p == 76.
Proof.
  eexists; eexists; eexists.
  split; [vm_compute; reflexivity |].
  repeat split; try reflexivity.
  intros H. vm_compute in H. discriminate H.
Qed.

(** ** A cache hit after a miss *)

(** What a hit does: the stored array is returned, [visibleCells] becomes
    the stored [Set] object itself, and nothing is copied. *)
Lemma update_hit (Math_PI : Q) (Math_cos Math_sin : Q -> Q)
    (fuel : nat) (rs : RaycastSystem)
    (playerX playerY : Q) (maze : Maze) (cellSize : Q) (e : CacheEntry) :
  cache_get (cache rs) (cacheKey playerX playerY) = Some e ->
  update Math_PI Math_cos Math_sin fuel rs playerX playerY maze cellSize =
  Some (mkSystem (config rs) (points e) (cells e) (cache rs) (store rs),
        points e).
Proof. intros H. unfold update. rewrite H. reflexivity. Qed.

(** After a hit, a miss overwrites the cells of the entry that was hit.
    Four calls in the open 5 by 5 maze with cells of 40 pixels, at
    [(100, 100)], [(100, 100)], [(20, 20)] and [(100, 100)]: the second
    call is a hit and makes [visibleCells] the [Set] stored in the
    cache; the third, a miss, clears and refills that very object; the
    fourth, a hit at the key of the first, returns the points of the
    first call and leaves the cells seen from [(20, 20)]. *)
Lemma cache_hit_after_miss_has_other_cells :
  exists rs1 rs2 rs3 rs4 pts1 pts2 pts3 pts4,
    update pi_value axis_cos axis_sin 10 near_system 100 100 (open_maze 5 5) 40
      = Some (rs1, pts1) /\
    update pi_value axis_cos axis_sin 10 rs1 100 100 (open_maze 5 5) 40
      = Some (rs2, pts2) /\
    update pi_value axis_cos axis_sin 10 rs2 20 20 (open_maze 5 5) 40
      = Some (rs3, pts3) /\
    update pi_value axis_cos axis_sin 10 rs3 100 100 (open_maze 5 5) 40
      = Some (rs4, pts4) /\
    cacheKey 100 100 <> cacheKey 20 20 /\
    pts2 = pts1 /\ pts4 = pts1 /\
    getVisibleCells rs1 =
      [(2, 2); (3, 2); (2, 3); (1, 2); (2, 1)]%Z /\
    getVisibleCells rs2 = getVisibleCells rs1 /\
    getVisibleCells rs3 = [(0, 0); (1, 0); (0, 1)]%Z /\
    getVisibleCells rs4 = [(0, 0); (1, 0); (0, 1)]%Z /\
    getVisibleCells rs4 <> getVisibleCells rs1.
Proof.
  do 8 eexists.
  split; [vm_compute; reflexivity |].
  split; [vm_compute; reflexivity |].
  split; [vm_compute; reflexivity |].
  split; [vm_compute; reflexivity |].
  split; [vm_compute; discriminate |].
  repeat (split; [vm_compute; reflexivity |]).
  vm_compute. discriminate.
Qed.
End RaycastFacts.

(** ** Listeners *)

Module GameFacts.
Import Raycast GameCore Props BasicFacts RaycastFacts.
Local Open Scope Q_scope.

Lemma notify_calls (event : EventName) (data : EventData)
    (callbacks : list Callback) :
  forall index,
    calls_of (notify event data callbacks index) =
    map (fun i => Called event i data) (seq index (length callbacks)).
Proof.
  induction callbacks as [| callback rest IH]; intros index; simpl.
  - reflexivity.
  - destruct (callback data); simpl; rewrite IH; reflexivity.
Qed.

Lemma notify_errors (event : EventName) (data : EventData)
    (callbacks : list Callback) :
  forall index,
    errors_of (notify event data callbacks index) = thrown event data callbacks.
Proof.
  induction callbacks as [| callback rest IH]; intros index; simpl.
  - reflexivity.
  - destruct (callback data); simpl; rewrite IH; reflexivity.
Qed.

Lemma triggerEvent_kept (g : Game) (event : EventName) (data : EventData) :
  kept g (triggerEvent g event data) /\
  exploredCells (triggerEvent g event data) = exploredCells g /\
  raycastSystem (triggerEvent g event data) = raycastSystem g.
Proof. unfold kept. repeat split; reflexivity. Qed.

(** ** Exploration *)

Lemma explore_explored (g : Game) (cell : Cell) :
  exploredCells (explore g cell) = set_add (exploredCells g) cell.
Proof.
  unfold explore, set_add.
  destruct (set_has (exploredCells g) cell); reflexivity.
Qed.

Lemma explore_kept (g : Game) (cell : Cell) :
  kept g (explore g cell) /\ raycastSystem (explore g cell) = raycastSystem g.
Proof.
  unfold explore, kept.
  destruct (set_has (exploredCells g) cell); repeat split; reflexivity.
Qed.

Lemma kept_refl (g : Game) : kept g g.
Proof. unfold kept. repeat split; reflexivity. Qed.

Lemma kept_trans (g1 g2 g3 : Game) : kept g1 g2 -> kept g2 g3 -> kept g1 g3.
Proof.
  unfold kept. intros [A1 [A2 [A3 [A4 [A5 [A6 A7]]]]]]
      [B1 [B2 [B3 [B4 [B5 [B6 B7]]]]]].
  repeat split; congruence.
Qed.

Lemma fold_explore_explored (cells : list Cell) :
  forall g,
    exploredCells (fold_left explore cells g) =
    fold_left set_add cells (exploredCells g).
Proof.
  induction cells as [| cell cells IH]; intros g; simpl.
  - reflexivity.
  - rewrite IH, explore_explored. reflexivity.
Qed.

Lemma fold_explore_kept (cells : list Cell) :
  forall g,
    kept g (fold_left explore cells g) /\
    raycastSystem (fold_left explore cells g) = raycastSystem g.
Proof.
  induction cells as [| cell cells IH]; intros g; simpl.
  - split; [apply kept_refl | reflexivity].
  - destruct (IH (explore g cell)) as [Hk Hr].
    destruct (explore_kept g cell) as [Hk' Hr'].
    split; [eapply kept_trans; eassumption | congruence].
Qed.

Lemma fold_set_add_grows (cells : list Cell) :
  forall s,
    incl s (fold_left set_add cells s) /\
    (length s <= length (fold_left set_add cells s))%nat.
Proof.
  induction cells as [| cell cells IH]; intros s; simpl.
  - split; [apply incl_refl | lia].
  - destruct (IH (set_add s cell)) as [Hi Hl].
    pose proof (set_add_incl s cell). pose proof (set_add_length s cell).
    split; [eapply incl_tran; eassumption | lia].
Qed.

Lemma grown_refl (g : Game) : grown g g.
Proof. unfold grown. repeat split; try apply incl_refl. lia. Qed.

Lemma grown_same_cells (g g' : Game) :
  exploredCells g' = exploredCells g -> visitedCells g' = visitedCells g ->
  grown g g'.
Proof.
  unfold grown. intros -> ->. repeat split; try apply incl_refl. lia.
Qed.

Lemma grown_trans (g1 g2 g3 : Game) : grown g1 g2 -> grown g2 g3 -> grown g1 g3.
Proof.
  unfold grown. intros [A1 [A2 A3]] [B1 [B2 B3]].
  repeat split; try (eapply incl_tran; eassumption). lia.
Qed.

Lemma same_rays_refl (g : Game) : same_rays g g.
Proof. split; reflexivity. Qed.

Lemma same_rays_trans (g1 g2 g3 : Game) :
  same_rays g1 g2 -> same_rays g2 g3 -> same_rays g1 g3.
Proof. unfold same_rays. intros [A1 A2] [B1 B2]. split; congruence. Qed.

Lemma rays_return_same (fuel : nat) (g g' : Game) :
  same_rays g g' -> rays_return fuel g -> rays_return fuel g'.
Proof.
  unfold same_rays, rays_return. intros [Hr Hc].
  destruct (raycastSystem g) as [rs |], (raycastSystem g') as [rs' |];
    simpl in Hr; try discriminate Hr; auto.
  inversion Hr as [Hcfg]. rewrite Hcfg, Hc. auto.
Qed.

Section Lib.
Variable Math_PI : Q.
Variables Math_cos Math_sin Math_sqrt : Q -> Q.
Variable fuel : nat.

Let updateVisibility := updateVisibility Math_PI Math_cos Math_sin fuel.
Let updatePlayerPosition :=
  updatePlayerPosition Math_PI Math_cos Math_sin Math_sqrt fuel.
Let candidate := candidate Math_sqrt.
Let step := step Math_PI Math_cos Math_sin Math_sqrt fuel.
Let run := run Math_PI Math_cos Math_sin Math_sqrt fuel.

Lemma updateVisibility_returns (g : Game) :
  rays_return fuel g -> exists g', updateVisibility g = Some g'.
Proof.
  unfold rays_return, updateVisibility, GameCore.updateVisibility.
  destruct (raycastSystem g) as [rs |]; [ | eauto].
  intros [Hs Hf].
  destruct (update_returns Math_PI Math_cos Math_sin fuel
      (maze g) (cellSize (gconfig g))
              rs (x (player g)) (y (player g)) Hs Hf) as [rs' [pts Hup]].
  rewrite Hup. eauto.
Qed.

Lemma updateVisibility_spec (g g' : Game) :
  updateVisibility g = Some g' ->
  kept g g' /\ same_rays g g' /\
  incl (exploredCells g) (exploredCells g') /\
  (length (exploredCells g) <= length (exploredCells g'))%nat.
Proof.
  unfold updateVisibility, GameCore.updateVisibility. intros H.
  destruct (raycastSystem g) as [rs |] eqn:Hrs.
  - destruct (update _ _ _ _ _ _ _ _ _) as [[rs' pts] |] eqn:Hup;
      [ | discriminate H].
    inversion H; subst g'; clear H.
    destruct (fold_explore_kept (getVisibleCells rs')
                (set_raycastSystem g (Some rs'))) as [Hk Hr].
    split; [exact Hk |].
    split.
    { split.
      - rewrite Hr, Hrs. simpl. f_equal.
        eapply update_config. exact Hup.
      - destruct Hk as [Hc _]. rewrite Hc. reflexivity. }
    rewrite fold_explore_explored. simpl.
    apply fold_set_add_grows.
  - inversion H; subst g'.
    split; [apply kept_refl |]. split; [apply same_rays_refl |].
    split; [apply incl_refl | lia].
Qed.

Lemma victory_spec (now : Z) (g : Game) :
  player (victory now g) = player g /\ grown g (victory now g) /\
  same_rays g (victory now g).
Proof.
  split; [reflexivity |].
  split; [apply grown_same_cells; reflexivity | split; reflexivity].
Qed.

Lemma not_playing (g : Game) :
  negb (isRunning (state g)) || isPaused (state g) || isGameOver (state g)
  = negb (playing g).
Proof.
  unfold playing.
  destruct (isRunning (state g)), (isPaused (state g)), (isGameOver (state g));
    reflexivity.
Qed.

(** The two ways [updatePlayerPosition] ends. *)
Lemma updatePlayerPosition_spec (now : Z) (g : Game) :
  rays_return fuel g ->
  exists g' moved,
    updatePlayerPosition now g = Some (g', moved) /\
    ((moved = false /\ g' = g /\
      (playing g = false \/ candidate g = None \/
       exists newX newY,
         candidate g = Some (newX, newY) /\ canMoveTo g newX newY = false)) \/
     (moved = true /\ playing g = true /\
      (exists newX newY,
         candidate g = Some (newX, newY) /\ canMoveTo g newX newY = true /\
         player g' =
           mkPlayer newX newY (x (player g)) (y (player g))
             (radius (player g))) /\
      grown g g' /\ same_rays g g')).
Proof.
  intros Hrays.
  unfold updatePlayerPosition, GameCore.updatePlayerPosition.
  rewrite not_playing.
  destruct (playing g) eqn:Hplay; cbn [negb].
  2:{ exists g, false. split; [reflexivity |]. left. auto. }
  fold candidate.
  destruct (candidate g) as [[newX newY] |] eqn:Hcand.
  2:{ exists g, false. split; [reflexivity |]. left. auto. }
  destruct (canMoveTo g newX newY) eqn:Hcan.
  2:{ exists g, false. split; [reflexivity |]. left.
      split; [reflexivity |]. split; [reflexivity |]. right. right. eauto. }
  match goal with
  | |- context [GameCore.updateVisibility _ _ _ _ ?gm] => set (moved_game := gm)
  end.
  assert (Hsame : same_rays g moved_game) by (split; reflexivity).
  destruct (updateVisibility_returns moved_game
              (rays_return_same fuel g moved_game Hsame Hrays)) as [g1 Hvis].
  unfold updateVisibility in Hvis. rewrite Hvis.
  destruct (updateVisibility_spec moved_game g1 Hvis)
    as [[K1 [K2 [K3 [K4 [K5 [K6 K7]]]]]] [Hsame1 [Hincl Hlen]]].
  destruct (getEnd (maze g1)) as [ex ey].
  match goal with
  | |- context [Some (?gf, true)] => set (final := gf)
  end.
  assert (Hfinal : player final = player g1 /\ grown g1 final /\
                   same_rays g1 final).
  { subst final. destruct (JSNum.lt _ _).
    - apply victory_spec.
    - split; [reflexivity |]. split; [apply grown_refl | apply same_rays_refl].
        }
  destruct Hfinal as [Hp [Hg Hr]].
  exists final, true. split; [reflexivity |]. right.
  split; [reflexivity |]. split; [reflexivity |].
  split.
  { exists newX, newY. split; [reflexivity |]. split; [exact Hcan |].
    rewrite Hp, K4. reflexivity. }
  split.
  - apply (grown_trans g g1 final); [ | exact Hg].
    unfold grown. split; [exact Hincl |]. split; [ | exact Hlen].
    rewrite K5. apply set_add_incl.
  - apply (same_rays_trans g g1 final); [ | exact Hr].
    exact (same_rays_trans g moved_game g1 Hsame Hsame1).
Qed.

Lemma step_spec (g : Game) (a : Action) :
  rays_return fuel g ->
  exists g', step g a = Some g' /\ grown g g' /\ same_rays g g'.
Proof.
  intros Hrays.
  destruct a as [direction pressed | now | now | | now | mode | event callback];
    simpl.
  - exists (setMoveInput g direction pressed). split; [reflexivity |].
    destruct direction;
      (split; [apply grown_same_cells; reflexivity | split; reflexivity]).
  - destruct (updatePlayerPosition_spec now g Hrays)
    as [g' [moved [Hup Hcases]]].
    unfold updatePlayerPosition in Hup. rewrite Hup.
    exists g'. split; [reflexivity |].
    destruct Hcases as [[_ [-> _]] | [_ [_ [_ [Hg Hs]]]]].
    + split; [apply grown_refl | apply same_rays_refl].
    + split; assumption.
  - exists (start now g). split; [reflexivity |].
    unfold start. destruct (isRunning (state g));
      (split; [apply grown_same_cells; reflexivity | split; reflexivity]).
  - exists (togglePause g). split; [reflexivity |].
    unfold togglePause.
    destruct (negb (isRunning (state g)) || isGameOver (state g));
      (split; [apply grown_same_cells; reflexivity | split; reflexivity]).
  - exists (gameOver now g). split; [reflexivity |].
    split; [apply grown_same_cells; reflexivity | split; reflexivity].
  - unfold setViewMode.
    match goal with
    | |- context [GameCore.updateVisibility _ _ _ _ ?gm] => set (g0 := gm)
    end.
    assert (Hsame : same_rays g g0) by (split; reflexivity).
    destruct (updateVisibility_returns g0
        (rays_return_same fuel g g0 Hsame Hrays))
      as [g' Hvis].
    unfold updateVisibility in Hvis. rewrite Hvis.
    destruct (updateVisibility_spec g0 g' Hvis)
      as [[_ [_ [_ [_ [K5 _]]]]] [Hsame' [Hincl Hlen]]].
    exists g'. split; [reflexivity |]. split.
    + unfold grown. split; [exact Hincl |]. split; [ | exact Hlen].
      rewrite K5. apply incl_refl.
    + exact (same_rays_trans g g0 g' Hsame Hsame').
  - exists (addEventListener g event callback). split; [reflexivity |].
    split; [apply grown_same_cells; reflexivity | split; reflexivity].
Qed.

Lemma run_spec (actions : list Action) :
  forall g,
    rays_return fuel g ->
    exists g', run g actions = Some g' /\ grown g g' /\ same_rays g g'.
Proof.
  induction actions as [| a actions IH]; intros g Hrays; simpl.
  - exists g. split; [reflexivity |].
    split; [apply grown_refl | apply same_rays_refl].
  - destruct (step_spec g a Hrays) as [g1 [Hstep [Hg1 Hs1]]].
    unfold step in Hstep. rewrite Hstep.
    destruct (IH g1 (rays_return_same fuel g g1 Hs1 Hrays))
      as [g' [Hrun [Hg' Hs']]].
    exists g'. split; [exact Hrun |].
    split; [eapply grown_trans | eapply same_rays_trans]; eassumption.
Qed.

Lemma run_app (before after : list Action) :
  forall g,
    run g (before ++ after) =
    match run g before with
    | Some g1 => run g1 after
    | None => None
    end.
Proof.
  induction before as [| a before IH]; intros g; simpl.
  - reflexivity.
  - destruct (GameCore.step _ _ _ _ _ g a); [apply IH | reflexivity].
Qed.

(** C6.  Over any run of inputs, frames, starts and pauses of one maze,
    the game after a prefix of the run and the game after the whole run
    are related as follows: every cell explored, and every cell visited,
    after the prefix is still so at the end, and the number of explored
    cells has not gone down. *)
Theorem explored_and_visited_only_grow (g : Game) (before after : list Action) :
  rays_return fuel g ->
  exists g1 g2,
    run g before = Some g1 /\
    run g (before ++ after) = Some g2 /\
    incl (exploredCells g1) (exploredCells g2) /\
    incl (visitedCells g1) (visitedCells g2) /\
    (length (exploredCells g1) <= length (exploredCells g2))%nat.
Proof.
  intros Hrays.
  destruct (run_spec before g Hrays) as [g1 [Hrun1 [_ Hs1]]].
  destruct (run_spec after g1 (rays_return_same fuel g g1 Hs1 Hrays))
    as [g2 [Hrun2 [Hgrown _]]].
  exists g1, g2. split; [exact Hrun1 |].
  split; [rewrite run_app, Hrun1; exact Hrun2 | exact Hgrown].
Qed.

(** C7.  A call of [updatePlayerPosition] either accepts the whole
    candidate position, which becomes the player's position while the
    old position becomes the previous one, or changes nothing of the
    player.  It accepts exactly when the game is being played, some
    input gives a candidate and [canMoveTo] admits it. *)
Theorem move_is_atomic (now : Z) (g : Game) :
  rays_return fuel g ->
  exists g' moved,
    updatePlayerPosition now g = Some (g', moved) /\
    ((moved = true /\ playing g = true /\
      exists newX newY,
        candidate g = Some (newX, newY) /\ canMoveTo g newX newY = true /\
        player g' =
          mkPlayer newX newY (x (player g)) (y (player g))
            (radius (player g))) \/
     (moved = false /\ player g' = player g /\
      (playing g = false \/ candidate g = None \/
       exists newX newY,
         candidate g = Some (newX, newY) /\ canMoveTo g newX newY = false))).
Proof.
  intros Hrays.
  destruct (updatePlayerPosition_spec now g Hrays) as [g' [moved [Hup Hcases]]].
  exists g', moved. split; [exact Hup |].
  destruct Hcases as [[Hm [-> Hwhy]] | [Hm [Hplay [Hpos _]]]].
  - right. split; [exact Hm |]. split; [reflexivity | exact Hwhy].
  - left. split; [exact Hm |]. split; [exact Hplay | exact Hpos].
Qed.

(** C10.  When the game is not running, is paused or is over,
    [updatePlayerPosition] returns [false] whatever the input is and the
    game is the one it was: position, explored and visited cells, state,
    and no callback called. *)
Theorem idle_game_does_not_move (now : Z) (g : Game) (input : MoveInput) :
  isRunning (state g) = false \/ isPaused (state g) = true \/
  isGameOver (state g) = true ->
  updatePlayerPosition now (set_moveInput g input)
  = Some (set_moveInput g input, false).
Proof.
  intros H. unfold updatePlayerPosition, GameCore.updatePlayerPosition.
  cbn [state set_moveInput].
  destruct H as [-> | [-> | ->]]; cbn [negb orb]; try reflexivity;
    rewrite ?orb_true_r; reflexivity.
Qed.

(** C9.  [triggerEvent] calls every callback registered for the event,
    once and in order, whichever of them throw; it reports one error per
    throwing callback and touches nothing of the game besides.  The cells
    explored after [updateVisibility] do not depend on the listeners. *)
Theorem listener_failures_are_contained :
  (forall g event data,
     exists effects,
       trace (triggerEvent g event data) = trace g ++ effects /\
       calls_of effects =
         map (fun i => Called event i data)
           (seq 0 (length (listeners_of (eventListeners g) event))) /\
       errors_of effects =
         thrown event data (listeners_of (eventListeners g) event) /\
       exploredCells (triggerEvent g event data) = exploredCells g /\
       visitedCells (triggerEvent g event data) = visitedCells g /\
       player (triggerEvent g event data) = player g /\
       state (triggerEvent g event data) = state g /\
       raycastSystem (triggerEvent g event data) = raycastSystem g) /\
  (forall g listeners,
     option_map exploredCells
       (updateVisibility (set_eventListeners g listeners))
     = option_map exploredCells (updateVisibility g)).
Proof.
  split.
  - intros g event data.
    exists (notify event data (listeners_of (eventListeners g) event) 0).
    split; [reflexivity |].
    split; [apply notify_calls |].
    split; [apply notify_errors |].
    repeat split; reflexivity.
  - intros g listeners.
    unfold updateVisibility, GameCore.updateVisibility.
    cbn [raycastSystem set_eventListeners player maze gconfig].
    destruct (raycastSystem g) as [rs |]; [ | reflexivity].
    destruct (update _ _ _ _ _ _ _ _ _) as [[rs' pts] |]; [ | reflexivity].
    cbn [option_map]. rewrite !fold_explore_explored. reflexivity.
Qed.
End Lib.

(** The second of three listeners throws: all three are called, and the
    error is reported between the second call and the third. *)
Example throwing_listener_does_not_stop_the_rest :
  let data := CellExploredData 3 2 2 25 in
  trace (triggerEvent
           (sample_game (open_maze 5 5) 100 100
              (mkMoveInput false false false false) faulty_listeners)
           onCellExplored data)
  = [Called onCellExplored 0%nat data; Called onCellExplored 1%nat data;
     ConsoleError onCellExplored 7%nat; Called onCellExplored 2%nat data].
Proof. reflexivity. Qed.


Lemma explored_and_visited_only_grow_witness :
  exists g1 g2,
    run pi_value axis_cos axis_sin approx_sqrt 10 walking_game
      [DoUpdatePlayerPosition 1] = Some g1 /\
    run pi_value axis_cos axis_sin approx_sqrt 10 walking_game
      ([DoUpdatePlayerPosition 1] ++
       [DoSetMoveInput dir_down true; DoUpdatePlayerPosition 2]) = Some g2 /\
    incl (exploredCells g1) (exploredCells g2) /\
    incl (visitedCells g1) (visitedCells g2) /\
    (length (exploredCells g1) <= length (exploredCells g2))%nat.
Proof.
  apply (explored_and_visited_only_grow pi_value axis_cos axis_sin
    approx_sqrt 10
           walking_game [DoUpdatePlayerPosition 1]
           [DoSetMoveInput dir_down true; DoUpdatePlayerPosition 2]).
  split; [vm_compute; reflexivity | vm_compute; lia].
Defined.

Lemma move_is_atomic_witness :
  exists g',
    updatePlayerPosition pi_value axis_cos axis_sin approx_sqrt 10 1
      walking_game = Some (g', true) /\
    x (player g') == 105 /\ y (player g') == 100 /\
    prevX (player g') == 100 /\ prevY (player g') == 100.
Proof.
  destruct (move_is_atomic pi_value axis_cos axis_sin approx_sqrt 10 1
              walking_game) as [g' [moved [Hup _]]].
  - split; [vm_compute; reflexivity | vm_compute; lia].
  - vm_compute in Hup. injection Hup as <- <-.
    eexists. split; [vm_compute; reflexivity |].
    repeat split; reflexivity.
Defined.

Lemma idle_game_does_not_move_witness :
  updatePlayerPosition pi_value axis_cos axis_sin approx_sqrt 10 1
    (set_moveInput paused_game (mkMoveInput true false false true))
  = Some (set_moveInput paused_game (mkMoveInput true false false true), false).
Proof.
  apply (idle_game_does_not_move pi_value axis_cos axis_sin approx_sqrt 10 1
           paused_game (mkMoveInput true false false true)).
  right. left. reflexivity.
Defined.

(** ** Collision *)

Lemma hits_horizontal_iff (maze : Maze) (x y r cs : Q) (row col : Z) :
  hits_horizontal maze x y r cs row col = true <->
  seg_set maze (horizontal, row, col) = true /\
  seg_in_span cs x y (horizontal, row, col) /\
  seg_distance cs x y (horizontal, row, col) < r.
Proof.
  unfold hits_horizontal, seg_set, seg_in_span, seg_distance, JSNum.abs.
  cbv zeta. rewrite !andb_true_iff, lt_iff, !le_iff. tauto.
Qed.

Lemma hits_vertical_iff (maze : Maze) (x y r cs : Q) (row col : Z) :
  hits_vertical maze x y r cs row col = true <->
  seg_set maze (vertical, row, col) = true /\
  seg_in_span cs x y (vertical, row, col) /\
  seg_distance cs x y (vertical, row, col) < r.
Proof.
  unfold hits_vertical, seg_set, seg_in_span, seg_distance, JSNum.abs.
  cbv zeta. rewrite !andb_true_iff, lt_iff, !le_iff. tauto.
Qed.

Lemma In_offsets (d : Z) : In d [(-1)%Z; 0%Z; 1%Z] <-> (-1 <= d <= 1)%Z.
Proof. simpl. lia. Qed.

Lemma checkWallCollision_iff (maze : Maze) (x y r cs : Q) :
  checkWallCollision maze x y r cs = true <->
  exists s,
    seg_near cs x y s /\ seg_set maze s = true /\
    seg_in_span cs x y s /\ seg_distance cs x y s < r.
Proof.
  unfold checkWallCollision.
  set (cellX := JSNum.floor (x / cs)). set (cellY := JSNum.floor (y / cs)).
  split.
  - intros H. apply existsb_exists in H. destruct H as [dy [Hdy H]].
    apply existsb_exists in H. destruct H as [dx [Hdx H]].
    apply In_offsets in Hdy. apply In_offsets in Hdx.
    unfold check_cell in H. rewrite !orb_true_iff in H.
    destruct H as [[[H | H] | H] | H];
      [ apply hits_horizontal_iff in H;
        exists (horizontal, (cellY + dy)%Z, (cellX + dx)%Z)
      | apply hits_horizontal_iff in H;
        exists (horizontal, (cellY + dy + 1)%Z, (cellX + dx)%Z)
      | apply hits_vertical_iff in H;
        exists (vertical, (cellY + dy)%Z, (cellX + dx)%Z)
      | apply hits_vertical_iff in H;
        exists (vertical, (cellY + dy)%Z, (cellX + dx + 1)%Z) ];
      (split; [unfold seg_near; fold cellX cellY; lia | exact H]).
  - intros [[[o row] col] [Hnear Hs]].
    unfold seg_near in Hnear. fold cellX cellY in Hnear.
    destruct o.
    + apply hits_horizontal_iff in Hs. destruct Hnear as [Hrow Hcol].
      apply existsb_exists.
      destruct (Z.eq_dec row (cellY + 2)) as [E | E].
      * exists 1%Z. split; [apply In_offsets; lia |].
        apply existsb_exists. exists (col - cellX)%Z.
        split; [apply In_offsets; lia |].
        unfold check_cell.
        replace (cellX + (col - cellX))%Z with col by lia.
        replace (cellY + 1 + 1)%Z with row by lia.
        rewrite Hs. rewrite orb_true_r. reflexivity.
      * exists (row - cellY)%Z. split; [apply In_offsets; lia |].
        apply existsb_exists. exists (col - cellX)%Z.
        split; [apply In_offsets; lia |].
        unfold check_cell.
        replace (cellX + (col - cellX))%Z with col by lia.
        replace (cellY + (row - cellY))%Z with row by lia.
        rewrite Hs. reflexivity.
    + apply hits_vertical_iff in Hs. destruct Hnear as [Hrow Hcol].
      apply existsb_exists.
      exists (row - cellY)%Z. split; [apply In_offsets; lia |].
      apply existsb_exists.
      destruct (Z.eq_dec col (cellX + 2)) as [E | E].
      * exists 1%Z. split; [apply In_offsets; lia |].
        unfold check_cell.
        replace (cellY + (row - cellY))%Z with row by lia.
        replace (cellX + 1 + 1)%Z with col by lia.
        rewrite Hs. rewrite !orb_true_r. reflexivity.
      * exists (col - cellX)%Z. split; [apply In_offsets; lia |].
        unfold check_cell.
        replace (cellY + (row - cellY))%Z with row by lia.
        replace (cellX + (col - cellX))%Z with col by lia.
        rewrite Hs. rewrite !orb_true_r. reflexivity.
Qed.

(** C3, as amended.  For a candidate centre that keeps the radius margin
    to the sides of the maze, [canMoveTo] returns [false] if and only if
    some set wall segment among the sides of the 3x3 block of cells
    around it, whose span contains the candidate's coordinate along the
    wall, lies at a distance smaller than the radius from the centre. *)
Theorem collision_iff_some_near_segment (g : Game) (x y : Q) :
  within_bounds g x y ->
  (canMoveTo g x y = false <->
   exists s,
     seg_near (cellSize (gconfig g)) x y s /\
     seg_set (maze g) s = true /\
     seg_in_span (cellSize (gconfig g)) x y s /\
     seg_distance (cellSize (gconfig g)) x y s < radius (player g)).
Proof.
  unfold within_bounds. intros [B1 [B2 [B3 B4]]].
  unfold canMoveTo.
  apply lt_false_iff in B1, B2, B3, B4.
  rewrite B1, B2, B3, B4. cbn [orb].
  rewrite negb_false_iff. apply checkWallCollision_iff.
Qed.

Lemma collision_iff_some_near_segment_witness :
  canMoveTo (sample_game corner_maze 20 20
               (mkMoveInput false false false false) no_listeners) 20 35
  = false.
Proof.
  apply (collision_iff_some_near_segment
           (sample_game corner_maze 20 20
              (mkMoveInput false false false false) no_listeners) 20 35).
  - repeat split; vm_compute; discriminate.
  - exists (horizontal, 1%Z, 0%Z).
    split; [vm_compute; repeat split; discriminate |].
    split; [reflexivity |].
    split; [split; vm_compute; discriminate | vm_compute; reflexivity].
Defined.

(** C3, as stated, fails.  In the maze with a wall below and a wall to
    the right of cell (0, 0), the candidate [(20, 35)] with radius 8 is 20
    pixels from the right wall, which is set, near and spans the
    candidate; yet [canMoveTo] returns [false], for the wall below is 5
    pixels away. *)
Lemma other_segment_blocks :
  let g := sample_game corner_maze 20 20
             (mkMoveInput false false false false) no_listeners in
  let s := (vertical, 0%Z, 1%Z) in
  within_bounds g 20 35 /\
  seg_near 40 20 35 s /\ seg_set (maze g) s = true /\ seg_in_span 40 20 35 s /\
  seg_distance 40 20 35 s == 20 /\
  ~ (canMoveTo g 20 35 = false <-> seg_distance 40 20 35 s < radius (player g)).
Proof.
  cbv zeta.
  split; [repeat split; vm_compute; discriminate |].
  split; [vm_compute; repeat split; discriminate |].
  split; [reflexivity |].
  split; [split; vm_compute; discriminate |].
  split; [reflexivity |].
  intros [H _]. assert (Hd := H eq_refl). vm_compute in Hd. discriminate Hd.
Qed.
End GameFacts.

(** * Further properties *)

(** ** Walls and rays *)

Module MoreRayFacts.
Import Raycast Props More BasicFacts RaycastFacts.
Local Open Scope Q_scope.

Lemma floor_unique (q : Q) (n : Z) :
  inject_Z n <= q -> q < inject_Z (n + 1) -> Qfloor q = n.
Proof.
  intros Hlo Hhi.
  pose proof (Qfloor_le q) as Hf. pose proof (Qlt_floor q) as Hc.
  assert (H1 : (Qfloor q < n + 1)%Z).
  { rewrite Zlt_Qlt. eapply Qle_lt_trans; eassumption. }
  assert (H2 : (n < Qfloor q + 1)%Z).
  { rewrite Zlt_Qlt. eapply Qle_lt_trans; eassumption. }
  lia.
Qed.

Lemma div_lt_iff (u c t : Q) : 0 < c -> (u / c < t <-> u < t * c).
Proof.
  intros Hc. split; intros H.
  - assert (E : u == u / c * c) by (field; lra).
    rewrite E. apply Qmult_lt_compat_r; assumption.
  - apply Qlt_shift_div_r; assumption.
Qed.

Lemma lt_div_iff (u c t : Q) : 0 < c -> (t < u / c <-> t * c < u).
Proof.
  intros Hc. split; intros H.
  - assert (E : u == u / c * c) by (field; lra).
    rewrite E. apply Qmult_lt_compat_r; assumption.
  - apply Qlt_shift_div_l; assumption.
Qed.

(** The cell and the offset of a coordinate that lies [u] pixels into
    cell number [n]. *)
Lemma coordinate_in_cell (a cs u : Q) (n : Z) :
  0 < cs -> (0 <= n)%Z -> 0 <= u -> u < cs ->
  a == inject_Z n * cs + u ->
  JSNum.floor (a / cs) = n /\ JSNum.rem a cs / cs == u / cs.
Proof.
  intros Hcs Hn Hu0 Hu Ha.
  assert (Hn' : 0 <= inject_Z n).
  { change 0 with (inject_Z 0). rewrite <- Zle_Qle. exact Hn. }
  assert (Hlo : inject_Z n <= a / cs).
  { apply Qle_shift_div_l; [exact Hcs | rewrite Ha; lra]. }
  assert (Hhi : a / cs < inject_Z (n + 1)).
  { apply Qlt_shift_div_r; [exact Hcs |].
    rewrite inject_Z_plus. change (inject_Z 1) with 1. rewrite Ha. lra. }
  assert (Hfloor : Qfloor (a / cs) = n) by (apply floor_unique; assumption).
  split; [exact Hfloor |].
  unfold JSNum.rem, JSNum.trunc.
  assert (Hpos : Qle_bool 0 (a / cs) = true).
  { apply Qle_bool_iff. lra. }
  rewrite Hpos, Hfloor.
  assert (E : a - cs * inject_Z n == u) by (rewrite Ha; lra).
  rewrite E. reflexivity.
Qed.

(** X1.  A point that lies [u] pixels to the right and [v] pixels below
    the corner of a cell of the grid is in a wall exactly when it is in
    the band of a side that is walled: less than a tenth of the cell size
    from the top or the left side, or more than nine tenths from them,
    that is near the bottom or the right side. *)
Theorem point_in_wall_iff_in_band (maze : Maze) (cs x y u v : Q) (cx cy : Z) :
  0 < cs ->
  in_grid maze (cx, cy) ->
  0 <= u -> u < cs -> 0 <= v -> v < cs ->
  x == inject_Z cx * cs + u ->
  y == inject_Z cy * cs + v ->
  (isPointInWall x y maze cs = true <->
   (v < (1 # 10) * cs /\ getWall maze horizontal cy cx = true) \/
   ((9 # 10) * cs < v /\ getWall maze horizontal (cy + 1) cx = true) \/
   (u < (1 # 10) * cs /\ getWall maze vertical cy cx = true) \/
   ((9 # 10) * cs < u /\ getWall maze vertical cy (cx + 1) = true)).
Proof.
  intros Hcs Hgrid Hu0 Hu Hv0 Hv Hx Hy.
  destruct (coordinate_in_cell x cs u cx Hcs (proj1 (proj1 Hgrid)) Hu0 Hu Hx)
    as [Hfx Hrx].
  destruct (coordinate_in_cell y cs v cy Hcs (proj1 (proj2 Hgrid)) Hv0 Hv Hy)
    as [Hfy Hry].
  unfold isPointInWall. rewrite Hfx, Hfy.
  apply out_of_grid_false in Hgrid. rewrite Hgrid.
  assert (H1 : JSNum.lt (JSNum.rem y cs / cs) (1 # 10) = true
               <-> v < (1 # 10) * cs).
  { rewrite lt_iff, Hry. apply div_lt_iff. exact Hcs. }
  assert (H2 : JSNum.lt (9 # 10) (JSNum.rem y cs / cs) = true
               <-> (9 # 10) * cs < v).
  { rewrite lt_iff, Hry. apply lt_div_iff. exact Hcs. }
  assert (H3 : JSNum.lt (JSNum.rem x cs / cs) (1 # 10) = true
               <-> u < (1 # 10) * cs).
  { rewrite lt_iff, Hrx. apply div_lt_iff. exact Hcs. }
  assert (H4 : JSNum.lt (9 # 10) (JSNum.rem x cs / cs) = true
               <-> (9 # 10) * cs < u).
  { rewrite lt_iff, Hrx. apply lt_div_iff. exact Hcs. }
  destruct (JSNum.lt (JSNum.rem y cs / cs) (1 # 10)),
    (JSNum.lt (9 # 10) (JSNum.rem y cs / cs)),
    (JSNum.lt (JSNum.rem x cs / cs) (1 # 10)),
    (JSNum.lt (9 # 10) (JSNum.rem x cs / cs)),
    (getWall maze horizontal cy cx), (getWall maze horizontal (cy + 1) cx),
    (getWall maze vertical cy cx), (getWall maze vertical cy (cx + 1));
    simpl; intuition congruence.
Qed.

Lemma point_in_wall_iff_in_band_witness :
  isPointInWall 2 20 (open_maze 5 5) 40 = true.
Proof.
  apply (point_in_wall_iff_in_band (open_maze 5 5) 40 2 20 2 20 0 0).
  - reflexivity.
  - split; simpl; lia.
  - discriminate.
  - reflexivity.
  - discriminate.
  - reflexivity.
  - reflexivity.
  - reflexivity.
  - right. right. left. split; reflexivity.
Defined.


Section MarchPoints.
Variable maze : Maze.
Variables cellSize dirX dirY step maxDistance : Q.

Let go := march maze cellSize dirX dirY step maxDistance.

(** What a returned ray is made of: either nothing, or a first point one
    step further and the ray from there. *)
Lemma march_inv (fuel : nat) (cx cy d : Q) (pts : list Point) :
  go fuel cx cy d = Some pts ->
  pts = [] \/
  (JSNum.lt d maxDistance = true /\
   exists fuel' ps,
     fuel = S fuel' /\
     pts = mkPoint (cx + dirX * step) (cy + dirY * step) (d + step) :: ps /\
     isPointInWall (cx + dirX * step) (cy + dirY * step) maze cellSize
       = false /\
     go fuel' (cx + dirX * step) (cy + dirY * step) (d + step) = Some ps).
Proof.
  unfold go. rewrite march_unfold. intros H.
  destruct (JSNum.lt d maxDistance); [ | inversion H; auto].
  destruct fuel as [| fuel']; [discriminate H |].
  destruct (isPointInWall _ _ maze cellSize) eqn:Hwall; [inversion H; auto |].
  destruct (out_of_grid maze _) eqn:Hout.
  { apply isPointInWall_false_in_grid, out_of_grid_false in Hwall.
    congruence. }
  destruct (march _ _ _ _ _ _ fuel' _ _ _) as [ps |] eqn:Hrec;
    [ | discriminate H].
  inversion H. right. split; [reflexivity |].
  exists fuel', ps. auto.
Qed.


End MarchPoints.

Section RayPoints.
Variable Math_PI : Q.
Variables Math_cos Math_sin : Q -> Q.


End RayPoints.



(** ** The store of [Set] objects *)

Lemma store_set_length (st : Store) :
  forall l s, length (store_set st l s) = length st.
Proof.
  induction st as [| s0 st IH]; intros [| l] s; simpl; auto.
Qed.

Lemma store_get_set_same (st : Store) :
  forall l s, (l < length st)%nat -> store_get (store_set st l s) l = s.
Proof.
  unfold store_get.
  induction st as [| s0 st IH]; intros [| l] s Hl; simpl in *; try lia.
  - reflexivity.
  - apply IH. lia.
Qed.

Lemma store_set_In (st : Store) :
  forall l s s', In s' (store_set st l s) -> In s' st \/ s' = s.
Proof.
  induction st as [| s0 st IH]; intros [| l] s s' H; simpl in *; auto.
  - destruct H as [H | H]; auto.
  - destruct H as [H | H]; auto.
    destruct (IH _ _ _ H); auto.
Qed.

Lemma store_get_In (st : Store) (l : Loc) :
  In (store_get st l) st \/ store_get st l = [].
Proof.
  unfold store_get. destruct (nth_in_or_default l st []); auto.
Qed.

Lemma store_get_app (st : Store) (l : Loc) (s : CellSet) :
  (l < length st)%nat -> store_get (st ++ [s]) l = store_get st l.
Proof. intros Hl. unfold store_get. apply app_nth1. exact Hl. Qed.

Lemma set_add_In (s : CellSet) (a c : Cell) :
  In c (set_add s a) <-> In c s \/ c = a.
Proof.
  unfold set_add. destruct (set_has s a) eqn:Hhas.
  - apply set_has_In in Hhas. split; [auto |].
    intros [H | ->]; assumption.
  - rewrite in_app_iff. simpl. intuition.
Qed.

Lemma NoDup_snoc (A : Type) (l : list A) (a : A) :
  NoDup l -> ~ In a l -> NoDup (l ++ [a]).
Proof.
  induction l as [| b l IH]; simpl; intros Hnd Hin.
  - constructor; [intros [] | constructor].
  - inversion Hnd; subst. constructor.
    + rewrite in_app_iff. simpl. intuition.
    + apply IH; [assumption | intuition].
Qed.

Lemma set_add_NoDup (s : CellSet) (a : Cell) :
  NoDup s -> NoDup (set_add s a).
Proof.
  intros Hnd. unfold set_add. destruct (set_has s a) eqn:Hhas; [exact Hnd |].
  apply NoDup_snoc; [exact Hnd |].
  intros Hin. apply set_has_In in Hin. congruence.
Qed.

(** The cells that a loop over points adds to a [Set]. *)
Lemma fold_set_add_In (cellSize : Q) (pts : list Point) :
  forall s c,
    In c (fold_left
            (fun s point => set_add s (cell_of cellSize (px point) (py point)))
            pts s) <->
    In c s \/ exists p, In p pts /\ cell_of cellSize (px p) (py p) = c.
Proof.
  induction pts as [| p pts IH]; intros s c; simpl.
  - split; [auto | intros [H | [p [[] _]]]; exact H].
  - rewrite IH, set_add_In. split.
    + intros [[H | ->] | [q [Hq Hc]]]; eauto.
    + intros [H | [q [[<- | Hq] Hc]]]; eauto.
Qed.

Lemma fold_set_add_NoDup (cellSize : Q) (pts : list Point) :
  forall s,
    NoDup s ->
    NoDup (fold_left
             (fun s point =>
                set_add s (cell_of cellSize (px point) (py point)))
             pts s).
Proof.
  induction pts as [| p pts IH]; intros s Hnd; simpl; [exact Hnd |].
  apply IH, set_add_NoDup, Hnd.
Qed.

Section MoreUpdate.
Variable Math_PI : Q.
Variables Math_cos Math_sin : Q -> Q.
Variable fuel : nat.
Variable maze : Maze.
Variable cellSize : Q.

(** What the loop of [update] adds: points of the grid, and their cells,
    each once. *)
Lemma cast_rays_spec (cfg : RayConfig) (playerX playerY angleStep : Q) :
  forall idxs acc cs acc' cs',
    cast_rays Math_PI Math_cos Math_sin cfg fuel playerX playerY maze
      cellSize angleStep idxs acc cs = Some (acc', cs') ->
    exists new,
      acc' = acc ++ new /\
      (forall p, In p new ->
         in_grid maze (cell_of cellSize (px p) (py p))) /\
      (forall c,
         In c cs' <->
         In c cs \/
         exists p, In p new /\ cell_of cellSize (px p) (py p) = c) /\
      (NoDup cs -> NoDup cs').
Proof.
  induction idxs as [| i idxs IH]; intros acc cs acc' cs' H; simpl in H.
  - inversion H; subst. exists []. rewrite app_nil_r.
    split; [reflexivity |]. split; [intros p [] |]. split; [ | auto].
    intros c. split; [auto | intros [Hc | [p [[] _]]]; exact Hc].
  - destruct (castRay _ _ _ _ _ _ _ _ _) as [ray |] eqn:Hray;
      [ | discriminate H].
    destruct (IH _ _ _ _ H) as [new [Hacc [Hgrid [Hcells Hnd]]]].
    exists (ray ++ new). rewrite app_assoc. split; [exact Hacc |].
    unfold castRay in Hray.
    pose proof (march_in_grid _ _ _ _ _ _ _ _ _ _ _ Hray) as Hrg.
    split; [ | split].
    + intros p Hp. apply in_app_iff in Hp. destruct Hp; auto.
    + intros c. rewrite Hcells, fold_set_add_In. split.
      * intros [[Hc | [p [Hp Hc]]] | [p [Hp Hc]]]; auto;
          right; exists p; rewrite in_app_iff; auto.
      * intros [Hc | [p [Hp Hc]]]; auto.
        apply in_app_iff in Hp. destruct Hp; eauto.
    + intros Hcs. apply Hnd, fold_set_add_NoDup, Hcs.
Qed.

(** The state after a call that misses the cache. *)
Lemma update_miss (rs rs' : RaycastSystem) (playerX playerY : Q)
    (pts : list Point) :
  cache_get (cache rs) (cacheKey playerX playerY) = None ->
  update Math_PI Math_cos Math_sin fuel rs playerX playerY maze cellSize
    = Some (rs', pts) ->
  exists cs,
    visiblePoints rs' = pts /\
    visibleCells rs' = visibleCells rs /\
    store rs' =
      store_set (store_set (store rs) (visibleCells rs) [])
        (visibleCells rs) cs
      ++ [store_get
            (store_set (store_set (store rs) (visibleCells rs) [])
               (visibleCells rs) cs) (visibleCells rs)] /\
    (forall p, In p pts -> in_grid maze (cell_of cellSize (px p) (py p))) /\
    (forall c,
       In c cs <->
       In c (store_get (store_set (store rs) (visibleCells rs) [])
               (visibleCells rs)) \/
       exists p, In p pts /\ cell_of cellSize (px p) (py p) = c) /\
    (NoDup (store_get (store_set (store rs) (visibleCells rs) [])
              (visibleCells rs)) -> NoDup cs) /\
    In (cache rs')
      [cache_set (cache rs) (cacheKey playerX playerY)
         (mkEntry pts (length (store rs)));
       tl (cache_set (cache rs) (cacheKey playerX playerY)
             (mkEntry pts (length (store rs))))].
Proof.
  unfold update. intros Hmiss H. rewrite Hmiss in H.
  destruct (cast_rays _ _ _ _ _ _ _ _ _ _ _ _ _) as [[acc cs] |] eqn:Hc;
    [ | discriminate H].
  unfold store_alloc in H. inversion H; subst; clear H. simpl.
  apply cast_rays_spec in Hc. destruct Hc as [new [Hacc [Hg [Hcs Hnd]]]].
  simpl in Hacc. subst new. exists cs.
  rewrite !store_set_length.
  repeat (split; [first [reflexivity | assumption] |]).
  unfold cache_delete_first. destruct (100 <? _)%Z; simpl; auto.
Qed.

(** X4.  After a call of [update] that misses the cache, on a system
    whose [visibleCells] names a [Set] of the store, the visible cells are
    exactly the cells of the points returned, each listed once. *)
Theorem miss_cells_are_point_cells (rs rs' : RaycastSystem)
    (playerX playerY : Q) (pts : list Point) :
  (visibleCells rs < length (store rs))%nat ->
  cache_get (cache rs) (cacheKey playerX playerY) = None ->
  update Math_PI Math_cos Math_sin fuel rs playerX playerY maze cellSize
    = Some (rs', pts) ->
  NoDup (getVisibleCells rs') /\
  forall c,
    In c (getVisibleCells rs') <->
    exists p, In p pts /\ cell_of cellSize (px p) (py p) = c.
Proof.
  intros Hl Hmiss H.
  destruct (update_miss _ _ _ _ _ Hmiss H)
    as [cs [_ [Hvis [Hst [_ [Hcs [Hnd _]]]]]]].
  assert (Hget : getVisibleCells rs' = cs).
  { unfold getVisibleCells. rewrite Hst, Hvis.
    rewrite store_get_app by (rewrite !store_set_length; exact Hl).
    apply store_get_set_same. rewrite store_set_length. exact Hl. }
  rewrite (store_get_set_same _ _ _ Hl) in Hcs, Hnd. rewrite Hget. split.
  - apply Hnd. constructor.
  - intros c. rewrite Hcs. simpl. tauto.
Qed.

Lemma update_store_in_grid (rs rs' : RaycastSystem) (playerX playerY : Q)
    (pts : list Point) :
  store_in_grid maze (store rs) ->
  update Math_PI Math_cos Math_sin fuel rs playerX playerY maze cellSize
    = Some (rs', pts) ->
  store_in_grid maze (store rs').
Proof.
  intros Hin H.
  destruct (cache_get (cache rs) (cacheKey playerX playerY)) as [e |]
    eqn:Hget.
  - unfold update in H. rewrite Hget in H. inversion H; subst. exact Hin.
  - destruct (update_miss _ _ _ _ _ Hget H)
      as [cs [_ [_ [Hst [Hg [Hcs _]]]]]].
    assert (Hcleared : forall s c,
               In s (store_set (store rs) (visibleCells rs) []) ->
               In c s -> in_grid maze c).
    { intros s c Hs Hc. apply store_set_In in Hs.
      destruct Hs as [Hs | ->]; [exact (Hin s c Hs Hc) | destruct Hc]. }
    assert (Hnew : forall c, In c cs -> in_grid maze c).
    { intros c Hc. apply Hcs in Hc. destruct Hc as [Hc | [p [Hp <-]]].
      - destruct (store_get_In
                    (store_set (store rs) (visibleCells rs) [])
                    (visibleCells rs)) as [Hs | He].
        + exact (Hcleared _ c Hs Hc).
        + rewrite He in Hc. destruct Hc.
      - exact (Hg p Hp). }
    assert (Hset : forall s c,
               In s (store_set
                       (store_set (store rs) (visibleCells rs) [])
                       (visibleCells rs) cs) ->
               In c s -> in_grid maze c).
    { intros s c Hs Hc. apply store_set_In in Hs.
      destruct Hs as [Hs | ->]; [exact (Hcleared s c Hs Hc) | auto]. }
    rewrite Hst. intros s c Hs Hc. apply in_app_iff in Hs.
    destruct Hs as [Hs | [<- | []]]; [exact (Hset s c Hs Hc) |].
    match type of Hc with
    | In c (store_get ?st ?l) =>
        destruct (store_get_In st l) as [Hs | He]
    end.
    + exact (Hset _ c Hs Hc).
    + rewrite He in Hc. destruct Hc.
Qed.

(** X5.  Whatever positions [update] is called at on one maze, every
    [Set] that the system holds, the visible cells and those of the
    cache entries, has only cells of the grid; so a cell that
    [isCellVisible] reports lies in the grid. *)
Theorem visible_cells_stay_in_grid (positions : list (Q * Q)) :
  forall rs rs',
    store_in_grid maze (store rs) ->
    updates Math_PI Math_cos Math_sin fuel rs positions maze cellSize
      = Some rs' ->
    store_in_grid maze (store rs') /\
    forall cellX cellY,
      isCellVisible rs' cellX cellY = true -> in_grid maze (cellX, cellY).
Proof.
  induction positions as [| [x0 y0] positions IH]; intros rs rs' Hin Hrun;
    simpl in Hrun.
  - inversion Hrun; subst. split; [exact Hin |].
    intros cellX cellY Hv. unfold isCellVisible in Hv.
    apply set_has_In in Hv.
    destruct (store_get_In (store rs') (visibleCells rs')) as [Hs | He].
    + exact (Hin _ _ Hs Hv).
    + rewrite He in Hv. destruct Hv.
  - destruct (update _ _ _ _ _ _ _ _ _) as [[rs1 pts] |] eqn:Hup;
      [ | discriminate Hrun].
    exact (IH rs1 rs' (update_store_in_grid _ _ _ _ _ Hin Hup) Hrun).
Qed.

Lemma update_refs_valid (rs rs' : RaycastSystem) (playerX playerY : Q)
    (pts : list Point) :
  refs_valid rs ->
  update Math_PI Math_cos Math_sin fuel rs playerX playerY maze cellSize
    = Some (rs', pts) ->
  refs_valid rs'.
Proof.
  intros [Hl Hc] H.
  destruct (cache_get (cache rs) (cacheKey playerX playerY)) as [e |]
    eqn:Hget.
  - unfold update in H. rewrite Hget in H. inversion H; subst.
    split; simpl; [ | exact Hc].
    assert (Hin : exists k, In (k, e) (cache rs)).
    { clear - Hget. induction (cache rs) as [| [k' e'] c IH];
        simpl in Hget; [discriminate Hget |].
      destruct (key_eqb _ k').
      - inversion Hget; subst. exists k'. left. reflexivity.
      - destruct (IH Hget) as [k Hk]. exists k. right. exact Hk. }
    destruct Hin as [k Hk]. exact (Hc k e Hk).
  - destruct (update_miss _ _ _ _ _ Hget H)
      as [cs [_ [Hvis [Hst [_ [_ [_ Hcache]]]]]]].
    assert (Hlen : length (store rs') = S (length (store rs))).
    { rewrite Hst, length_app, !store_set_length. simpl. lia. }
    rewrite (cache_set_new _ _ _ Hget) in Hcache.
    split; [rewrite Hvis, Hlen; lia |].
    intros k e Hin. rewrite Hlen.
    assert (Hin' : In (k, e)
                     (cache rs ++
                      [(cacheKey playerX playerY,
                        mkEntry pts (length (store rs)))])).
    { destruct Hcache as [Hc1 | [Hc1 | []]]; rewrite <- Hc1 in Hin;
        [exact Hin |].
      destruct (cache rs ++ _); [destruct Hin | right; exact Hin]. }
    apply in_app_iff in Hin'. destruct Hin' as [Hin' | [He | []]].
    + specialize (Hc k e Hin'). lia.
    + inversion He; subst. simpl. lia.
Qed.

Lemma fifo_insert_length (keys : list Key) (k : Key) :
  (length keys <= 100)%nat -> (length (fifo_insert keys k) <= 100)%nat.
Proof.
  intros Hlen. unfold fifo_insert.
  destruct (100 <? _)%Z eqn:Hfull.
  - destruct keys as [| k0 keys]; simpl in *; [lia |].
    rewrite length_app in *. simpl in *. lia.
  - apply Z.ltb_ge in Hfull. lia.
Qed.

(** X6.  Three properties of the system that every call of [update]
    keeps, at any positions: the cache has at most 100 entries, its keys
    differ pairwise, and [visibleCells] and the [cells] of every cache
    entry name [Set] objects that exist. *)
Theorem updates_keep_cache_sound (positions : list (Q * Q)) :
  forall rs rs',
    (length (cache rs) <= 100)%nat ->
    NoDup (cache_keys (cache rs)) ->
    refs_valid rs ->
    updates Math_PI Math_cos Math_sin fuel rs positions maze cellSize
      = Some rs' ->
    (length (cache rs') <= 100)%nat /\
    NoDup (cache_keys (cache rs')) /\
    refs_valid rs'.
Proof.
  induction positions as [| [x0 y0] positions IH];
    intros rs rs' Hlen Hnd Hrefs Hrun; simpl in Hrun.
  - inversion Hrun; subst. auto.
  - destruct (update _ _ _ _ _ _ _ _ _) as [[rs1 pts] |] eqn:Hup;
      [ | discriminate Hrun].
    apply (IH rs1 rs'); [ | | | exact Hrun].
    + pose proof (update_cache_keys _ _ _ _ _ _ _ _ _ _ _ Hup) as Hkeys.
      apply (f_equal (@length Key)) in Hkeys.
      unfold cache_keys in Hkeys at 1. rewrite length_map in Hkeys.
      rewrite Hkeys.
      destruct (cache_get (cache rs) (cacheKey x0 y0)).
      * unfold cache_keys. rewrite length_map. exact Hlen.
      * apply fifo_insert_length. unfold cache_keys.
        rewrite length_map. exact Hlen.
    + exact (proj1 (update_keeps_entries _ _ _ _ _ _ _ _ _ _ _ Hnd Hup)).
    + exact (update_refs_valid _ _ _ _ _ Hrefs Hup).
Qed.
End MoreUpdate.

Lemma new_system_refs_valid (a b c d : option Q) :
  refs_valid (new_system a b c d).
Proof. split; simpl; [lia | intros k e []]. Qed.

Lemma store_in_grid_new (maze : Maze) (a b c d : option Q) :
  store_in_grid maze (store (new_system a b c d)).
Proof. intros s x [<- | []] []. Qed.

Lemma miss_cells_are_point_cells_witness :
  exists rs' pts,
    update pi_value axis_cos axis_sin 20 scenario_system 100 100
      (open_maze 5 5) 40 = Some (rs', pts) /\
    (In (2, 2)%Z (getVisibleCells rs') <->
     exists p, In p pts /\ cell_of 40 (px p) (py p) = (2, 2)%Z).
Proof.
  destruct (update pi_value axis_cos axis_sin 20 scenario_system 100 100
              (open_maze 5 5) 40) as [[rs' pts] |] eqn:Hup;
    [ | vm_compute in Hup; discriminate Hup].
  exists rs', pts. split; [reflexivity |].
  apply (miss_cells_are_point_cells pi_value axis_cos axis_sin 20
           (open_maze 5 5) 40 scenario_system rs' 100 100 pts).
  - simpl. lia.
  - reflexivity.
  - exact Hup.
Defined.

Lemma visible_cells_stay_in_grid_witness :
  exists rs',
    updates pi_value axis_cos axis_sin 20 scenario_system
      [(100, 100); (20, 20)] (open_maze 5 5) 40 = Some rs' /\
    isCellVisible rs' 0 0 = true /\
    in_grid (open_maze 5 5) (0, 0)%Z.
Proof.
  destruct (updates pi_value axis_cos axis_sin 20 scenario_system
              [(100, 100); (20, 20)] (open_maze 5 5) 40) as [rs' |] eqn:Hrun;
    [ | vm_compute in Hrun; discriminate Hrun].
  exists rs'. split; [reflexivity |].
  assert (Hv : isCellVisible rs' 0 0 = true).
  { vm_compute in Hrun. inversion Hrun; subst. vm_compute. reflexivity. }
  split; [exact Hv |].
  exact (proj2 (visible_cells_stay_in_grid pi_value axis_cos axis_sin 20
                  (open_maze 5 5) 40 [(100, 100); (20, 20)]
                  scenario_system rs'
                  (store_in_grid_new (open_maze 5 5) _ _ _ _) Hrun)
           0%Z 0%Z Hv).
Defined.

Lemma updates_keep_cache_sound_witness :
  exists rs',
    updates pi_value axis_cos axis_sin 20 scenario_system
      [(100, 100); (20, 20); (100, 100)] (open_maze 5 5) 40 = Some rs' /\
    (length (cache rs') <= 100)%nat /\
    NoDup (cache_keys (cache rs')) /\
    refs_valid rs'.
Proof.
  destruct (updates pi_value axis_cos axis_sin 20 scenario_system
              [(100, 100); (20, 20); (100, 100)] (open_maze 5 5) 40)
    as [rs' |] eqn:Hrun;
    [ | vm_compute in Hrun; discriminate Hrun].
  exists rs'. split; [reflexivity |].
  apply (updates_keep_cache_sound pi_value axis_cos axis_sin 20
           (open_maze 5 5) 40 [(100, 100); (20, 20); (100, 100)]
           scenario_system rs').
  - simpl. lia.
  - constructor.
  - apply new_system_refs_valid.
  - exact Hrun.
Defined.

(** ** Cache keys *)

Lemma toFixed1_close (a b : Q) :
  JSNum.toFixed1 a = JSNum.toFixed1 b -> Qabs (a - b) < 1 # 10.
Proof.
  unfold JSNum.toFixed1. intros H.
  pose proof (f_equal fst H) as Hneg. pose proof (f_equal snd H) as Hfl.
  cbv beta iota zeta delta [fst snd] in Hneg, Hfl. clear H.
  apply Qabs_Qlt_condition.
  match type of Hfl with
  | Qfloor ?u = Qfloor ?v =>
      pose proof (Qfloor_le u) as Hu1; pose proof (Qlt_floor u) as Hu2;
      pose proof (Qfloor_le v) as Hv1; pose proof (Qlt_floor v) as Hv2
  end.
  rewrite Hfl in Hu1, Hu2. rewrite inject_Z_plus in Hu2, Hv2.
  change (inject_Z 1) with 1 in Hu2, Hv2.
  destruct (JSNum.lt a 0), (JSNum.lt b 0); try discriminate Hneg;
    split; lra.
Qed.

(** X7.  Two positions with the same cache key differ by less than a
    tenth in each coordinate. *)
Theorem same_key_positions_close (x y x' y' : Q) :
  cacheKey x y = cacheKey x' y' ->
  Qabs (x - x') < 1 # 10 /\ Qabs (y - y') < 1 # 10.
Proof.
  unfold cacheKey. intros H.
  split; apply toFixed1_close;
    [exact (f_equal fst H) | exact (f_equal snd H)].
Qed.

Lemma same_key_positions_close_witness :
  Qabs ((2004 # 100) - 20) < 1 # 10 /\ Qabs ((1996 # 100) - 20) < 1 # 10.
Proof.
  apply (same_key_positions_close (2004 # 100) (1996 # 100) 20 20).
  reflexivity.
Defined.

(** ** Distances along a ray *)

Lemma march_distance (maze : Maze)
    (cellSize dirX dirY step maxDistance : Q) (fuel : nat) :
  forall cx cy d pts p,
    march maze cellSize dirX dirY step maxDistance fuel cx cy d = Some pts ->
    In p pts ->
    0 <= step ->
    d <= distance p - step /\ distance p - step < maxDistance.
Proof.
  induction fuel as [| fuel IH]; intros cx cy d pts p H Hp Hs;
    destruct (march_inv _ _ _ _ _ _ _ _ _ _ _ H)
      as [-> | [Hlt [fuel' [ps [Hf [-> [_ Hrec]]]]]]];
    try (destruct Hp; fail); try discriminate Hf.
  inversion Hf; subst fuel'. apply lt_iff in Hlt.
  destruct Hp as [<- | Hp].
  - simpl. split; lra.
  - destruct (IH _ _ _ _ _ Hrec Hp Hs). split; lra.
Qed.

Section MoreSetters.
Variable Math_PI : Q.
Variables Math_cos Math_sin : Q -> Q.
Variable fuel : nat.
Variable maze : Maze.
Variable cellSize : Q.

(** X8.  After [setMaxRayDistance] the next call of [update] casts its
    rays anew whatever was cached before, and within the new limit: every
    point it returns was reached from a distance below the clamped
    maximum; and the cache then holds the key of that call only. *)
Theorem setMaxRayDistance_limits_next_update (rs rs' : RaycastSystem)
    (dist playerX playerY : Q) (pts : list Point) :
  0 <= rayStep (config rs) * cellSize ->
  update Math_PI Math_cos Math_sin fuel (setMaxRayDistance rs dist)
    playerX playerY maze cellSize = Some (rs', pts) ->
  cache_keys (cache rs') = [cacheKey playerX playerY] /\
  forall p,
    In p pts ->
    distance p - rayStep (config rs) * cellSize
    < JSNum.max 1 (JSNum.min dist 20) * cellSize.
Proof.
  intros Hs H. split.
  - rewrite (update_cache_keys _ _ _ _ _ _ _ _ _ _ _ H). reflexivity.
  - unfold update in H. simpl in H.
    destruct (cast_rays _ _ _ _ _ _ _ _ _ _ _ _ _) as [[acc cs] |] eqn:Hc;
      [ | discriminate H].
    unfold store_alloc in H. inversion H; subst; clear H.
    assert (Hgen : forall idxs acc0 cs0 acc1 cs1 angleStep,
               cast_rays Math_PI Math_cos Math_sin
                 (config (setMaxRayDistance rs dist)) fuel playerX playerY
                 maze cellSize angleStep idxs acc0 cs0 = Some (acc1, cs1) ->
               forall p, In p acc1 ->
               In p acc0 \/
               distance p - rayStep (config rs) * cellSize
               < JSNum.max 1 (JSNum.min dist 20) * cellSize).
    { induction idxs as [| i idxs IH];
        intros acc0 cs0 acc1 cs1 angleStep Hl p Hp; simpl in Hl.
      - inversion Hl; subst. auto.
      - destruct (castRay _ _ _ _ _ _ _ _ _) as [ray |] eqn:Hray;
          [ | discriminate Hl].
        destruct (IH _ _ _ _ _ Hl p Hp) as [Hin | Hd]; [ | auto].
        apply in_app_iff in Hin. destruct Hin as [Hin | Hin]; [auto |].
        right. unfold castRay in Hray. simpl in Hray.
        exact (proj2 (march_distance _ _ _ _ _ _ _ _ _ _ _ _ Hray Hin Hs)). }
    intros p Hp.
    destruct (Hgen _ _ _ _ _ _ Hc p Hp) as [[] | Hd]. exact Hd.
Qed.
End MoreSetters.

Lemma setMaxRayDistance_limits_next_update_witness :
  exists rs' pts,
    update pi_value axis_cos axis_sin 20 (setMaxRayDistance scenario_system 1)
      100 100 (open_maze 5 5) 40 = Some (rs', pts) /\
    cache_keys (cache rs') = [cacheKey 100 100] /\
    forall p, In p pts -> distance p - (1 # 10) * 40 < 1 * 40.
Proof.
  destruct (update pi_value axis_cos axis_sin 20
              (setMaxRayDistance scenario_system 1) 100 100
              (open_maze 5 5) 40) as [[rs' pts] |] eqn:Hup;
    [ | vm_compute in Hup; discriminate Hup].
  exists rs', pts. split; [reflexivity |].
  apply (setMaxRayDistance_limits_next_update pi_value axis_cos axis_sin 20
           (open_maze 5 5) 40 scenario_system rs' 1 100 100 pts).
  - vm_compute. discriminate.
  - exact Hup.
Defined.

(** ** Visible points *)

Section MoreVisible.
Variable Math_PI : Q.
Variables Math_cos Math_sin Math_sqrt : Q -> Q.
Variable fuel : nat.
Variable maze : Maze.
Variable cellSize : Q.

(** X9.  With a square root that does not exceed the real one, after a
    call of [update] every position within half a cell of a returned
    point is reported by [isPointVisible], the returned points
    themselves among them. *)
Theorem returned_points_are_visible (rs rs' : RaycastSystem)
    (playerX playerY : Q) (pts : list Point) :
  sqrt_below Math_sqrt ->
  0 <= cellSize ->
  update Math_PI Math_cos Math_sin fuel rs playerX playerY maze cellSize
    = Some (rs', pts) ->
  forall p,
    In p pts ->
    (forall x y,
       (px p - x) * (px p - x) + (py p - y) * (py p - y)
       <= (cellSize * (1 # 2)) * (cellSize * (1 # 2)) ->
       isPointVisible Math_sqrt rs' x y cellSize = true) /\
    isPointVisible Math_sqrt rs' (px p) (py p) cellSize = true.
Proof.
  intros Hsqrt Hcs H p Hp.
  assert (Hvis : visiblePoints rs' = pts).
  { destruct (cache_get (cache rs) (cacheKey playerX playerY)) as [e |]
      eqn:Hget.
    - unfold update in H. rewrite Hget in H. inversion H; subst. reflexivity.
    - destruct (update_miss _ _ _ _ _ _ _ _ _ _ _ Hget H) as [cs [Hv _]].
      exact Hv. }
  assert (Hnear : forall x y,
             (px p - x) * (px p - x) + (py p - y) * (py p - y)
             <= (cellSize * (1 # 2)) * (cellSize * (1 # 2)) ->
             isPointVisible Math_sqrt rs' x y cellSize = true).
  { intros x y Hd. unfold isPointVisible. rewrite Hvis.
    apply existsb_exists. exists p. split; [exact Hp |].
    apply le_iff. apply Hsqrt; [lra | exact Hd]. }
  split; [exact Hnear |]. apply Hnear. nra.
Qed.

(** X10.  After a call of [update] that misses the cache, [getState]
    counts no more visible cells than visible points. *)
Theorem state_counts_cells_within_points (rs rs' : RaycastSystem)
    (playerX playerY : Q) (pts : list Point) :
  (visibleCells rs < length (store rs))%nat ->
  cache_get (cache rs) (cacheKey playerX playerY) = None ->
  update Math_PI Math_cos Math_sin fuel rs playerX playerY maze cellSize
    = Some (rs', pts) ->
  (st_visibleCells (getState rs') <= st_visiblePoints (getState rs'))%nat /\
  st_visiblePoints (getState rs') = length pts.
Proof.
  intros Hl Hmiss H.
  destruct (update_miss _ _ _ _ _ _ _ _ _ _ _ Hmiss H)
    as [cs [Hpts [Hvis [Hst [_ [Hcs [Hnd _]]]]]]].
  assert (Hget : store_get (store rs') (visibleCells rs') = cs).
  { rewrite Hst, Hvis.
    rewrite store_get_app by (rewrite !store_set_length; exact Hl).
    apply store_get_set_same. rewrite store_set_length. exact Hl. }
  rewrite (store_get_set_same _ _ _ Hl) in Hcs, Hnd.
  unfold getState. simpl. rewrite Hget, Hpts. split; [ | reflexivity].
  rewrite <- (length_map (fun q => cell_of cellSize (px q) (py q)) pts).
  apply NoDup_incl_length; [apply Hnd; constructor |].
  intros c Hc. apply Hcs in Hc. destruct Hc as [[] | [p [Hp <-]]].
  exact (in_map (fun q => cell_of cellSize (px q) (py q)) pts p Hp).
Qed.
End MoreVisible.

Lemma approx_sqrt_below : sqrt_below approx_sqrt.
Proof.
  intros a r Hr Ha. unfold approx_sqrt.
  apply Qle_shift_div_r; [reflexivity |].
  destruct (Z.le_gt_cases 0 (Qfloor (a * 1000000))) as [Hpos | Hneg].
  - pose proof (Z.sqrt_spec _ Hpos) as [Hlow _].
    pose proof (Z.sqrt_nonneg (Qfloor (a * 1000000))) as Hn.
    pose proof (Qfloor_le (a * 1000000)) as Hfl.
    set (n := Z.sqrt (Qfloor (a * 1000000))) in *.
    assert (Hq : inject_Z n * inject_Z n <= a * 1000000).
    { rewrite <- inject_Z_mult. eapply Qle_trans; [ | exact Hfl].
      rewrite <- Zle_Qle. exact Hlow. }
    assert (Hn' : 0 <= inject_Z n).
    { change 0 with (inject_Z 0). rewrite <- Zle_Qle. exact Hn. }
    nra.
  - rewrite Z.sqrt_neg by exact Hneg. change (inject_Z 0) with 0. lra.
Qed.

Lemma returned_points_are_visible_witness :
  exists rs' pts,
    update pi_value axis_cos axis_sin 20 scenario_system 100 100
      (open_maze 5 5) 40 = Some (rs', pts) /\
    In (mkPoint (1040 # 10) (1000 # 10) (40 # 10)) pts /\
    isPointVisible approx_sqrt rs' 110 110 40 = true.
Proof.
  destruct (update pi_value axis_cos axis_sin 20 scenario_system 100 100
              (open_maze 5 5) 40) as [[rs' pts] |] eqn:Hup;
    [ | vm_compute in Hup; discriminate Hup].
  exists rs', pts. split; [reflexivity |].
  assert (Hin : In (mkPoint (1040 # 10) (1000 # 10) (40 # 10)) pts).
  { vm_compute in Hup. inversion Hup; subst. left. reflexivity. }
  split; [exact Hin |].
  apply (proj1 (returned_points_are_visible pi_value axis_cos axis_sin
                  approx_sqrt 20 (open_maze 5 5) 40 scenario_system rs'
                  100 100 pts approx_sqrt_below ltac:(discriminate) Hup
                  (mkPoint (1040 # 10) (1000 # 10) (40 # 10)) Hin)).
  vm_compute. discriminate.
Defined.

Lemma state_counts_cells_within_points_witness :
  exists rs' pts,
    update pi_value axis_cos axis_sin 20 scenario_system 100 100
      (open_maze 5 5) 40 = Some (rs', pts) /\
    (st_visibleCells (getState rs') <= st_visiblePoints (getState rs'))%nat.
Proof.
  destruct (update pi_value axis_cos axis_sin 20 scenario_system 100 100
              (open_maze 5 5) 40) as [[rs' pts] |] eqn:Hup;
    [ | vm_compute in Hup; discriminate Hup].
  exists rs', pts. split; [reflexivity |].
  apply (state_counts_cells_within_points pi_value axis_cos axis_sin 20
           (open_maze 5 5) 40 scenario_system rs' 100 100 pts).
  - simpl. lia.
  - reflexivity.
  - exact Hup.
Defined.
End MoreRayFacts.

(** ** More of the game *)

Module MoreGameFacts.
Import Raycast GameCore Props More BasicFacts RaycastFacts GameFacts.
Import MoreRayFacts.
Local Open Scope Q_scope.

Lemma notify_app (event : EventName) (data : EventData)
    (callbacks more : list Callback) :
  forall index,
    notify event data (callbacks ++ more) index =
    notify event data callbacks index ++
    notify event data more (index + length callbacks).
Proof.
  induction callbacks as [| callback rest IH]; intros index; simpl.
  - rewrite Nat.add_0_r. reflexivity.
  - rewrite IH, <- Nat.add_succ_comm.
    destruct (callback data); reflexivity.
Qed.

(** X11.  A callback registered with [addEventListener] is called after
    the callbacks registered before it, at the next position, and its
    error is reported if it throws; the listeners of the other events
    are called as before. *)
Theorem added_listener_is_called_last (g : Game) (event : EventName)
    (callback : Callback) (data : EventData) :
  trace (triggerEvent (addEventListener g event callback) event data) =
    trace (triggerEvent g event data) ++
    Called event (length (listeners_of (eventListeners g) event)) data ::
    match callback data with
    | returns => []
    | throws error => [ConsoleError event error]
    end /\
  forall other,
    other <> event ->
    trace (triggerEvent (addEventListener g event callback) other data) =
    trace (triggerEvent g other data).
Proof.
  split.
  - unfold triggerEvent. cbn [trace set_trace].
    assert (Hl : listeners_of
                   (eventListeners (addEventListener g event callback)) event
                 = listeners_of (eventListeners g) event ++ [callback]).
    { destruct event; reflexivity. }
    rewrite Hl, notify_app, <- app_assoc. simpl.
    destruct (callback data); reflexivity.
  - intros other Hother. unfold triggerEvent. cbn [trace set_trace].
    assert (Hl : listeners_of
                   (eventListeners (addEventListener g event callback)) other
                 = listeners_of (eventListeners g) other).
    { destruct event, other; try reflexivity; contradiction Hother;
        reflexivity. }
    rewrite Hl. reflexivity.
Qed.

(** X12.  [togglePause] twice gives the game back. *)
Theorem togglePause_twice (g : Game) : togglePause (togglePause g) = g.
Proof.
  destruct g as [c s m p r e v i l t]. destruct s as [run pau over vic st en].
  unfold togglePause, set_state. cbn.
  destruct run, over; cbn; try reflexivity;
    rewrite negb_involutive; reflexivity.
Qed.

Section MoreInput.
Variable Math_sqrt : Q -> Q.

Ltac eval_tests :=
  repeat match goal with
  | |- context [Qeq_bool ?a 0] =>
      let v := eval vm_compute in (Qeq_bool a 0) in
      change (Qeq_bool a 0) with v
  end.

(** X13.  There is no candidate position exactly when the keys held
    cancel on both axes; then [updatePlayerPosition] returns [false] and
    leaves the game as it is. *)
Theorem no_candidate_iff_keys_cancel (g : Game) :
  (candidate Math_sqrt g = None <->
   up (moveInput g) = down (moveInput g) /\
   left (moveInput g) = right (moveInput g)) /\
  (candidate Math_sqrt g = None ->
   forall Math_PI Math_cos Math_sin fuel now,
     updatePlayerPosition Math_PI Math_cos Math_sin Math_sqrt fuel now g
     = Some (g, false)).
Proof.
  split.
  - unfold candidate. destruct (moveInput g) as [u d l r].
    cbn [up down left right].
    destruct u, d, l, r; eval_tests; cbn [andb];
      split; first [reflexivity | discriminate | intros [? ?]; discriminate
                   | auto].
  - intros Hnone Math_PI Math_cos Math_sin fuel now.
    unfold updatePlayerPosition. rewrite Hnone.
    destruct (negb _ || _ || _); reflexivity.
Qed.

(** X14.  When the keys held move along one axis only, and the square
    root of 1 is 1, the candidate is one [moveSpeed] from the player's
    position along that axis. *)
Theorem axis_move_is_one_speed (g : Game) :
  (forall a, a == 1 -> Math_sqrt a == 1) ->
  axis_x (moveInput g) * axis_y (moveInput g) == 0 ->
  ~ (axis_x (moveInput g) == 0 /\ axis_y (moveInput g) == 0) ->
  exists newX newY,
    candidate Math_sqrt g = Some (newX, newY) /\
    newX == x (player g) + axis_x (moveInput g) * moveSpeed (gconfig g) /\
    newY == y (player g) + axis_y (moveInput g) * moveSpeed (gconfig g).
Proof.
  intros Hsqrt Hprod Hsome. unfold candidate.
  unfold axis_x, axis_y in *.
  destruct (moveInput g) as [u d l r]. cbn [up down left right] in *.
  destruct u, d, l, r; eval_tests; cbn [andb];
    try (exfalso; apply Hsome; split; reflexivity);
    try (exfalso; vm_compute in Hprod; discriminate Hprod);
    match goal with
    | |- context [Math_sqrt ?a] =>
        assert (HL : Math_sqrt a == 1) by (apply Hsqrt; reflexivity);
        set (L := Math_sqrt a) in *
    end;
    assert (Hpos : JSNum.lt 0 L = true) by (apply lt_iff; lra);
    rewrite Hpos; eexists; eexists; (split; [reflexivity |]);
    rewrite HL; split; field.
Qed.
End MoreInput.

Lemma approx_sqrt_one (a : Q) : a == 1 -> approx_sqrt a == 1.
Proof. intros Ha. unfold approx_sqrt. rewrite Ha. reflexivity. Qed.

Lemma axis_move_is_one_speed_witness :
  exists newX newY,
    candidate approx_sqrt walking_game = Some (newX, newY) /\
    newX == 105 /\ newY == 100.
Proof.
  destruct (axis_move_is_one_speed approx_sqrt walking_game approx_sqrt_one)
    as [newX [newY [Hc [Hx Hy]]]].
  - reflexivity.
  - intros [Hx _]. vm_compute in Hx. discriminate Hx.
  - exists newX, newY. split; [exact Hc |].
    split; [rewrite Hx | rewrite Hy]; reflexivity.
Defined.

Lemma added_listener_is_called_last_witness :
  trace (triggerEvent
           (addEventListener walking_game onMove (fun _ => throws 3%nat))
           onVictory (GameOverData 0))
  = trace (triggerEvent walking_game onVictory (GameOverData 0)).
Proof.
  apply (added_listener_is_called_last walking_game onMove
           (fun _ => throws 3%nat) (GameOverData 0)).
  discriminate.
Defined.

Lemma no_candidate_iff_keys_cancel_witness :
  candidate approx_sqrt
    (set_moveInput walking_game (mkMoveInput true true false false)) = None.
Proof.
  apply (no_candidate_iff_keys_cancel approx_sqrt
           (set_moveInput walking_game (mkMoveInput true true false false))).
  split; reflexivity.
Defined.

Section MoreLib.
Variable Math_PI : Q.
Variables Math_cos Math_sin Math_sqrt : Q -> Q.
Variable fuel : nat.

Let updateVisibility := updateVisibility Math_PI Math_cos Math_sin fuel.
Let updatePlayerPosition :=
  updatePlayerPosition Math_PI Math_cos Math_sin Math_sqrt fuel.
Let candidate := candidate Math_sqrt.
Let step := step Math_PI Math_cos Math_sin Math_sqrt fuel.
Let run := run Math_PI Math_cos Math_sin Math_sqrt fuel.

(** The two ways a call of [updatePlayerPosition] that returns ends. *)
Lemma updatePlayerPosition_inv (now : Z) (g g' : Game) (moved : bool) :
  updatePlayerPosition now g = Some (g', moved) ->
  (moved = false /\ g' = g) \/
  (moved = true /\ playing g = true /\
   exists newX newY gv,
     candidate g = Some (newX, newY) /\
     canMoveTo g newX newY = true /\
     updateVisibility (moved_to g newX newY) = Some gv /\
     (g' = gv \/ g' = victory now gv)).
Proof.
  unfold updatePlayerPosition, GameCore.updatePlayerPosition.
  rewrite not_playing. destruct (playing g) eqn:Hplay; cbn [negb].
  2:{ intros H. inversion H. auto. }
  fold candidate. destruct (candidate g) as [[newX newY] |] eqn:Hcand.
  2:{ intros H. inversion H. auto. }
  destruct (canMoveTo g newX newY) eqn:Hcan.
  2:{ intros H. inversion H. auto. }
  destruct (GameCore.updateVisibility _ _ _ _ _) as [gv |] eqn:Hvis.
  2:{ intros H. discriminate H. }
  destruct (getEnd (maze gv)) as [ex ey].
  intros H. right. inversion H as [[Hg Hm]].
  split; [reflexivity |]. split; [reflexivity |].
  exists newX, newY, gv. split; [reflexivity |]. split; [exact Hcan |].
  split; [exact Hvis |].
  destruct (JSNum.lt _ _); auto.
Qed.

(** What a step leaves alone: the configuration but for the view mode,
    the maze and the player's radius. *)
Lemma step_frame (g g' : Game) (a : Action) :
  step g a = Some g' ->
  mazeSize (gconfig g') = mazeSize (gconfig g) /\
  cellSize (gconfig g') = cellSize (gconfig g) /\
  maze g' = maze g /\
  radius (player g') = radius (player g).
Proof.
  destruct a as [direction pressed | now | now | | now | mode | event callback];
    simpl; intros H.
  - inversion H; subst. destruct direction; auto.
  - destruct (GameCore.updatePlayerPosition _ _ _ _ _ now g)
      as [[g1 moved] |] eqn:Hup; [ | discriminate H].
    inversion H; subst g1.
    destruct (updatePlayerPosition_inv now g g' moved Hup)
      as [[_ ->] | [_ [_ [newX [newY [gv [_ [_ [Hvis Hend]]]]]]]]]; [auto |].
    destruct (updateVisibility_spec _ _ _ _ _ _ Hvis)
      as [[K1 [K2 [K3 [K4 _]]]] _].
    destruct Hend as [-> | ->]; cbn [victory triggerEvent set_trace
      set_state gconfig maze player]; rewrite K1, K3, K4; auto.
  - inversion H; subst. unfold start.
    destruct (isRunning (state g)); auto.
  - inversion H; subst. unfold togglePause.
    destruct (negb (isRunning (state g)) || isGameOver (state g)); auto.
  - inversion H; subst. auto.
  - unfold setViewMode in H.
    destruct (updateVisibility_spec _ _ _ _ _ _ H)
      as [[K1 [K2 [K3 [K4 _]]]] _].
    rewrite K1, K3, K4. auto.
  - inversion H; subst. auto.
Qed.

Lemma victory_flags (now : Z) (g : Game) :
  flags_consistent (state (victory now g)).
Proof.
  unfold flags_consistent. cbn.
  repeat split; try discriminate; auto.
Qed.

(** X15.  The flags of the state stay consistent through every action:
    a game that is over is not running and has an end time, a victory is
    a game that is over, and a running game has a start time. *)
Theorem flags_stay_consistent (actions : list Action) :
  forall g g',
    flags_consistent (state g) ->
    run g actions = Some g' ->
    flags_consistent (state g').
Proof.
  induction actions as [| a actions IH]; intros g g' Hf Hrun; simpl in Hrun.
  - inversion Hrun; subst. exact Hf.
  - destruct (GameCore.step _ _ _ _ _ g a) as [g1 |] eqn:Hstep;
      [ | discriminate Hrun].
    apply (IH g1 g'); [ | exact Hrun]. clear Hrun IH.
    destruct a as [direction pressed | now | now | | now | mode
                  | event callback]; simpl in Hstep.
    + inversion Hstep; subst. destruct direction; exact Hf.
    + destruct (GameCore.updatePlayerPosition _ _ _ _ _ now g)
        as [[g2 moved] |] eqn:Hup; [ | discriminate Hstep].
      inversion Hstep; subst g2.
      destruct (updatePlayerPosition_inv now g g1 moved Hup)
        as [[_ ->] | [_ [_ [newX [newY [gv [_ [_ [Hvis Hend]]]]]]]]];
        [exact Hf |].
      destruct (updateVisibility_spec _ _ _ _ _ _ Hvis)
        as [[_ [K2 _]] _].
      destruct Hend as [-> | ->]; [ | apply victory_flags].
      rewrite K2. exact Hf.
    + inversion Hstep; subst. unfold start.
      destruct (isRunning (state g)) eqn:Hr; [exact Hf |].
      unfold flags_consistent. cbn.
      repeat split; try discriminate.
    + inversion Hstep; subst. unfold togglePause.
      destruct (negb (isRunning (state g)) || isGameOver (state g));
        exact Hf.
    + inversion Hstep; subst. unfold flags_consistent. cbn.
      repeat split; try discriminate; auto.
    + unfold setViewMode in Hstep.
      destruct (updateVisibility_spec _ _ _ _ _ _ Hstep)
        as [[_ [K2 _]] _].
      rewrite K2. exact Hf.
    + inversion Hstep; subst. exact Hf.
Qed.

Lemma fold_set_add_cells (cells : list Cell) :
  forall s c, In c (fold_left set_add cells s) <-> In c s \/ In c cells.
Proof.
  induction cells as [| cell cells IH]; intros s c; simpl.
  - tauto.
  - rewrite IH, set_add_In. split.
    + intros [[H | ->] | H]; auto.
    + intros [H | [<- | H]]; auto.
Qed.

Lemma fold_set_add_cells_NoDup (cells : list Cell) :
  forall s, NoDup s -> NoDup (fold_left set_add cells s).
Proof.
  induction cells as [| cell cells IH]; intros s Hnd; simpl; [exact Hnd |].
  apply IH, set_add_NoDup, Hnd.
Qed.

(** What [updateVisibility] does with a ray caster in place. *)
Lemma updateVisibility_inv (g g' : Game) (rs' : RaycastSystem) :
  updateVisibility g = Some g' ->
  raycastSystem g' = Some rs' ->
  exists rs pts,
    raycastSystem g = Some rs /\
    update Math_PI Math_cos Math_sin fuel rs (x (player g)) (y (player g))
      (maze g) (cellSize (gconfig g)) = Some (rs', pts) /\
    g' = fold_left explore (getVisibleCells rs')
           (set_raycastSystem g (Some rs')).
Proof.
  unfold updateVisibility, GameCore.updateVisibility. intros H Hrs.
  destruct (raycastSystem g) as [rs |] eqn:Hg.
  - destruct (update _ _ _ _ _ _ _ _ _) as [[rs1 pts] |] eqn:Hup;
      [ | discriminate H].
    inversion H; subst g'; clear H.
    destruct (fold_explore_kept (getVisibleCells rs1)
                (set_raycastSystem g (Some rs1))) as [_ Hr].
    rewrite Hr in Hrs. simpl in Hrs. inversion Hrs; subst rs1.
    exists rs, pts. auto.
  - inversion H; subst g'. congruence.
Qed.

(** X16.  After [updateVisibility] a cell is explored exactly when it
    was explored before or the ray caster now reports it visible. *)
Theorem explored_is_old_or_visible (g g' : Game) (rs' : RaycastSystem) :
  updateVisibility g = Some g' ->
  raycastSystem g' = Some rs' ->
  forall cellX cellY,
    isCellExplored g' cellX cellY =
    isCellExplored g cellX cellY || isCellVisible rs' cellX cellY.
Proof.
  intros H Hrs cellX cellY.
  destruct (updateVisibility_inv g g' rs' H Hrs) as [rs [pts [_ [_ ->]]]].
  unfold isCellExplored, isCellVisible.
  rewrite fold_explore_explored. cbn [exploredCells set_raycastSystem].
  apply eq_true_iff_eq.
  rewrite orb_true_iff, !set_has_In. apply fold_set_add_cells.
Qed.





(** ** Invariants of a run *)

Lemma run_invariant (P : Game -> Prop) :
  (forall g g' a, P g -> step g a = Some g' -> P g') ->
  forall actions g g', P g -> run g actions = Some g' -> P g'.
Proof.
  intros Hstep. induction actions as [| a actions IH]; intros g g' Hp Hrun;
    simpl in Hrun.
  - inversion Hrun; subst. exact Hp.
  - destruct (GameCore.step _ _ _ _ _ g a) as [g1 |] eqn:Hs;
      [ | discriminate Hrun].
    exact (IH g1 g' (Hstep g g1 a Hp Hs) Hrun).
Qed.

(** What a step does to the player and the visited cells: nothing, or
    an admitted candidate becomes the position and its cell is visited. *)
Lemma step_player (g g' : Game) (a : Action) :
  step g a = Some g' ->
  (player g' = player g /\ visitedCells g' = visitedCells g) \/
  (exists newX newY,
     canMoveTo g newX newY = true /\
     player g' =
       mkPlayer newX newY (x (player g)) (y (player g)) (radius (player g)) /\
     visitedCells g' =
       set_add (visitedCells g) (cell_of (cellSize (gconfig g)) newX newY)).
Proof.
  destruct a as [direction pressed | now | now | | now | mode | event callback];
    simpl; intros H.
  - inversion H; subst. left. destruct direction; auto.
  - destruct (GameCore.updatePlayerPosition _ _ _ _ _ now g)
      as [[g1 moved] |] eqn:Hup; [ | discriminate H].
    inversion H; subst g1.
    destruct (updatePlayerPosition_inv now g g' moved Hup)
      as [[_ ->] | [_ [_ [newX [newY [gv [_ [Hcan [Hvis Hend]]]]]]]]];
      [auto |].
    destruct (updateVisibility_spec _ _ _ _ _ _ Hvis)
      as [[_ [_ [_ [K4 [K5 _]]]]] _].
    right. exists newX, newY. split; [exact Hcan |].
    destruct Hend as [-> | ->]; cbn [victory triggerEvent set_trace
      set_state player visitedCells]; rewrite K4, K5; auto.
  - inversion H; subst. left. unfold start.
    destruct (isRunning (state g)); auto.
  - inversion H; subst. left. unfold togglePause.
    destruct (negb (isRunning (state g)) || isGameOver (state g)); auto.
  - inversion H; subst. auto.
  - unfold setViewMode in H.
    destruct (updateVisibility_spec _ _ _ _ _ _ H)
      as [[_ [_ [_ [K4 [K5 _]]]]] _].
    left. rewrite K4, K5. auto.
  - inversion H; subst. auto.
Qed.

Lemma canMoveTo_frame (g g' : Game) (px py : Q) :
  mazeSize (gconfig g') = mazeSize (gconfig g) ->
  cellSize (gconfig g') = cellSize (gconfig g) ->
  maze g' = maze g ->
  radius (player g') = radius (player g) ->
  canMoveTo g' px py = canMoveTo g px py.
Proof. unfold canMoveTo. intros -> -> -> ->. reflexivity. Qed.

Lemma step_admissible (g g' : Game) (a : Action) :
  admissible g -> step g a = Some g' -> admissible g'.
Proof.
  unfold admissible. intros Hadm Hstep.
  destruct (step_frame g g' a Hstep) as [F1 [F2 [F3 F4]]].
  rewrite (canMoveTo_frame g g' _ _ F1 F2 F3 F4).
  destruct (step_player g g' a Hstep)
    as [[-> _] | [newX [newY [Hcan [-> _]]]]]; [exact Hadm | exact Hcan].
Qed.

(** X18.  From a position that [canMoveTo] admits, whatever is done to
    the game the player stays at such a position: the centre keeps the
    radius margin to the sides of the maze and collides with no wall. *)
Theorem player_stays_clear_of_walls (actions : list Action) (g g' : Game) :
  admissible g ->
  run g actions = Some g' ->
  within_bounds g' (x (player g')) (y (player g')) /\
  checkWallCollision (maze g') (x (player g')) (y (player g'))
    (radius (player g')) (cellSize (gconfig g')) = false.
Proof.
  intros Hadm Hrun.
  pose proof (run_invariant admissible step_admissible actions g g'
                Hadm Hrun) as H.
  unfold admissible, canMoveTo in H. unfold within_bounds.
  destruct (JSNum.lt (x (player g') - radius (player g')) 0) eqn:B1;
    [discriminate H |].
  destruct (JSNum.lt _ (x (player g') + radius (player g'))) eqn:B2;
    [discriminate H |].
  destruct (JSNum.lt (y (player g') - radius (player g')) 0) eqn:B3;
    [discriminate H |].
  destruct (JSNum.lt _ (y (player g') + radius (player g'))) eqn:B4;
    [discriminate H |].
  cbn [orb] in H. apply negb_true_iff in H.
  apply lt_false_iff in B1, B2, B3, B4. auto.
Qed.

Lemma step_player_cell (g g' : Game) (a : Action) :
  In (player_cell g) (visitedCells g) ->
  step g a = Some g' ->
  In (player_cell g') (visitedCells g').
Proof.
  unfold player_cell. intros Hin Hstep.
  destruct (step_frame g g' a Hstep) as [_ [F2 _]]. rewrite F2.
  destruct (step_player g g' a Hstep)
    as [[-> ->] | [newX [newY [_ [-> ->]]]]]; [exact Hin |].
  apply set_add_In. right. reflexivity.
Qed.

(** X19.  Once the cell under the player is among the visited cells, it
    is so after every action: each accepted move visits the cell it
    arrives in. *)
Theorem player_cell_is_visited (actions : list Action) (g g' : Game) :
  In (player_cell g) (visitedCells g) ->
  run g actions = Some g' ->
  isCellVisited g' (fst (player_cell g')) (snd (player_cell g')) = true.
Proof.
  intros Hin Hrun. unfold isCellVisited. apply set_has_In.
  rewrite <- surjective_pairing.
  exact (run_invariant (fun g => In (player_cell g) (visitedCells g))
           step_player_cell actions g g' Hin Hrun).
Qed.

Lemma explored_in_grid_frame (g g' : Game) :
  exploredCells g' = exploredCells g ->
  maze g' = maze g ->
  raycastSystem g' = raycastSystem g ->
  explored_in_grid g -> explored_in_grid g'.
Proof. unfold explored_in_grid. intros -> -> ->. auto. Qed.

Lemma updateVisibility_explored_in_grid (g g' : Game) :
  explored_in_grid g ->
  updateVisibility g = Some g' ->
  explored_in_grid g'.
Proof.
  unfold updateVisibility, GameCore.updateVisibility.
  intros [Hnd [Hin Hst]] H.
  destruct (raycastSystem g) as [rs |] eqn:Hg.
  - destruct (update _ _ _ _ _ _ _ _ _) as [[rs1 pts] |] eqn:Hup;
      [ | discriminate H].
    inversion H; subst g'; clear H.
    destruct (fold_explore_kept (getVisibleCells rs1)
                (set_raycastSystem g (Some rs1)))
      as [[_ [_ [Hm _]]] Hr].
    pose proof (update_store_in_grid _ _ _ _ _ _ _ _ _ _ _ Hst Hup) as Hst1.
    unfold explored_in_grid.
    rewrite fold_explore_explored, Hm, Hr.
    cbn [exploredCells maze raycastSystem set_raycastSystem].
    split; [apply fold_set_add_cells_NoDup, Hnd |].
    split; [ | exact Hst1].
    intros c Hc. apply fold_set_add_cells in Hc.
    destruct Hc as [Hc | Hc]; [exact (Hin c Hc) |].
    unfold getVisibleCells in Hc.
    destruct (store_get_In (store rs1) (visibleCells rs1)) as [Hs | He].
    + exact (Hst1 _ c Hs Hc).
    + rewrite He in Hc. destruct Hc.
  - inversion H; subst g'. unfold explored_in_grid. rewrite Hg. auto.
Qed.

Lemma step_explored_in_grid (g g' : Game) (a : Action) :
  explored_in_grid g -> step g a = Some g' -> explored_in_grid g'.
Proof.
  intros Hin.
  destruct a as [direction pressed | now | now | | now | mode | event callback];
    simpl; intros H.
  - inversion H; subst. destruct direction; exact Hin.
  - destruct (GameCore.updatePlayerPosition _ _ _ _ _ now g)
      as [[g1 moved] |] eqn:Hup; [ | discriminate H].
    inversion H; subst g1.
    destruct (updatePlayerPosition_inv now g g' moved Hup)
      as [[_ ->] | [_ [_ [newX [newY [gv [_ [_ [Hvis Hend]]]]]]]]];
      [exact Hin |].
    assert (Hgv : explored_in_grid gv).
    { apply (updateVisibility_explored_in_grid (moved_to g newX newY));
        [ | exact Hvis].
      exact (explored_in_grid_frame g (moved_to g newX newY)
               eq_refl eq_refl eq_refl Hin). }
    destruct Hend as [-> | ->]; [exact Hgv |].
    exact (explored_in_grid_frame gv (victory now gv)
             eq_refl eq_refl eq_refl Hgv).
  - inversion H; subst. unfold start.
    destruct (isRunning (state g)); exact Hin.
  - inversion H; subst. unfold togglePause.
    destruct (negb (isRunning (state g)) || isGameOver (state g));
      exact Hin.
  - inversion H; subst. exact Hin.
  - unfold setViewMode in H.
    refine (updateVisibility_explored_in_grid _ g' _ H).
    exact Hin.
  - inversion H; subst. exact Hin.
Qed.

Lemma step_square_maze (g g' : Game) (a : Action) :
  square_maze g /\ (0 < mazeSize (gconfig g))%Z ->
  step g a = Some g' ->
  square_maze g' /\ (0 < mazeSize (gconfig g'))%Z.
Proof.
  unfold square_maze. intros Hsq Hstep.
  destruct (step_frame g g' a Hstep) as [F1 [_ [F3 _]]].
  rewrite F1, F3. exact Hsq.
Qed.
End MoreLib.

Lemma In_grid_cells (n : Z) (c : Cell) :
  (0 <= fst c < n)%Z -> (0 <= snd c < n)%Z -> In c (grid_cells n).
Proof.
  intros H1 H2. destruct c as [a b]. simpl in *. unfold grid_cells.
  apply in_prod; apply in_map_iff.
  - exists (Z.to_nat a). split; [lia |]. apply in_seq. lia.
  - exists (Z.to_nat b). split; [lia |]. apply in_seq. lia.
Qed.

(** No more distinct cells than the grid has. *)
Lemma cells_in_grid_count (n : Z) (cells : list Cell) :
  (0 <= n)%Z ->
  NoDup cells ->
  (forall c, In c cells -> (0 <= fst c < n)%Z /\ (0 <= snd c < n)%Z) ->
  (Z.of_nat (length cells) <= n * n)%Z.
Proof.
  intros Hn Hnd Hin.
  assert (Hlen : (length cells <= length (grid_cells n))%nat).
  { apply NoDup_incl_length; [exact Hnd |].
    intros c Hc. destruct (Hin c Hc). apply In_grid_cells; assumption. }
  unfold grid_cells, Cell in Hlen.
  rewrite length_prod, length_map, length_seq in Hlen.
  apply Nat2Z.inj_le in Hlen.
  rewrite Nat2Z.inj_mul, Z2Nat.id in Hlen by exact Hn. exact Hlen.
Qed.

Lemma rate_within_100 (k t : Z) :
  (0 <= k <= t)%Z -> (0 < t)%Z ->
  (0 <= Math_round (inject_Z k / inject_Z t * 100) <= 100)%Z.
Proof.
  intros Hk Ht. unfold Math_round.
  assert (Ht' : 0 < inject_Z t).
  { change 0 with (inject_Z 0). rewrite <- Zlt_Qlt. exact Ht. }
  assert (Hk0 : 0 <= inject_Z k).
  { change 0 with (inject_Z 0). rewrite <- Zle_Qle. lia. }
  assert (Hkt : inject_Z k <= inject_Z t) by (rewrite <- Zle_Qle; lia).
  assert (Hlo : 0 <= inject_Z k / inject_Z t).
  { apply Qle_shift_div_l; [exact Ht' | lra]. }
  assert (Hhi : inject_Z k / inject_Z t <= 1).
  { apply Qle_shift_div_r; [exact Ht' | lra]. }
  split.
  - apply (Qfloor_resp_le 0). lra.
  - apply (fun q H => Qfloor_resp_le q (201 # 2) H). lra.
Qed.

Section MoreStats.
Variable Math_PI : Q.
Variables Math_cos Math_sin Math_sqrt : Q -> Q.
Variable fuel : nat.

(** X20.  In a square maze of the announced size, once the explored
    cells are distinct cells of the grid and the ray caster holds cells
    of the grid only, they are so after every action, and [getStats]
    reports no more explored cells than the maze has and an exploration
    rate from 0 to 100. *)
Theorem stats_stay_within_maze (actions : list Action) (g g' : Game) :
  explored_in_grid g ->
  square_maze g ->
  (0 < mazeSize (gconfig g))%Z ->
  run Math_PI Math_cos Math_sin Math_sqrt fuel g actions = Some g' ->
  explored_in_grid g' /\
  (Z.of_nat (explored (getStats g')) <= total (getStats g'))%Z /\
  (0 <= exploreRate (getStats g') <= 100)%Z.
Proof.
  intros Hin Hsq Hpos Hrun.
  pose proof (run_invariant Math_PI Math_cos Math_sin Math_sqrt fuel
                explored_in_grid
                (step_explored_in_grid Math_PI Math_cos Math_sin Math_sqrt
                   fuel)
                actions g g' Hin Hrun) as Hin'.
  pose proof (run_invariant Math_PI Math_cos Math_sin Math_sqrt fuel
                (fun g => square_maze g /\ (0 < mazeSize (gconfig g))%Z)
                (step_square_maze Math_PI Math_cos Math_sin Math_sqrt fuel)
                actions g g' (conj Hsq Hpos) Hrun) as [[Hw Hh] Hpos'].
  split; [exact Hin' |].
  destruct Hin' as [Hnd [Hcells _]].
  assert (Hcount : (Z.of_nat (length (exploredCells g'))
                    <= mazeSize (gconfig g') * mazeSize (gconfig g'))%Z).
  { apply cells_in_grid_count; [lia | exact Hnd |].
    intros c Hc. specialize (Hcells c Hc). unfold in_grid in Hcells.
    rewrite Hw, Hh in Hcells. exact Hcells. }
  unfold getStats. cbn [explored total exploreRate].
  split; [exact Hcount |].
  apply rate_within_100; nia.
Qed.

End MoreStats.

(** ** Restart and victory *)

Section MoreEnd.
Variable Math_PI : Q.
Variables Math_cos Math_sin Math_sqrt : Q -> Q.
Variable fuel : nat.



End MoreEnd.



(** ** Line of sight *)

Section Sight.
Variable canMove : Z -> Z -> Z -> Z -> bool.
Variables x1 y1 x2 y2 : Z.

Let dx := Z.abs (x2 - x1).
Let dy := Z.abs (y2 - y1).
Let sx := if (x1 <? x2)%Z then 1%Z else (-1)%Z.
Let sy := if (y1 <? y2)%Z then 1%Z else (-1)%Z.

(** The loop after [a] steps along x and [b] steps along y. *)
Lemma sight_returns (fuel : nat) :
  forall a b err : Z,
    (0 <= a <= dx)%Z -> (0 <= b <= dy)%Z ->
    (err = dx - dy - a * dy + b * dx)%Z ->
    (dx - a + (dy - b) <= Z.of_nat fuel)%Z ->
    exists r,
      sight canMove x2 y2 dx dy sx sy fuel (x1 + sx * a) (y1 + sy * b) err
        = Some r /\
      ((forall cx cy mx my, canMove cx cy mx my = true) -> r = true).
Proof.
  assert (Hx : (x2 = x1 + sx * dx)%Z).
  { unfold sx, dx. destruct (Z.ltb_spec x1 x2); lia. }
  assert (Hy : (y2 = y1 + sy * dy)%Z).
  { unfold sy, dy. destruct (Z.ltb_spec y1 y2); lia. }
  assert (Hsx : (sx = 1 \/ sx = -1)%Z).
  { unfold sx. destruct (x1 <? x2)%Z; auto. }
  assert (Hsy : (sy = 1 \/ sy = -1)%Z).
  { unfold sy. destruct (y1 <? y2)%Z; auto. }
  assert (Hdx : (0 <= dx)%Z) by apply Z.abs_nonneg.
  assert (Hdy : (0 <= dy)%Z) by apply Z.abs_nonneg.
  induction fuel as [| fuel IH]; intros a b err Ha Hb Herr Hm.
  - exists true. split; [ | reflexivity].
    assert (a = dx /\ b = dy) as [-> ->] by lia.
    cbn [sight]. rewrite <- Hx, <- Hy, !Z.eqb_refl. reflexivity.
  - cbn [sight].
    destruct ((x1 + sx * a =? x2)%Z && (y1 + sy * b =? y2)%Z) eqn:Hat;
      [exists true; auto |].
    assert (Hnot : (a < dx \/ b < dy)%Z).
    { destruct (Z.eq_dec a dx) as [-> |]; [ | lia].
      destruct (Z.eq_dec b dy) as [-> |]; [ | lia].
      rewrite <- Hx, <- Hy, !Z.eqb_refl in Hat. discriminate Hat. }
    rewrite Z.gtb_ltb.
    assert (HstepX : (- dy <? 2 * err)%Z = true -> (a < dx)%Z).
    { intros Hs. apply Z.ltb_lt in Hs.
      destruct (Z.eq_dec a dx) as [-> |]; [ | lia].
      assert ((dx * (dy - b - 1) >= 0)%Z) by nia. nia. }
    assert (HstepY : (2 * err <? dx)%Z = true -> (b < dy)%Z).
    { intros Hs. apply Z.ltb_lt in Hs.
      destruct (Z.eq_dec b dy) as [-> |]; [ | lia].
      assert ((dy * (dx - a - 1) >= 0)%Z) by nia. nia. }
    assert (Hsome : (- dy <? 2 * err)%Z = true \/ (2 * err <? dx)%Z = true).
    { destruct (Z.ltb_spec (- dy) (2 * err)); [auto |].
      destruct (Z.ltb_spec (2 * err) dx); [auto | lia]. }
    destruct (canMove _ _ _ _) eqn:Hcan; cbn [negb].
    2:{ exists false. split; [reflexivity |].
        intros Hall. rewrite Hall in Hcan. discriminate Hcan. }
    destruct (- dy <? 2 * err)%Z eqn:SX, (2 * err <? dx)%Z eqn:SY.
    + replace (x1 + sx * a + sx)%Z with (x1 + sx * (a + 1))%Z by ring.
      replace (y1 + sy * b + sy)%Z with (y1 + sy * (b + 1))%Z by ring.
      apply IH; [specialize (HstepX eq_refl); lia
                | specialize (HstepY eq_refl); lia | lia |].
      specialize (HstepX eq_refl). specialize (HstepY eq_refl). lia.
    + replace (x1 + sx * a + sx)%Z with (x1 + sx * (a + 1))%Z by ring.
      apply IH; [specialize (HstepX eq_refl); lia | lia | lia |].
      specialize (HstepX eq_refl). lia.
    + replace (y1 + sy * b + sy)%Z with (y1 + sy * (b + 1))%Z by ring.
      apply IH; [lia | specialize (HstepY eq_refl); lia | lia |].
      specialize (HstepY eq_refl). lia.
    + destruct Hsome; discriminate.
Qed.
End Sight.

(** X24.  For two cells, [hasLineOfSight] returns within as many
    iterations as the cells are apart in rows and columns together, and
    it returns [true] when no step between cells is blocked. *)
Theorem line_of_sight_returns (canMove : Z -> Z -> Z -> Z -> bool)
    (fuel : nat) (x1 y1 x2 y2 : Z) :
  (Z.abs (x2 - x1) + Z.abs (y2 - y1) <= Z.of_nat fuel)%Z ->
  exists r,
    hasLineOfSight canMove fuel x1 y1 x2 y2 = Some r /\
    ((forall cx cy mx my, canMove cx cy mx my = true) -> r = true).
Proof.
  intros Hfuel. unfold hasLineOfSight.
  pose proof (Z.abs_nonneg (x2 - x1)). pose proof (Z.abs_nonneg (y2 - y1)).
  destruct (sight_returns canMove x1 y1 x2 y2 fuel 0 0
              (Z.abs (x2 - x1) - Z.abs (y2 - y1))) as [r Hr];
    try lia.
  exists r. rewrite !Z.mul_0_r, !Z.add_0_r in Hr. exact Hr.
Qed.

Lemma line_of_sight_returns_witness :
  exists r,
    hasLineOfSight (fun _ _ _ _ => true) 7 0 0 4 3 = Some r /\ r = true.
Proof.
  destruct (line_of_sight_returns (fun _ _ _ _ => true) 7 0 0 4 3) as [r Hr].
  - simpl. lia.
  - exists r. split; [apply Hr | apply Hr; reflexivity].
Defined.

Ltac decide_tests :=
  repeat match goal with
  | |- context [(?a =? ?b)%Z] =>
      first [ rewrite (proj2 (Z.eqb_eq a b)) by lia
            | rewrite (proj2 (Z.eqb_neq a b)) by lia ]
  | |- context [(?a <? ?b)%Z] =>
      first [ rewrite (proj2 (Z.ltb_lt a b)) by lia
            | rewrite (proj2 (Z.ltb_ge a b)) by lia ]
  | |- context [(?a >? ?b)%Z] => rewrite (Z.gtb_ltb a b)
  end.

(** X25.  Between two different cells that touch, by a side or by a
    corner, [hasLineOfSight] is the answer of the maze for that one
    step. *)
Theorem neighbour_sight_is_one_step (canMove : Z -> Z -> Z -> Z -> bool)
    (fuel : nat) (x1 y1 x2 y2 : Z) :
  (Z.abs (x2 - x1) <= 1)%Z ->
  (Z.abs (y2 - y1) <= 1)%Z ->
  (x1, y1) <> (x2, y2) ->
  hasLineOfSight canMove (S fuel) x1 y1 x2 y2
  = Some (canMove x1 y1 (x2 - x1)%Z (y2 - y1)%Z).
Proof.
  intros Hx Hy Hne.
  assert (Hmx : exists mx,
             x2 = (x1 + mx)%Z /\ (mx = -1 \/ mx = 0 \/ mx = 1)%Z).
  { exists (x2 - x1)%Z. lia. }
  assert (Hmy : exists my,
             y2 = (y1 + my)%Z /\ (my = -1 \/ my = 0 \/ my = 1)%Z).
  { exists (y2 - y1)%Z. lia. }
  destruct Hmx as [mx [-> Hmx]]. destruct Hmy as [my [-> Hmy]].
  replace (x1 + mx - x1)%Z with mx by ring.
  replace (y1 + my - y1)%Z with my by ring.
  unfold hasLineOfSight.
  replace (x1 + mx - x1)%Z with mx by ring.
  replace (y1 + my - y1)%Z with my by ring.
  destruct Hmx as [-> | [-> | ->]], Hmy as [-> | [-> | ->]];
    try (exfalso; apply Hne; f_equal; ring);
    cbn [sight Z.abs]; decide_tests; cbn [andb negb];
    repeat match goal with
    | |- context [(?a + ?m - ?a)%Z] =>
        replace (a + m - a)%Z with m by ring
    | |- context [(?a - ?a)%Z] => replace (a - a)%Z with 0%Z by ring
    end;
    (destruct (canMove x1 y1 _ _); cbn [negb]; [ | reflexivity]);
    destruct fuel; cbn [sight]; decide_tests; reflexivity.
Qed.

Lemma neighbour_sight_is_one_step_witness :
  hasLineOfSight (fun _ _ mx my => (mx =? 0)%Z || (my =? 0)%Z) 1 0 0 1 1
  = Some false.
Proof.
  apply (neighbour_sight_is_one_step
           (fun _ _ mx my => (mx =? 0)%Z || (my =? 0)%Z) 0 0 0 1 1).
  - simpl. lia.
  - simpl. lia.
  - discriminate.
Defined.

(** ** The sample game *)

Lemma walking_game_flags : flags_consistent (state walking_game).
Proof. unfold flags_consistent. cbn. repeat split; discriminate. Qed.

Lemma walking_game_explored : explored_in_grid walking_game.
Proof.
  unfold explored_in_grid.
  change (exploredCells walking_game) with [(2, 2)%Z].
  split; [constructor; [intros [] | constructor] |].
  split.
  - intros c [<- | []]. unfold in_grid. simpl. lia.
  - intros s c [<- | []] [].
Qed.

Lemma flags_stay_consistent_witness :
  exists g',
    run pi_value axis_cos axis_sin approx_sqrt 20 walking_game
      [DoUpdatePlayerPosition 1; DoTogglePause; DoGameOver 5] = Some g' /\
    flags_consistent (state g').
Proof.
  destruct (run pi_value axis_cos axis_sin approx_sqrt 20 walking_game
              [DoUpdatePlayerPosition 1; DoTogglePause; DoGameOver 5])
    as [g' |] eqn:Hrun; [ | vm_compute in Hrun; discriminate Hrun].
  exists g'. split; [reflexivity |].
  exact (flags_stay_consistent pi_value axis_cos axis_sin approx_sqrt 20
           _ walking_game g' walking_game_flags Hrun).
Defined.

Lemma explored_is_old_or_visible_witness :
  exists g' rs',
    updateVisibility pi_value axis_cos axis_sin 20 walking_game = Some g' /\
    raycastSystem g' = Some rs' /\
    isCellExplored g' 3 2 =
    isCellExplored walking_game 3 2 || isCellVisible rs' 3 2.
Proof.
  eexists. eexists.
  split; [vm_compute; reflexivity |]. split; [reflexivity |].
  apply (explored_is_old_or_visible pi_value axis_cos axis_sin 20
           walking_game).
  - vm_compute. reflexivity.
  - reflexivity.
Defined.


Lemma player_stays_clear_of_walls_witness :
  exists g',
    run pi_value axis_cos axis_sin approx_sqrt 20 walking_game
      [DoUpdatePlayerPosition 1; DoUpdatePlayerPosition 2] = Some g' /\
    within_bounds g' (x (player g')) (y (player g')) /\
    checkWallCollision (maze g') (x (player g')) (y (player g'))
      (radius (player g')) (cellSize (gconfig g')) = false.
Proof.
  destruct (run pi_value axis_cos axis_sin approx_sqrt 20 walking_game
              [DoUpdatePlayerPosition 1; DoUpdatePlayerPosition 2])
    as [g' |] eqn:Hrun; [ | vm_compute in Hrun; discriminate Hrun].
  exists g'. split; [reflexivity |].
  apply (player_stays_clear_of_walls pi_value axis_cos axis_sin approx_sqrt
           20 [DoUpdatePlayerPosition 1; DoUpdatePlayerPosition 2]
           walking_game g'); [ | exact Hrun].
  vm_compute. reflexivity.
Defined.

Lemma player_cell_is_visited_witness :
  exists g',
    run pi_value axis_cos axis_sin approx_sqrt 20 walking_game
      [DoUpdatePlayerPosition 1; DoUpdatePlayerPosition 2] = Some g' /\
    isCellVisited g' (fst (player_cell g')) (snd (player_cell g')) = true.
Proof.
  destruct (run pi_value axis_cos axis_sin approx_sqrt 20 walking_game
              [DoUpdatePlayerPosition 1; DoUpdatePlayerPosition 2])
    as [g' |] eqn:Hrun; [ | vm_compute in Hrun; discriminate Hrun].
  exists g'. split; [reflexivity |].
  apply (player_cell_is_visited pi_value axis_cos axis_sin approx_sqrt
           20 [DoUpdatePlayerPosition 1; DoUpdatePlayerPosition 2]
           walking_game g'); [ | exact Hrun].
  left. vm_compute. reflexivity.
Defined.

Lemma stats_stay_within_maze_witness :
  exists g',
    run pi_value axis_cos axis_sin approx_sqrt 20 walking_game
      [DoUpdatePlayerPosition 1; DoUpdatePlayerPosition 2] = Some g' /\
    (Z.of_nat (explored (getStats g')) <= total (getStats g'))%Z /\
    (0 <= exploreRate (getStats g') <= 100)%Z.
Proof.
  destruct (run pi_value axis_cos axis_sin approx_sqrt 20 walking_game
              [DoUpdatePlayerPosition 1; DoUpdatePlayerPosition 2])
    as [g' |] eqn:Hrun; [ | vm_compute in Hrun; discriminate Hrun].
  exists g'. split; [reflexivity |].
  apply (stats_stay_within_maze pi_value axis_cos axis_sin approx_sqrt 20
           [DoUpdatePlayerPosition 1; DoUpdatePlayerPosition 2]
           walking_game g' walking_game_explored).
  - split; reflexivity.
  - reflexivity.
  - exact Hrun.
Defined.

End MoreGameFacts.
